(** * frugy: the field and record codec of [frugy/types.py]

    A shallow embedding of [FixedField], [StringField] and [FruArea], of the
    two helpers [_sizeAlign] and [_grouper], and of the parts of the Python
    runtime and of the [bitstruct] package they call, followed by the
    properties of the codec. *)

From Stdlib Require Import String Ascii ZArith List Bool Lia.
Import ListNotations.
Set Warnings "-register-all".
Local Open Scope Z_scope.

(* ================================================================== *)
(** * Python values, exceptions, and the two effect shapes             *)
(* ================================================================== *)

(** A Python [str] is a sequence of code points; [bytes] and [bytearray]
    are sequences of integers in [0, 255]. *)
Definition str := list Z.
Definition bytes := list Z.

(** The values a field can hold or an accessor can return. *)
Inductive pyval : Type :=
| VNone
| VInt (z : Z)
| VStr (s : str)
| VTuple (l : list pyval)
| VList (l : list pyval).

(** The two messages [types.py] raises [RuntimeError] with. *)
Inductive runtime_msg : Type :=
| not_byte_aligned
| verify_error (expected received : bytes).

(** Exceptions, by class.  [bitstruct_Error] is [bitstruct.Error]. *)
Inductive pyerr : Type :=
| TypeError
| ValueError
| KeyError
| IndexError
| AttributeError
| UnicodeEncodeError
| UnicodeDecodeError
| bitstruct_Error
| RuntimeError (msg : runtime_msg).

(** A call either returns or raises. *)
Inductive result (A : Type) : Type :=
| Ok (a : A)
| Err (e : pyerr).
Arguments Ok {A} a.
Arguments Err {A} e.

Definition bind {A B} (r : result A) (k : A -> result B) : result B :=
  match r with
  | Ok a => k a
  | Err e => Err e
  end.

Declare Scope py_scope.
Delimit Scope py_scope with py.
Notation "x <- r ;; k" := (bind r (fun x => k))
  (at level 61, r at next level, right associativity) : py_scope.
Local Open Scope py_scope.

(** A method that mutates [self]: the object after the call is part of the
    outcome also when the call raises, as assignments made before the
    [raise] stay. *)
Definition method (S A : Type) : Type := S -> result A * S.

Definition is_ok {A} (r : result A) : bool :=
  match r with Ok _ => true | Err _ => false end.

(** [int(x)] on the values of this file.  [int] of a [str] parses a numeral
    in Python; text stored in a numeric field is outside this embedding and
    is made a [ValueError] here. *)
Definition py_int (v : pyval) : result Z :=
  match v with
  | VInt z => Ok z
  | VStr _ => Err ValueError
  | VNone | VTuple _ | VList _ => Err TypeError
  end.

(** [len(x)]. *)
Definition py_len (v : pyval) : result Z :=
  match v with
  | VStr s => Ok (Z.of_nat (length s))
  | VTuple l | VList l => Ok (Z.of_nat (length l))
  | VNone | VInt _ => Err TypeError
  end.

(** [l * 8] on a sequence. *)
Definition repeat8 {A} (l : list A) : list A :=
  l ++ l ++ l ++ l ++ l ++ l ++ l ++ l.

(** [x * 8]. *)
Definition py_mul8 (v : pyval) : result pyval :=
  match v with
  | VInt z => Ok (VInt (z * 8))
  | VStr s => Ok (VStr (repeat8 s))
  | VTuple l => Ok (VTuple (repeat8 l))
  | VList l => Ok (VList (repeat8 l))
  | VNone => Err TypeError
  end.

(** Slices [l[:n]] and [l[n:]] for [n >= 0]. *)
Definition take {A} (n : Z) (l : list A) : list A := firstn (Z.to_nat n) l.
Definition drop {A} (n : Z) (l : list A) : list A := skipn (Z.to_nat n) l.

(** The slice [l[:-k]] for [k >= 0]: as [-0] is [0], [l[:-0]] is empty. *)
Definition drop_last {A} (k : nat) (l : list A) : list A :=
  match k with
  | O => []
  | _ => firstn (length l - k) l
  end.

(** [sum(payload)]. *)
Definition sum (l : list Z) : Z := fold_right Z.add 0 l.

(** A [str] literal of ASCII characters. *)
Fixpoint str_of (s : string) : str :=
  match s with
  | EmptyString => []
  | String c s' => Z.of_nat (nat_of_ascii c) :: str_of s'
  end.

(* ================================================================== *)
(** * Text: [str.upper], [str.encode('utf-8')], [bytes.decode('utf-8')] *)
(* ================================================================== *)

(** The upper-case form of one code point.  ASCII letters, and the code
    points whose upper-case form is made of ASCII letters only (sharp s,
    dotless i, long s and the Latin ligatures), are as in Unicode.  Every
    other code point above 0x7F is left as it is: its upper-case form also
    has a code point above 0x7F, which is all [ser_6bit] can observe. *)
Definition upper_cp (c : Z) : str :=
  if (0x61 <=? c) && (c <=? 0x7A) then [c - 0x20]
  else if c =? 0xDF then [0x53; 0x53]
  else if c =? 0x131 then [0x49]
  else if c =? 0x17F then [0x53]
  else if c =? 0xFB00 then [0x46; 0x46]
  else if c =? 0xFB01 then [0x46; 0x49]
  else if c =? 0xFB02 then [0x46; 0x4C]
  else if c =? 0xFB03 then [0x46; 0x46; 0x49]
  else if c =? 0xFB04 then [0x46; 0x46; 0x4C]
  else if c =? 0xFB05 then [0x53; 0x54]
  else if c =? 0xFB06 then [0x53; 0x54]
  else [c].

Definition upper (s : str) : str := flat_map upper_cp s.

Definition is_surrogate (c : Z) : bool := (0xD800 <=? c) && (c <=? 0xDFFF).

Definition utf8_encode_cp (c : Z) : result bytes :=
  if c <? 0x80 then Ok [c]
  else if c <? 0x800 then Ok [0xC0 + c / 64; 0x80 + c mod 64]
  else if c <? 0x10000 then
    if is_surrogate c then Err UnicodeEncodeError
    else Ok [0xE0 + c / 4096; 0x80 + (c / 64) mod 64; 0x80 + c mod 64]
  else Ok [0xF0 + c / 262144; 0x80 + (c / 4096) mod 64;
           0x80 + (c / 64) mod 64; 0x80 + c mod 64].

Fixpoint utf8_encode (s : str) : result bytes :=
  match s with
  | [] => Ok []
  | c :: s' =>
      b <- utf8_encode_cp c ;;
      bs <- utf8_encode s' ;;
      Ok (b ++ bs)
  end.

Definition is_cont (b : Z) : bool := (0x80 <=? b) && (b <=? 0xBF).

(** Strict decoding: continuation bytes are checked, and over-long forms,
    surrogates and code points above 0x10FFFF are refused. *)
Fixpoint utf8_decode (bs : bytes) : result str :=
  match bs with
  | [] => Ok []
  | b0 :: r0 =>
      if (0 <=? b0) && (b0 <? 0x80) then
        s <- utf8_decode r0 ;; Ok (b0 :: s)
      else if (0xC2 <=? b0) && (b0 <=? 0xDF) then
        match r0 with
        | b1 :: r1 =>
            if is_cont b1 then
              s <- utf8_decode r1 ;;
              Ok ((b0 - 0xC0) * 64 + (b1 - 0x80) :: s)
            else Err UnicodeDecodeError
        | _ => Err UnicodeDecodeError
        end
      else if (0xE0 <=? b0) && (b0 <=? 0xEF) then
        match r0 with
        | b1 :: b2 :: r2 =>
            let c := (b0 - 0xE0) * 4096 + (b1 - 0x80) * 64 + (b2 - 0x80) in
            if is_cont b1 && is_cont b2 && (0x800 <=? c)
               && negb (is_surrogate c) then
              s <- utf8_decode r2 ;; Ok (c :: s)
            else Err UnicodeDecodeError
        | _ => Err UnicodeDecodeError
        end
      else if (0xF0 <=? b0) && (b0 <=? 0xF4) then
        match r0 with
        | b1 :: b2 :: b3 :: r3 =>
            let c := (b0 - 0xF0) * 262144 + (b1 - 0x80) * 4096
                     + (b2 - 0x80) * 64 + (b3 - 0x80) in
            if is_cont b1 && is_cont b2 && is_cont b3
               && (0x10000 <=? c) && (c <=? 0x10FFFF) then
              s <- utf8_decode r3 ;; Ok (c :: s)
            else Err UnicodeDecodeError
        | _ => Err UnicodeDecodeError
        end
      else Err UnicodeDecodeError
  end.

(* ================================================================== *)
(** * Helpers of [types.py]                                            *)
(* ================================================================== *)

(** [_sizeAlign]: number of padding bytes and total length after padding. *)
Definition _sizeAlign (size alignment : Z) : Z * Z :=
  let numPadBytes := (- size) mod alignment in
  (numPadBytes, size + numPadBytes).

(** [_grouper]: [zip_longest] over [n] references to one iterator.  Each
    round draws [n] items, filling with [padvalue] once the iterator is
    exhausted; a round that draws nothing ends the iteration. *)
Fixpoint grouper_rounds {A} (rounds n : nat) (iterable : list A) (padvalue : A)
  : list (list A) :=
  match rounds with
  | O => []
  | S rounds' =>
      match iterable with
      | [] => []
      | _ =>
          let drawn := firstn n iterable in
          (drawn ++ repeat padvalue (n - length drawn))
            :: grouper_rounds rounds' n (skipn n iterable) padvalue
      end
  end.

Definition _grouper {A} (n : nat) (iterable : list A) (padvalue : A)
  : list (list A) :=
  grouper_rounds (length iterable) n iterable padvalue.

(* ================================================================== *)
(** * The [bitstruct] package, for formats made of [u<n>] groups        *)
(* ================================================================== *)

(** Modelled from the spec: [bitstruct] is a package outside this
    repository.  Section 4.1 of the spec fixes what the codec relies on:
    groups packed in declaration order, most significant bit first, the
    trailing [<] of a format giving least-significant-byte-first order.
    The definitions below follow the package's [pack], [unpack] and
    [calcsize] for formats that consist of unsigned groups [u<n>] with
    [n >= 1] (a format is the list of its widths), bit strings being lists
    of booleans where the package uses text of 0 and 1. *)
Module bitstruct.

Definition bits := list bool.

(** [bin(value)] zero-filled to [size] digits. *)
Fixpoint to_bits (size : nat) (value : Z) : bits :=
  match size with
  | O => []
  | S k => Z.testbit value (Z.of_nat k) :: to_bits k value
  end.

(** [int(bits, 2)]. *)
Definition of_bits (b : bits) : Z :=
  fold_left (fun acc d => 2 * acc + Z.b2z d) b 0.

(** The bytes of a bit string whose length is a multiple of 8. *)
Fixpoint bytes_of_bits (b : bits) : bytes :=
  match b with
  | b7 :: b6 :: b5 :: b4 :: b3 :: b2 :: b1 :: b0 :: rest =>
      of_bits [b7; b6; b5; b4; b3; b2; b1; b0] :: bytes_of_bits rest
  | _ => []
  end.

Definition bits_of_bytes (data : bytes) : bits := flat_map (to_bits 8) data.

(** The optional last character of a format: [>] (the default) or [<]. *)
Inductive byte_order : Type := MSB_first | LSB_first.

Definition calcsize (fmt : list positive) : Z :=
  fold_right (fun size acc => Z.pos size + acc) 0 fmt.

(** An unsigned group refuses a value outside [0, 2^size - 1]. *)
Definition uint_pack (size : positive) (arg : pyval) : result bits :=
  value <- py_int arg ;;
  if (value <? 0) || (2 ^ Z.pos size - 1 <? value) then Err bitstruct_Error
  else Ok (to_bits (Pos.to_nat size) value).

(** The loop of [pack_value] for [<]:
    [while aligned_offset > 0: bits += value_bits[aligned_offset:];
     value_bits = value_bits[:aligned_offset]; aligned_offset -= 8]
    and then [bits += value_bits]. *)
Fixpoint pack_lsb_loop (fuel : nat) (aligned_offset : Z)
         (value_bits acc : bits) : bits :=
  match fuel with
  | O => acc ++ value_bits
  | S fuel' =>
      if 0 <? aligned_offset then
        pack_lsb_loop fuel' (aligned_offset - 8)
                      (take aligned_offset value_bits)
                      (acc ++ drop aligned_offset value_bits)
      else acc ++ value_bits
  end.

Definition pack_value (order : byte_order) (size : positive) (arg : pyval)
           (acc : bits) : result bits :=
  value_bits <- uint_pack size arg ;;
  match order with
  | MSB_first => Ok (acc ++ value_bits)
  | LSB_first =>
      let aligned_offset :=
        Z.of_nat (length value_bits) - (8 - Z.of_nat (length acc) mod 8) in
      Ok (pack_lsb_loop (length value_bits) aligned_offset value_bits acc)
  end.

Fixpoint pack_any (order : byte_order) (infos : list positive)
         (values : list pyval) (acc : bits) : result bits :=
  match infos with
  | [] => Ok acc
  | size :: infos' =>
      match values with
      | [] => Err IndexError
      | arg :: values' =>
          acc' <- pack_value order size arg acc ;;
          pack_any order infos' values' acc'
      end
  end.

(** Padding of the last byte with zero bits. *)
Definition pad_last_byte (b : bits) : bits :=
  let tail := Z.of_nat (length b) mod 8 in
  if tail =? 0 then b else b ++ repeat false (Z.to_nat (8 - tail)).

(** [bitstruct.pack(fmt, *args)]: too few arguments are refused, surplus
    arguments are ignored. *)
Definition pack (fmt : list positive) (order : byte_order)
           (args : list pyval) : result bytes :=
  if (length args <? length fmt)%nat then Err bitstruct_Error
  else
    b <- pack_any order fmt args [] ;;
    Ok (bytes_of_bits (pad_last_byte b)).

(** The loop of [unpack] for [<]:
    [while aligned_offset > 0:
       value_bits += value_bits_tmp[aligned_offset:aligned_offset + 8];
       value_bits_tmp = value_bits_tmp[:aligned_offset];
       aligned_offset -= 8]
    and then [value_bits += value_bits_tmp]. *)
Fixpoint unpack_lsb_loop (fuel : nat) (aligned_offset : Z)
         (value_bits_tmp value_bits : bits) : bits :=
  match fuel with
  | O => value_bits ++ value_bits_tmp
  | S fuel' =>
      if 0 <? aligned_offset then
        unpack_lsb_loop fuel' (aligned_offset - 8)
                        (take aligned_offset value_bits_tmp)
                        (value_bits
                           ++ take 8 (drop aligned_offset value_bits_tmp))
      else value_bits ++ value_bits_tmp
  end.

Definition unpack_value (order : byte_order) (size : positive)
           (b : bits) (offset : Z) : Z :=
  let window := take (Z.pos size) (drop offset b) in
  match order with
  | MSB_first => of_bits window
  | LSB_first =>
      let aligned_offset := Z.pos size - (offset + Z.pos size) mod 8 in
      of_bits (unpack_lsb_loop (S (Pos.to_nat size)) aligned_offset window [])
  end.

Fixpoint unpack_any (order : byte_order) (infos : list positive)
         (b : bits) (offset : Z) : list Z :=
  match infos with
  | [] => []
  | size :: infos' =>
      unpack_value order size b offset
        :: unpack_any order infos' b (offset + Z.pos size)
  end.

(** [bitstruct.unpack(fmt, data)]: data shorter than the format is
    refused, surplus data is ignored. *)
Definition unpack (fmt : list positive) (order : byte_order)
           (data : bytes) : result (list Z) :=
  let b := bits_of_bytes data in
  if Z.of_nat (length b) <? calcsize fmt then Err bitstruct_Error
  else Ok (unpack_any order fmt b 0).

End bitstruct.

(** Sequencing of calls on one object. *)
Definition mbind {S A B} (m : method S A) (k : A -> method S B) : method S B :=
  fun self =>
    match m self with
    | (Ok a, self') => k a self'
    | (Err e, self') => (Err e, self')
    end.

(** A call that does not assign to [self]. *)
Definition pure_call {S A} (f : S -> result A) : method S A :=
  fun self => (f self, self).

Notation "x <~ m ;; k" := (mbind m (fun x => k))
  (at level 61, m at next level, right associativity) : py_scope.

(* ================================================================== *)
(** * [class FixedField]                                               *)
(* ================================================================== *)

Module FixedField.

(** [format] is the list of the widths of the format's [u<n>] groups. *)
Record t : Type := mk { format : list positive; value : pyval }.

Definition size (self : t) : result Z :=
  let numBits := bitstruct.calcsize (format self) in
  if negb (numBits mod 8 =? 0) then Err (RuntimeError not_byte_aligned)
  else Ok (numBits / 8).

Definition serialize (self : t) : result bytes :=
  match value self with
  | VTuple l => bitstruct.pack (format self) bitstruct.LSB_first l
  | v => bitstruct.pack (format self) bitstruct.LSB_first [v]
  end.

Definition deserialize (input : bytes) : method t bytes :=
  fun self =>
    match size self with
    | Err e => (Err e, self)
    | Ok n =>
        let tmp := take n input in
        let remainder := drop n input in
        match bitstruct.unpack (format self) bitstruct.LSB_first tmp with
        | Err e => (Err e, self)
        | Ok result_ =>
            if (1 <? length result_)%nat then
              (Ok remainder, mk (format self) (VTuple (map VInt result_)))
            else
              match result_ with
              | r0 :: _ => (Ok remainder, mk (format self) (VInt r0))
              | [] => (Err IndexError, self)
              end
        end
    end.

End FixedField.

(* ================================================================== *)
(** * [class StringFmt] and [class StringField]                        *)
(* ================================================================== *)

Inductive StringFmt : Type := BIN | BCD_PLUS | ASCII_6BIT | ASCII_8BIT.

Module StringField.

(** [StringFmt.value]. *)
Definition fmt_value (f : StringFmt) : Z :=
  match f with
  | BIN => 0
  | BCD_PLUS => 1
  | ASCII_6BIT => 2
  | ASCII_8BIT => 3
  end.

(** [StringFmt(fmt_int)]. *)
Definition fmt_of_int (fmt_int : Z) : result StringFmt :=
  if fmt_int =? 0 then Ok BIN
  else if fmt_int =? 1 then Ok BCD_PLUS
  else if fmt_int =? 2 then Ok ASCII_6BIT
  else if fmt_int =? 3 then Ok ASCII_8BIT
  else Err ValueError.

Record t : Type := mk { format : StringFmt; value : pyval }.

(** [hash(x)] is defined. *)
Fixpoint hashable (v : pyval) : bool :=
  match v with
  | VList _ => false
  | VTuple l => forallb hashable l
  | _ => true
  end.

(** [bcdplus_lookup[x]]: the keys are the one-character strings
    [0]..[9], space, [-] and [.]. *)
Definition bcdplus_lookup (x : pyval) : result Z :=
  match x with
  | VStr [c] =>
      if (0x30 <=? c) && (c <=? 0x39) then Ok (c - 0x30)
      else if c =? 0x20 then Ok 10
      else if c =? 0x2D then Ok 11
      else if c =? 0x2E then Ok 12
      else Err KeyError
  | _ => if hashable x then Err KeyError else Err TypeError
  end.

(** [bcdplus_lookup_rev[x]]. *)
Definition bcdplus_lookup_rev (x : Z) : result Z :=
  if (0 <=? x) && (x <=? 9) then Ok (x + 0x30)
  else if x =? 10 then Ok 0x20
  else if x =? 11 then Ok 0x2D
  else if x =? 12 then Ok 0x2E
  else Err KeyError.

(** [iter(x)]: the items a [for] loop draws from a value. *)
Definition py_iter (v : pyval) : result (list pyval) :=
  match v with
  | VStr s => Ok (map (fun c => VStr [c]) s)
  | VTuple l | VList l => Ok l
  | VNone | VInt _ => Err TypeError
  end.

(** [map(f, chunk)], consumed in order: the first failure is raised. *)
Fixpoint map_result {A B} (f : A -> result B) (l : list A) : result (list B) :=
  match l with
  | [] => Ok []
  | x :: l' =>
      y <- f x ;;
      ys <- map_result f l' ;;
      Ok (y :: ys)
  end.

(** ** [size] *)

Definition size_plain (val : pyval) : result Z := py_len val.

Definition size_6bit (val : pyval) : result Z :=
  len <- py_len val ;;
  let '(_, n) := _sizeAlign len 4 in
  Ok ((n / 4) * 3).

Definition size_bcd_plus (val : pyval) : result Z :=
  len <- py_len val ;;
  let '(_, n) := _sizeAlign len 2 in
  Ok (n / 2).

Definition size_fn (f : StringFmt) : pyval -> result Z :=
  match f with
  | BIN => size_plain
  | BCD_PLUS => size_bcd_plus
  | ASCII_6BIT => size_6bit
  | ASCII_8BIT => size_plain
  end.

Definition size (self : t) : result Z :=
  n <- size_fn (format self) (value self) ;;
  Ok (n + 1).

(** ** [serialize] *)

Definition ser_plain (val : pyval) : result bytes :=
  match val with
  | VStr s => utf8_encode s
  | _ => Err AttributeError
  end.

(** The body of the [for] loop of [ser_6bit], over the chunks drawn. *)
Fixpoint ser_6bit_loop (chunks : list (list Z)) (result_ : bytes)
  : result bytes :=
  match chunks with
  | [] => Ok result_
  | chunk :: chunks' =>
      let chunk := map (fun x => x - 0x20) chunk in
      let chunk := rev chunk in
      tmp <- bitstruct.pack [6; 6; 6; 6]%positive bitstruct.MSB_first
                            (map VInt chunk) ;;
      ser_6bit_loop chunks' (result_ ++ rev tmp)
  end.

Definition ser_6bit (val : pyval) : result bytes :=
  match val with
  | VStr s => ser_6bit_loop (_grouper 4 (upper s) 0x20) []
  | _ => Err AttributeError
  end.

Fixpoint ser_bcd_plus_loop (chunks : list (list pyval)) (result_ : bytes)
  : result bytes :=
  match chunks with
  | [] => Ok result_
  | chunk :: chunks' =>
      chunk <- map_result bcdplus_lookup chunk ;;
      tmp <- bitstruct.pack [4; 4]%positive bitstruct.MSB_first
                            (map VInt chunk) ;;
      ser_bcd_plus_loop chunks' (result_ ++ tmp)
  end.

Definition ser_bcd_plus (val : pyval) : result bytes :=
  items <- py_iter val ;;
  ser_bcd_plus_loop (_grouper 2 items (VStr [0x20])) [].

Definition ser_type_length (self : t) (val : bytes) : result bytes :=
  bitstruct.pack [2; 6]%positive bitstruct.MSB_first
                 [VInt (fmt_value (format self));
                  VInt (Z.of_nat (length val))].

Definition ser_fn (f : StringFmt) : pyval -> result bytes :=
  match f with
  | BIN => ser_plain
  | BCD_PLUS => ser_bcd_plus
  | ASCII_6BIT => ser_6bit
  | ASCII_8BIT => ser_plain
  end.

Definition serialize (self : t) : result bytes :=
  result_ <- ser_fn (format self) (value self) ;;
  header <- ser_type_length self result_ ;;
  Ok (header ++ result_).

(** ** [deserialize] *)

Definition deser_plain (val : bytes) : result str := utf8_decode val.

(** [bytearray(items)]: every item has to be an integer in [0, 255]. *)
Fixpoint py_bytearray (items : list pyval) : result bytes :=
  match items with
  | [] => Ok []
  | VInt b :: items' =>
      if (0 <=? b) && (b <? 256) then
        bs <- py_bytearray items' ;; Ok (b :: bs)
      else Err ValueError
  | _ :: _ => Err TypeError
  end.

Fixpoint deser_6bit_loop (chunks : list (list pyval)) (result_ : bytes)
  : result bytes :=
  match chunks with
  | [] => Ok result_
  | chunk :: chunks' =>
      data <- py_bytearray (rev chunk) ;;
      tmp <- bitstruct.unpack [6; 6; 6; 6]%positive bitstruct.MSB_first data ;;
      deser_6bit_loop chunks'
                      (result_ ++ map (fun x => x + 0x20) (rev tmp))
  end.

(** The pad value of the grouping is the string of one space, while the
    items are the integers of [val]. *)
Definition deser_6bit (val : bytes) : result str :=
  result_ <- deser_6bit_loop (_grouper 3 (map VInt val) (VStr [0x20])) [] ;;
  utf8_decode result_.

Fixpoint deser_bcd_plus (val : bytes) : result str :=
  match val with
  | [] => Ok []
  | v :: val' =>
      tmp <- bitstruct.unpack [4; 4]%positive bitstruct.MSB_first [v] ;;
      chars <- map_result bcdplus_lookup_rev tmp ;;
      rest <- deser_bcd_plus val' ;;
      Ok (chars ++ rest)
  end.

Definition deser_fn (f : StringFmt) : bytes -> result str :=
  match f with
  | BIN => deser_plain
  | BCD_PLUS => deser_bcd_plus
  | ASCII_6BIT => deser_6bit
  | ASCII_8BIT => deser_plain
  end.

Definition deserialize (input : bytes) : method t bytes :=
  fun self =>
    match bitstruct.unpack [2; 6]%positive bitstruct.MSB_first (take 1 input) with
    | Ok [fmt_int; payload_len] =>
        match fmt_of_int fmt_int with
        | Err e => (Err e, self)
        | Ok fmt =>
            let self := mk fmt (value self) in
            let remainder := drop 1 input in
            let payload := take payload_len remainder in
            let remainder := drop payload_len remainder in
            match deser_fn fmt payload with
            | Err e => (Err e, self)
            | Ok v => (Ok remainder, mk fmt (VStr v))
            end
        end
    | Ok _ => (Err ValueError, self)
    | Err e => (Err e, self)
    end.

End StringField.

(* ================================================================== *)
(** * [class FruArea]                                                  *)
(* ================================================================== *)

(** The objects of a schema answer [size], [serialize] and [deserialize]
    and carry a [value]; they are [FixedField]s or [StringField]s. *)
Inductive Field : Type :=
| Fixed (f : FixedField.t)
| Text (f : StringField.t).

Module FruArea.

Definition field_value (v : Field) : pyval :=
  match v with
  | Fixed f => FixedField.value f
  | Text f => StringField.value f
  end.

(** [v.value = x]. *)
Definition field_assign (v : Field) (x : pyval) : Field :=
  match v with
  | Fixed f => Fixed (FixedField.mk (FixedField.format f) x)
  | Text f => Text (StringField.mk (StringField.format f) x)
  end.

Definition field_size (v : Field) : result Z :=
  match v with
  | Fixed f => FixedField.size f
  | Text f => StringField.size f
  end.

Definition field_serialize (v : Field) : result bytes :=
  match v with
  | Fixed f => FixedField.serialize f
  | Text f => StringField.serialize f
  end.

Definition field_deserialize (input : bytes) : method Field bytes :=
  fun v =>
    match v with
    | Fixed f => let (r, f') := FixedField.deserialize input f in (r, Fixed f')
    | Text f => let (r, f') := StringField.deserialize input f in (r, Text f')
    end.

(** An [OrderedDict] from field names to fields: keys are unique and keep
    the order of their first insertion. *)
Definition odict := list (string * Field).

Fixpoint od_get (d : odict) (key : string) : option Field :=
  match d with
  | [] => None
  | (k, v) :: d' => if String.eqb k key then Some v else od_get d' key
  end.

(** [d[key] = v]. *)
Fixpoint od_put (d : odict) (key : string) (v : Field) : odict :=
  match d with
  | [] => [(key, v)]
  | (k, v0) :: d' =>
      if String.eqb k key then (k, v) :: d' else (k, v0) :: od_put d' key v
  end.

(** [OrderedDict(schema)]. *)
Definition OrderedDict (schema : list (string * Field)) : odict :=
  fold_left (fun d kv => od_put d (fst kv) (snd kv)) schema [].

Definition od_contains (d : odict) (key : string) : bool :=
  match od_get d key with Some _ => true | None => false end.

Record t : Type := mk { _format_version : FixedField.t; _dict : odict }.

Definition _format_version_default : Z := 1.

(** ** accessors *)

Definition _get (key : string) (self : t) : result pyval :=
  match od_get (_dict self) key with
  | None => Err KeyError
  | Some f =>
      match field_value f with
      | VTuple l => Ok (VList l)
      | v => Ok v
      end
  end.

Definition _set (key : string) (value : pyval) : method t unit :=
  fun self =>
    match od_get (_dict self) key with
    | None => (Err KeyError, self)
    | Some f =>
        let value := match value with VList l => VTuple l | v => v end in
        (Ok tt, mk (_format_version self)
                   (od_put (_dict self) key (field_assign f value)))
    end.

Definition _set_area_length (val : Z) : method t unit :=
  fun self =>
    if negb (val mod 8 =? 0) then (Err ValueError, self)
    else _set "area_length" (VInt (val / 8)) self.

Definition _get_area_length (self : t) : result pyval :=
  v <- _get "area_length" self ;;
  py_mul8 v.

Definition _set_format_version (val : pyval) : method t unit :=
  fun self =>
    (Ok tt, mk (FixedField.mk (FixedField.format (_format_version self))
                              (VTuple [VInt 0; val]))
               (_dict self)).

(** [self._format_version.value[1]]. *)
Definition _get_format_version (self : t) : result pyval :=
  match FixedField.value (_format_version self) with
  | VTuple l | VList l =>
      match nth_error l 1 with Some v => Ok v | None => Err IndexError end
  | VStr s =>
      match nth_error s 1 with Some c => Ok (VStr [c]) | None => Err IndexError end
  | VNone | VInt _ => Err TypeError
  end.

(** ** dict interface: the names for which [hasattr] finds a special
    accessor are [area_length] and [format_version]. *)

Definition __getitem__ (key : string) (self : t) : result pyval :=
  if String.eqb key "area_length" then _get_area_length self
  else if String.eqb key "format_version" then _get_format_version self
  else _get key self.

(** A value that is not an integer makes [val % 8] of the setter of
    [area_length] raise. *)
Definition __setitem__ (key : string) (value : pyval) : method t unit :=
  if String.eqb key "area_length" then
    match value with
    | VInt val => _set_area_length val
    | _ => fun self => (Err TypeError, self)
    end
  else if String.eqb key "format_version" then _set_format_version value
  else _set key value.

Definition __contains__ (key : string) (self : t) : bool :=
  String.eqb key "area_length" || String.eqb key "format_version"
  || od_contains (_dict self) key.

Fixpoint update (src : list (string * pyval)) : method t unit :=
  match src with
  | [] => fun self => (Ok tt, self)
  | (k, v) :: src' => _ <~ __setitem__ k v ;; update src'
  end.

(** The dict holds the field objects of [_schema] themselves, so that
    records built from one schema list share them; the properties of
    this file concern one record at a time. *)
Definition __init__ (_schema : list (string * Field))
           (initdict : option (list (string * pyval))) : result t * t :=
  let self := mk (FixedField.mk [4; 4]%positive
                                (VTuple [VInt 0; VInt _format_version_default]))
                 (OrderedDict _schema) in
  match initdict with
  | None => (Ok self, self)
  | Some src => let (r, self') := update src self in
                (_ <- r ;; Ok self', self')
  end.

Fixpoint to_dict_keys (keys : list string) (self : t)
  : result (list (string * pyval)) :=
  match keys with
  | [] => Ok []
  | k :: keys' =>
      v <- __getitem__ k self ;;
      rest <- to_dict_keys keys' self ;;
      Ok ((k, v) :: rest)
  end.

Definition to_dict (self : t) : result (list (string * pyval)) :=
  to_dict_keys (map fst (_dict self)) self.

(** ** (de)serializing *)

Definition _prologue (self : t) : result bytes :=
  FixedField.serialize (_format_version self).

Definition _epilogue (payload : bytes) : bytes :=
  let '(numPadBytes, _) := _sizeAlign (Z.of_nat (length payload) + 1) 8 in
  let result_ := repeat 0 (Z.to_nat numPadBytes) in
  let cksum := Z.land (- sum payload) 0xff in
  result_ ++ [cksum].

(** [[v.size() for v in self._dict.values()]] and the like. *)
Definition for_values {A} (f : Field -> result A) (d : odict)
  : result (list A) :=
  StringField.map_result (fun kv => f (snd kv)) d.

Definition size_payload (self : t) : result Z :=
  sizes <- for_values field_size (_dict self) ;;
  Ok (sum sizes + 1).

Definition size_total (self : t) : result Z :=
  p <- size_payload self ;;
  let '(_, n) := _sizeAlign (p + 1) 8 in
  Ok n.

Definition serialize : method t bytes :=
  payload <~ pure_call _prologue ;;
  _ <~ (fun self =>
          if od_contains (_dict self) "area_length" then
            (n <~ pure_call size_total ;; __setitem__ "area_length" (VInt n)) self
          else (Ok tt, self)) ;;
  parts <~ pure_call (fun self => for_values field_serialize (_dict self)) ;;
  let payload := payload ++ concat parts in
  pure_call (fun _ => Ok (payload ++ _epilogue payload)).

(** The [for] loop of [deserialize]: every field consumes a prefix of
    the remainder and keeps what it decoded. *)
Fixpoint deserialize_values (d : odict) (remainder : bytes)
  : result bytes * odict :=
  match d with
  | [] => (Ok remainder, [])
  | (k, v) :: d' =>
      match field_deserialize remainder v with
      | (Ok remainder', v') =>
          let (r, d'') := deserialize_values d' remainder' in
          (r, (k, v') :: d'')
      | (Err e, v') => (Err e, (k, v') :: d')
      end
  end.

(** The statements of [deserialize] before the verification. *)
Definition deserialize_walk (input : bytes) : method t bytes :=
  fun self =>
    match FixedField.deserialize input (_format_version self) with
    | (Err e, fv) => (Err e, mk fv (_dict self))
    | (Ok remainder, fv) =>
        let (r, d) := deserialize_values (_dict self) remainder in
        (r, mk fv d)
    end.

Definition deserialize (input : bytes) : method t bytes :=
  remainder <~ deserialize_walk input ;;
  let payload := drop_last (length remainder) input in
  let ep := _epilogue payload in
  let vfy := firstn (length ep) remainder in
  let remainder := skipn (length ep) remainder in
  if list_eq_dec Z.eq_dec ep vfy then pure_call (fun _ => Ok remainder)
  else pure_call (fun _ => Err (RuntimeError (verify_error ep vfy))).

End FruArea.

(* ================================================================== *)
(** * [cli.py]: [dict_set]                                             *)
(* ================================================================== *)

Module cli.

(** What [dict_set] can tell of a value loaded from YAML: it is a dict,
    here with strings as keys, or it is not a dict.  The value is a tree:
    no dict is reached by two paths, as in a document without aliases. *)
Inductive node : Type :=
| Leaf (v : pyval)
| Dict (entries : list (string * node)).

(** [d[key]], [key in d] and [d[key] = v] on the entries of a dict, which
    keep the order of insertion. *)
Fixpoint get (entries : list (string * node)) (key : string) : option node :=
  match entries with
  | [] => None
  | (k, v) :: entries' => if String.eqb k key then Some v else get entries' key
  end.

Definition contains (entries : list (string * node)) (key : string) : bool :=
  match get entries key with Some _ => true | None => false end.

Fixpoint put (entries : list (string * node)) (key : string) (v : node)
  : list (string * node) :=
  match entries with
  | [] => [(key, v)]
  | (k, v0) :: entries' =>
      if String.eqb k key then (k, v) :: entries'
      else (k, v0) :: put entries' key v
  end.

(** [dict_set(d, keys, item)].  The dict is changed in place: the second
    component is [d] after the call, also when the call raises.  On a
    value that is not a dict, the membership test, the subscript or the
    assignment raises [TypeError]; [keys[0]] of no keys raises
    [IndexError]. *)
Fixpoint dict_set (d : node) (keys : list string) (item : node)
  : result unit * node :=
  match keys with
  | [] => (Err IndexError, d)
  | [key] =>
      match d with
      | Dict entries => (Ok tt, Dict (put entries key item))
      | Leaf _ => (Err TypeError, d)
      end
  | key :: rest =>
      match d with
      | Leaf _ => (Err TypeError, d)
      | Dict entries =>
          let entries :=
            if contains entries key then entries
            else put entries key (Dict []) in
          match get entries key with
          | Some child =>
              let (r, child') := dict_set child rest item in
              (r, Dict (put entries key child'))
          | None => (Err KeyError, Dict entries)
          end
      end
  end.

End cli.

(* ================================================================== *)
(** * Vocabulary of the properties                                    *)
(* ================================================================== *)

(** The record of Scenario 4: no schema entries, format version 1. *)
Definition empty_record : FruArea.t := snd (FruArea.__init__ [] None).

(** [rest] is what is left of [input] after some prefix. *)
Definition suffix_of (rest input : bytes) : Prop :=
  exists n : nat, rest = skipn n input.

(** Every exception but the verification error of [FruArea.deserialize]. *)
Definition not_verify (e : pyerr) : Prop :=
  match e with
  | RuntimeError (verify_error _ _) => False
  | _ => True
  end.

Ltac raise_cases H :=
  repeat match type of H with
         | bind ?r _ = Err _ =>
             let E := fresh "E" in destruct r eqn:E; cbn [bind] in H
         | (if ?c then _ else _) = Err _ => destruct c
         | Ok _ = Err _ => discriminate H
         end.

(** Two fields of one class and, for a [FixedField], of one format. *)
Definition same_layout (v w : Field) : Prop :=
  match v, w with
  | Fixed f, Fixed g => FixedField.format f = FixedField.format g
  | Text _, Text _ => True
  | _, _ => False
  end.

(** Two records of one schema: they may differ in every value they hold. *)
Definition same_schema (a b : FruArea.t) : Prop :=
  FixedField.format (FruArea._format_version a)
  = FixedField.format (FruArea._format_version b)
  /\ Forall2 (fun kv kw => fst kv = fst kw /\ same_layout (snd kv) (snd kw))
             (FruArea._dict a) (FruArea._dict b).

(** The bits one value contributes under [<], once the loop is over. *)
Definition lsb_emit (ao : Z) (vb : bitstruct.bits) : bitstruct.bits :=
  bitstruct.pack_lsb_loop (Z.to_nat ao) ao vb [].

(** The bits of one value read back under [<]. *)
Definition lsb_collect (ao : Z) (tmp : bitstruct.bits) : bitstruct.bits :=
  bitstruct.unpack_lsb_loop (Z.to_nat ao) ao tmp [].

(** The values an unsigned group of [size] bits accepts. *)
Definition in_range (size : positive) (v : Z) : Prop :=
  0 <= v < 2 ^ Z.pos size.

(** The characters [bcdplus_lookup] has a key for. *)
Definition bcd_supported (c : Z) : bool :=
  ((0x30 <=? c) && (c <=? 0x39)) || (c =? 0x20) || (c =? 0x2D) || (c =? 0x2E).

Definition bcd_code (c : Z) : Z :=
  if (0x30 <=? c) && (c <=? 0x39) then c - 0x30
  else if c =? 0x20 then 10
  else if c =? 0x2D then 11
  else 12.

Definition char_item (c : Z) : pyval := VStr [c].

(** A 24-bit stream split into 3 bytes, most significant first. *)
Definition stream_bytes (stream : Z) : bytes :=
  [stream / 2 ^ 16; (stream / 2 ^ 8) mod 2 ^ 8; stream mod 2 ^ 8].

(** The rule as section 4.2 of the spec words it: per chunk of 4
    characters, subtract 0x20 from each code, pack the 4 codes into a
    24-bit stream with the first character most significant, split into
    3 bytes, reverse the 3 bytes. *)
Definition spec_6bit_chunk (chunk : list Z) : bytes :=
  match map (fun x => x - 0x20) chunk with
  | [c0; c1; c2; c3] =>
      rev (stream_bytes (c0 * 2 ^ 18 + c1 * 2 ^ 12 + c2 * 2 ^ 6 + c3))
  | _ => []
  end.

Definition spec_6bit (s : str) : bytes :=
  flat_map spec_6bit_chunk (_grouper 4 (upper s) 0x20).

(** The same rule with the last character of the chunk most significant. *)
Definition rule_6bit_chunk (chunk : list Z) : bytes :=
  match map (fun x => x - 0x20) chunk with
  | [c0; c1; c2; c3] =>
      rev (stream_bytes (c3 * 2 ^ 18 + c2 * 2 ^ 12 + c1 * 2 ^ 6 + c0))
  | _ => []
  end.

Definition rule_6bit (s : str) : bytes :=
  flat_map rule_6bit_chunk (_grouper 4 (upper s) 0x20).

(** The characters with a 6-bit code: 0x20 to 0x5F. *)
Definition is_6bit_char (c : Z) : bool := (0x20 <=? c) && (c <=? 0x5F).

(** A record whose schema is the one field [area_length], of format [u8]. *)
Definition area_length_only : FruArea.t :=
  snd (FruArea.__init__
         [("area_length"%string, Fixed (FixedField.mk [8%positive] VNone))] None).

Definition is_byte (b : Z) : Prop := 0 <= b < 256.

(** The code points of a [str]. *)
Definition is_code_point (c : Z) : Prop := 0 <= c <= 0x10FFFF.

Ltac decide_tests :=
  repeat match goal with
         | |- context [?a <=? ?b] => destruct (Z.leb_spec a b); try lia
         | |- context [?a <? ?b] => destruct (Z.ltb_spec a b); try lia
         end;
  cbn [andb orb negb].

(** [s] followed by the spaces that bring its length to a multiple of [n]. *)
Definition pad_to (n : nat) (s : str) : str :=
  s ++ repeat 0x20 ((n - length s mod n) mod n).

(** What decoding returns for a value [s] encoded under a format. *)
Definition decoded_text (fmt : StringFmt) (s : str) : str :=
  match fmt with
  | BIN | ASCII_8BIT => s
  | BCD_PLUS => pad_to 2 s
  | ASCII_6BIT => pad_to 4 (upper s)
  end.

Definition is_int (v : pyval) : bool :=
  match v with VInt _ => true | _ => false end.

(** A [FixedField] of a valid schema holding a valid value: the bit
    widths add up to whole bytes; one group holds an integer, several
    groups hold a tuple of as many integers. *)
Definition fixed_shape_ok (f : FixedField.t) : bool :=
  (bitstruct.calcsize (FixedField.format f) mod 8 =? 0)
  && match FixedField.format f, FixedField.value f with
     | [_], VInt _ => true
     | _ :: _ :: _, VTuple vs =>
         (length vs =? length (FixedField.format f))%nat && forallb is_int vs
     | _, _ => false
     end.

Definition is_code_pointb (c : Z) : bool := (0 <=? c) && (c <=? 0x10FFFF).

(** A [StringField] holding a string. *)
Definition text_shape_ok (f : StringField.t) : bool :=
  match StringField.value f with
  | VStr s => forallb is_code_pointb s
  | _ => false
  end.

Definition field_ok (v : Field) : bool :=
  match v with
  | Fixed f => fixed_shape_ok f
  | Text f => text_shape_ok f
  end.

(** An entry of the schema.  What [area_length] holds before [serialize]
    does not matter, as [serialize] assigns it; it has to be a
    [FixedField] of one group. *)
Definition entry_ok (kv : string * Field) : bool :=
  if String.eqb (fst kv) "area_length" then
    match snd kv with
    | Fixed f =>
        (bitstruct.calcsize (FixedField.format f) mod 8 =? 0)
        && match FixedField.format f with [_] => true | _ => false end
    | Text _ => false
    end
  else field_ok (snd kv).

(** A record built from a valid schema with valid field values. *)
Definition valid_record (self : FruArea.t) : Prop :=
  FixedField.format (FruArea._format_version self) = [4; 4]%positive
  /\ fixed_shape_ok (FruArea._format_version self) = true
  /\ forallb entry_ok (FruArea._dict self) = true
  /\ NoDup (map fst (FruArea._dict self)).

(** The field after its own bytes have been deserialized into it. *)
Definition decoded_field (v : Field) : Field :=
  match v with
  | Fixed f => Fixed f
  | Text f =>
      match StringField.value f with
      | VStr s =>
          Text (StringField.mk (StringField.format f)
                               (VStr (decoded_text (StringField.format f) s)))
      | _ => Text f
      end
  end.

Definition decoded (self : FruArea.t) : FruArea.t :=
  FruArea.mk (FruArea._format_version self)
             (map (fun kv => (fst kv, decoded_field (snd kv)))
                  (FruArea._dict self)).

(** The state of a valid record once [serialize] has assigned
    [area_length]: every field holds a valid value. *)
Definition settled (self : FruArea.t) : Prop :=
  FixedField.format (FruArea._format_version self) = [4; 4]%positive
  /\ fixed_shape_ok (FruArea._format_version self) = true
  /\ forallb (fun kv => field_ok (snd kv)) (FruArea._dict self) = true
  /\ (forall v, FruArea.od_get (FruArea._dict self) "area_length" = Some v ->
                exists f, v = Fixed f).

(** Equality up to the pad characters decoding keeps, as section 4.2
    words the caveat: the decoded string is the original one followed by
    spaces. *)
Definition same_modulo_padding (v1 v2 : pyval) : Prop :=
  v2 = v1 \/ exists s k, v1 = VStr s /\ v2 = VStr (s ++ repeat 0x20 k).

(** Equality up to what decoding returns for an encoded string: the
    string padded to an even length (BCD_PLUS), or upper-cased and padded
    to a multiple of 4 characters (ASCII_6BIT). *)
Definition same_modulo_decoding (v1 v2 : pyval) : Prop :=
  v2 = v1
  \/ exists s, v1 = VStr s
               /\ (v2 = VStr (pad_to 2 s) \/ v2 = VStr (pad_to 4 (upper s))).

Definition snapshots_agree (R : pyval -> pyval -> Prop)
           (before after : list (string * pyval)) : Prop :=
  Forall2 (fun a b => fst a = fst b /\ R (snd a) (snd b)) before after.

(** A record with a lower-case value under ASCII_6BIT, and one whose
    [area_length] holds a stale value. *)
Definition lower_case_record : FruArea.t :=
  snd (FruArea.__init__
         [("name"%string,
           Text (StringField.mk ASCII_6BIT (VStr (str_of "ipmi"))))] None).

Definition stale_length_record : FruArea.t :=
  snd (FruArea.__init__
         [("area_length"%string, Fixed (FixedField.mk [8%positive] (VInt 0)))]
         None).

(** A record with [area_length], a string of each padded encoding and a
    field of two bit groups. *)
Definition demo_record : FruArea.t :=
  snd (FruArea.__init__
         [("area_length"%string, Fixed (FixedField.mk [8%positive] VNone));
          ("mfg"%string,
           Text (StringField.mk ASCII_6BIT (VStr (str_of "ipmi"))));
          ("serial"%string,
           Text (StringField.mk BCD_PLUS (VStr (str_of "123"))));
          ("rev"%string,
           Fixed (FixedField.mk [4; 12]%positive (VTuple [VInt 1; VInt 2])))]
         None).

(** The [k] bytes of [v], least significant first. *)
Fixpoint le_bytes (k : nat) (v : Z) : bytes :=
  match k with
  | O => []
  | S k' => v mod 256 :: le_bytes k' (v / 256)
  end.

(** [d[k1][k2]...] along a path of keys. *)
Fixpoint get_path (d : cli.node) (path : list string) : option cli.node :=
  match path with
  | [] => Some d
  | k :: path' =>
      match d with
      | cli.Dict entries =>
          match cli.get entries k with
          | Some child => get_path child path'
          | None => None
          end
      | cli.Leaf _ => None
      end
  end.

(** A proper prefix of [keys] leads to a value that is not a dict. *)
Definition blocked (d : cli.node) (keys : list string) : Prop :=
  exists p q v, keys = p ++ q /\ q <> [] /\ get_path d p = Some (cli.Leaf v).

(** Two paths that part at some key. *)
Definition diverge (path keys : list string) : Prop :=
  exists p k1 k2 r1 r2,
    path = p ++ k1 :: r1 /\ keys = p ++ k2 :: r2 /\ k1 <> k2.

(** The characters UTF-8 encodes in one byte. *)
Definition is_ascii (c : Z) : Prop := 0 <= c < 0x80.

(** What the generic accessor reads back after a value has been
    assigned: a list is stored as a tuple, a tuple is read as a list. *)
Definition as_read (value : pyval) : pyval :=
  match value with
  | VTuple l | VList l => VList l
  | v => v
  end.

(** An entry whose value the accessors read and assign back unchanged:
    it is not named [format_version], which the special accessor
    diverts to the version field, it does not hold a list, and under
    the name [area_length] it holds an integer. *)
Definition reads_back (kv : string * Field) : Prop :=
  fst kv <> "format_version"%string
  /\ (forall l, FruArea.field_value (snd kv) <> VList l)
  /\ (fst kv = "area_length"%string ->
      exists z, FruArea.field_value (snd kv) = VInt z).

(** A text field holds a string of ASCII characters. *)
Definition ascii_text (kv : string * Field) : Prop :=
  match snd kv with
  | Fixed _ => True
  | Text f => exists s, StringField.value f = VStr s /\ Forall is_ascii s
  end.

(** The field [area_length], if the schema has one, holds what
    [serialize] would assign to it. *)
Definition area_length_settled (self : FruArea.t) : Prop :=
  match FruArea.od_get (FruArea._dict self) "area_length" with
  | None => True
  | Some f =>
      exists n, FruArea.size_total self = Ok n
                /\ FruArea.field_value f = VInt (n / 8)
  end.

(** Every field of [d'] holds what its own [deserialize] stores when it
    is given what the fields before it have left of [input]; [rest] is
    what the last one leaves. *)
Fixpoint fields_decoded_from (d : FruArea.odict) (input : bytes)
         (d' : FruArea.odict) (rest : bytes) : Prop :=
  match d, d' with
  | [], [] => rest = input
  | (k, v) :: d1, (k', v') :: d1' =>
      k' = k
      /\ exists r,
           FruArea.field_deserialize input v = (Ok r, v')
           /\ fields_decoded_from d1 r d1' rest
  | _, _ => False
  end.

(** A record of format version 1 that holds the count 7 and the BCD_PLUS
    text [12]. *)
Definition held_record : FruArea.t :=
  snd (FruArea.__init__
         [("count"%string, Fixed (FixedField.mk [8%positive] (VInt 7)));
          ("name"%string,
           Text (StringField.mk BCD_PLUS (VStr (str_of "12"))))]
         None).

(* ================================================================== *)
(** * Properties                                                       *)
(* ================================================================== *)

(** ** Sums, padding and the epilogue *)

Lemma sum_app (a b : list Z) : sum (a ++ b) = sum a + sum b.
Proof. induction a as [|x a IH]; simpl; [reflexivity | rewrite IH; lia]. Qed.

Lemma sum_repeat_0 (n : nat) : sum (repeat 0 n) = 0.
Proof. induction n; simpl; lia. Qed.

Lemma land_0xff (x : Z) : Z.land x 0xff = x mod 256.
Proof. change 0xff with (Z.ones 8). rewrite Z.land_ones by lia. reflexivity. Qed.

Lemma _sizeAlign_total (size alignment : Z) :
  0 < alignment -> snd (_sizeAlign size alignment) mod alignment = 0.
Proof.
  intros Ha. unfold _sizeAlign. simpl.
  rewrite Zplus_mod_idemp_r. replace (size + - size) with 0 by lia.
  apply Zmod_0_l.
Qed.

Lemma _epilogue_eq (payload : bytes) :
  FruArea._epilogue payload
  = repeat 0 (Z.to_nat ((- (Z.of_nat (length payload) + 1)) mod 8))
      ++ [(- sum payload) mod 256].
Proof. unfold FruArea._epilogue, _sizeAlign. rewrite land_0xff. reflexivity. Qed.

Lemma _epilogue_length (payload : bytes) :
  (Z.of_nat (length (payload ++ FruArea._epilogue payload))) mod 8 = 0.
Proof.
  rewrite _epilogue_eq, !length_app, repeat_length. simpl length.
  rewrite !Nat2Z.inj_add, Z2Nat.id by (apply Z.mod_pos_bound; lia).
  pose proof (_sizeAlign_total (Z.of_nat (length payload) + 1) 8 ltac:(lia)) as H.
  unfold _sizeAlign in H. simpl in H.
  rewrite <- H. f_equal. lia.
Qed.

Lemma _epilogue_sum (payload : bytes) :
  sum (payload ++ FruArea._epilogue payload) mod 256 = 0.
Proof.
  rewrite _epilogue_eq, !sum_app, sum_repeat_0.
  change (sum [(- sum payload) mod 256]) with ((- sum payload) mod 256 + 0).
  rewrite Z.add_0_r, Z.add_0_l, Zplus_mod_idemp_r.
  replace (sum payload + - sum payload) with 0 by lia. reflexivity.
Qed.

Lemma _epilogue_not_nil (payload : bytes) : FruArea._epilogue payload <> [].
Proof. rewrite _epilogue_eq. intros H. apply app_eq_nil in H. destruct H; discriminate. Qed.

(** [serialize] returns a payload followed by the epilogue of that payload. *)
Lemma serialize_shape (self self' : FruArea.t) (bs : bytes) :
  FruArea.serialize self = (Ok bs, self') ->
  exists payload, bs = payload ++ FruArea._epilogue payload.
Proof.
  unfold FruArea.serialize, mbind, pure_call. intros H.
  destruct (FruArea._prologue self) as [p|]; [|discriminate].
  destruct (FruArea.od_contains (FruArea._dict self) "area_length").
  - destruct (FruArea.size_total self) as [n|]; [|discriminate].
    destruct (FruArea.__setitem__ "area_length" (VInt n) self) as [[[]|] s1];
      [|discriminate].
    destruct (FruArea.for_values FruArea.field_serialize (FruArea._dict s1));
      [|discriminate].
    injection H as <- _. eauto.
  - destruct (FruArea.for_values FruArea.field_serialize (FruArea._dict self));
      [|discriminate].
    injection H as <- _. eauto.
Qed.

(** C2.  Whenever [serialize] of a record returns, the bytes returned have
    a length that is a multiple of 8 and a sum that is 0 modulo 256: they
    are a payload, then zero bytes until the payload length plus one is a
    multiple of 8, then the one byte [(-sum(payload)) mod 256]. *)
Theorem serialize_aligned_checksummed (self self' : FruArea.t) (bs : bytes) :
  FruArea.serialize self = (Ok bs, self') ->
  Z.of_nat (length bs) mod 8 = 0
  /\ sum bs mod 256 = 0
  /\ exists payload,
       bs = payload
              ++ repeat 0 (Z.to_nat ((- (Z.of_nat (length payload) + 1)) mod 8))
              ++ [(- sum payload) mod 256].
Proof.
  intros H. destruct (serialize_shape _ _ _ H) as [payload ->].
  split; [apply _epilogue_length|].
  split; [apply _epilogue_sum|].
  exists payload. rewrite _epilogue_eq. reflexivity.
Qed.

Lemma serialize_aligned_checksummed_witness :
  FruArea.serialize empty_record = (Ok [1; 0; 0; 0; 0; 0; 0; 255], empty_record)
  /\ Z.of_nat (length [1; 0; 0; 0; 0; 0; 0; 255]) mod 8 = 0
  /\ sum [1; 0; 0; 0; 0; 0; 0; 255] mod 256 = 0
  /\ exists payload,
       [1; 0; 0; 0; 0; 0; 0; 255]
       = payload
           ++ repeat 0 (Z.to_nat ((- (Z.of_nat (length payload) + 1)) mod 8))
           ++ [(- sum payload) mod 256].
Proof.
  split; [vm_compute; reflexivity|].
  apply (serialize_aligned_checksummed empty_record empty_record).
  vm_compute; reflexivity.
Defined.

(** C3.  A [StringField] of format ASCII_6BIT holding [IPMI] serializes to
    the bytes 83 29 DC A6, and deserializing these four bytes stores the
    string [IPMI] (and the format ASCII_6BIT) whatever the field held. *)
Theorem ipmi_6bit_vector :
  StringField.serialize (StringField.mk ASCII_6BIT (VStr (str_of "IPMI")))
  = Ok [0x83; 0x29; 0xDC; 0xA6]
  /\ forall self : StringField.t,
       StringField.deserialize [0x83; 0x29; 0xDC; 0xA6] self
       = (Ok [], StringField.mk ASCII_6BIT (VStr (str_of "IPMI"))).
Proof.
  split; [vm_compute; reflexivity|].
  intros [f v]. vm_compute. reflexivity.
Qed.

(** ** What [deserialize] consumes *)

Lemma suffix_of_drop (n : Z) (input : bytes) : suffix_of (drop n input) input.
Proof. exists (Z.to_nat n). reflexivity. Qed.

Lemma suffix_of_trans (a b c : bytes) :
  suffix_of a b -> suffix_of b c -> suffix_of a c.
Proof.
  intros [n ->] [m ->]. exists (m + n)%nat. rewrite skipn_skipn.
  f_equal. lia.
Qed.

Lemma FixedField_deserialize_suffix input self rest self' :
  FixedField.deserialize input self = (Ok rest, self') -> suffix_of rest input.
Proof.
  unfold FixedField.deserialize. intros H.
  destruct (FixedField.size self) as [n|]; [|discriminate].
  destruct (bitstruct.unpack _ _ _) as [res|]; [|discriminate].
  destruct (1 <? length res)%nat.
  - injection H as <- _. apply suffix_of_drop.
  - destruct res; [discriminate|]. injection H as <- _. apply suffix_of_drop.
Qed.

Lemma StringField_deserialize_suffix input self rest self' :
  StringField.deserialize input self = (Ok rest, self') -> suffix_of rest input.
Proof.
  unfold StringField.deserialize. intros H.
  destruct (bitstruct.unpack _ _ _) as [[|fmt_int [|payload_len [|]]]|];
    try discriminate.
  destruct (StringField.fmt_of_int fmt_int) as [fmt|]; [|discriminate].
  destruct (StringField.deser_fn fmt _); [|discriminate].
  injection H as <- _.
  eapply suffix_of_trans; apply suffix_of_drop.
Qed.

Lemma field_deserialize_suffix input v rest v' :
  FruArea.field_deserialize input v = (Ok rest, v') -> suffix_of rest input.
Proof.
  destruct v as [f|f]; simpl.
  - destruct (FixedField.deserialize input f) as [r f'] eqn:E.
    intros H. injection H as -> _. eapply FixedField_deserialize_suffix; eauto.
  - destruct (StringField.deserialize input f) as [r f'] eqn:E.
    intros H. injection H as -> _. eapply StringField_deserialize_suffix; eauto.
Qed.

Lemma deserialize_values_suffix d : forall input rest d',
  FruArea.deserialize_values d input = (Ok rest, d') -> suffix_of rest input.
Proof.
  induction d as [|[k v] d IH]; simpl; intros input rest d' H.
  - injection H as <- _. exists 0%nat. reflexivity.
  - destruct (FruArea.field_deserialize input v) as [[r1|e] v'] eqn:E;
      [|discriminate].
    destruct (FruArea.deserialize_values d r1) as [r2 d2] eqn:E2.
    injection H as -> _.
    eapply suffix_of_trans; [eapply IH; eauto|].
    eapply field_deserialize_suffix; eauto.
Qed.

Lemma deserialize_walk_suffix input self rest self' :
  FruArea.deserialize_walk input self = (Ok rest, self') -> suffix_of rest input.
Proof.
  unfold FruArea.deserialize_walk. intros H.
  destruct (FixedField.deserialize input (FruArea._format_version self))
    as [[r1|e] fv] eqn:E; [|discriminate].
  destruct (FruArea.deserialize_values (FruArea._dict self) r1) as [r2 d2] eqn:E2.
  injection H as -> _.
  eapply suffix_of_trans; [eapply deserialize_values_suffix; eauto|].
  eapply FixedField_deserialize_suffix; eauto.
Qed.

(** The bytes consumed, for a remainder that is not empty, are what the
    slice [input[:-len(remainder)]] recovers. *)
Lemma drop_last_app (consumed rest : bytes) :
  rest <> [] -> drop_last (length rest) (consumed ++ rest) = consumed.
Proof.
  intros Hne. unfold drop_last.
  destruct (length rest) as [|k] eqn:El.
  - destruct rest; [congruence | discriminate].
  - rewrite length_app, El.
    replace (length consumed + S k - S k)%nat with (length consumed + 0)%nat by lia.
    rewrite firstn_app_2. simpl. apply app_nil_r.
Qed.

Lemma suffix_of_split (rest input : bytes) :
  suffix_of rest input -> exists consumed, input = consumed ++ rest.
Proof.
  intros [n ->]. exists (firstn n input). symmetry. apply firstn_skipn.
Qed.

(** Where the fields leave bytes of the input: [deserialize] compares
    the epilogue recomputed over the consumed payload, byte for byte,
    with the next bytes, returns only when they are equal, and on any
    mismatch raises the verification error that carries the expected and
    the received bytes.  The record without schema entries rejects the
    buffer 01 00 00 00 00 00 00 x for every x other than 0xFF.  Where the
    fields leave nothing, the call raises as well. *)
Lemma deserialize_verifies_epilogue :
  (forall input self rest self',
      FruArea.deserialize_walk input self = (Ok rest, self') ->
      exists consumed,
        input = consumed ++ rest
        /\ let ep := FruArea._epilogue consumed in
           (firstn (length ep) rest = ep ->
            FruArea.deserialize input self
            = (Ok (skipn (length ep) rest), self'))
           /\ (firstn (length ep) rest <> ep ->
               exists expected,
                 FruArea.deserialize input self
                 = (Err (RuntimeError
                           (verify_error expected
                                         (firstn (length expected) rest))),
                    self')
                 /\ (rest <> [] -> expected = ep)))
  /\ (forall x v,
         x <> 0xFF ->
         let self := FruArea.mk (FixedField.mk [4; 4]%positive v) [] in
         FruArea.deserialize [1; 0; 0; 0; 0; 0; 0; x] self
         = (Err (RuntimeError (verify_error [0; 0; 0; 0; 0; 0; 0xFF]
                                            [0; 0; 0; 0; 0; 0; x])),
            FruArea.mk (FixedField.mk [4; 4]%positive
                                      (VTuple [VInt 0; VInt 1])) [])).
Proof.
  split.
  - intros input self rest self' Hw.
    destruct (suffix_of_split _ _ (deserialize_walk_suffix _ _ _ _ Hw))
      as [consumed Hin].
    exists consumed. split; [exact Hin|]. cbv zeta. subst input.
    unfold FruArea.deserialize, mbind. rewrite Hw.
    destruct rest as [|b rest].
    + (* nothing is left: the next bytes cannot equal an epilogue *)
      split.
      * intros Heq. exfalso. rewrite firstn_nil in Heq.
        symmetry in Heq. revert Heq. apply _epilogue_not_nil.
      * intros _. eexists. split.
        -- destruct (list_eq_dec Z.eq_dec _ _) as [Heq|Hne]; [|reflexivity].
           exfalso. rewrite firstn_nil in Heq. revert Heq.
           apply _epilogue_not_nil.
        -- intros Hc. congruence.
    + rewrite drop_last_app by discriminate.
      split.
      * intros Heq.
        destruct (list_eq_dec Z.eq_dec _ _) as [_|Hne]; [reflexivity|].
        exfalso. apply Hne. symmetry. exact Heq.
      * intros Hneq. eexists. split.
        -- destruct (list_eq_dec Z.eq_dec _ _) as [Heq|_]; [|reflexivity].
           exfalso. apply Hneq. symmetry. exact Heq.
        -- reflexivity.
  - intros x v Hx. cbv zeta.
    unfold FruArea.deserialize, mbind.
    change (FruArea.deserialize_walk [1; 0; 0; 0; 0; 0; 0; x]
              (FruArea.mk (FixedField.mk [4; 4]%positive v) []))
      with (@Ok bytes [0; 0; 0; 0; 0; 0; x],
            FruArea.mk (FixedField.mk [4; 4]%positive (VTuple [VInt 0; VInt 1])) []).
    cbv beta iota.
    change (FruArea._epilogue (drop_last (length [0; 0; 0; 0; 0; 0; x])
                                         [1; 0; 0; 0; 0; 0; 0; x]))
      with [0; 0; 0; 0; 0; 0; 0xFF].
    change (firstn (length [0; 0; 0; 0; 0; 0; 0xFF]) [0; 0; 0; 0; 0; 0; x])
      with [0; 0; 0; 0; 0; 0; x].
    destruct (list_eq_dec Z.eq_dec _ _) as [Heq|_]; [|reflexivity].
    exfalso. apply Hx. congruence.
Qed.

Lemma deserialize_verifies_epilogue_witness :
  (exists consumed,
      [1; 0; 0; 0; 0; 0; 0; 255] = consumed ++ [0; 0; 0; 0; 0; 0; 255]
      /\ let ep := FruArea._epilogue consumed in
         (firstn (length ep) [0; 0; 0; 0; 0; 0; 255] = ep ->
          FruArea.deserialize [1; 0; 0; 0; 0; 0; 0; 255] empty_record
          = (Ok (skipn (length ep) [0; 0; 0; 0; 0; 0; 255]), empty_record))
         /\ (firstn (length ep) [0; 0; 0; 0; 0; 0; 255] <> ep ->
             exists expected,
               FruArea.deserialize [1; 0; 0; 0; 0; 0; 0; 255] empty_record
               = (Err (RuntimeError
                         (verify_error expected
                            (firstn (length expected) [0; 0; 0; 0; 0; 0; 255]))),
                  empty_record)
               /\ ([0; 0; 0; 0; 0; 0; 255] <> [] -> expected = ep)))
  /\ FruArea.deserialize [1; 0; 0; 0; 0; 0; 0; 254] empty_record
     = (Err (RuntimeError (verify_error [0; 0; 0; 0; 0; 0; 0xFF]
                                        [0; 0; 0; 0; 0; 0; 254])),
        empty_record).
Proof.
  split.
  - apply (proj1 deserialize_verifies_epilogue
                 [1; 0; 0; 0; 0; 0; 0; 255] empty_record
                 [0; 0; 0; 0; 0; 0; 255] empty_record).
    vm_compute. reflexivity.
  - apply (proj2 deserialize_verifies_epilogue 254 (VTuple [VInt 0; VInt 1])).
    lia.
Defined.

(** C7, at the one-byte buffer 01 given to the record without schema
    entries.  The version field consumes the byte, so the consumed
    payload is 01, whose epilogue is 00 00 00 00 00 00 FF.  Nothing is
    left of the input, and [input[:-len(remainder)]] is then [input[:-0]],
    the empty payload: the error [deserialize] raises names as expected
    the epilogue of the empty payload, eight zero bytes, not the epilogue
    recomputed over the consumed payload.  It does so whenever the
    fields leave nothing of the input. *)
Theorem deserialize_expects_epilogue_of_nothing :
  (forall input self self',
      FruArea.deserialize_walk input self = (Ok [], self') ->
      FruArea.deserialize input self
      = (Err (RuntimeError (verify_error (FruArea._epilogue []) [])), self'))
  /\ FruArea.deserialize_walk [1] empty_record = (Ok [], empty_record)
  /\ FruArea.deserialize [1] empty_record
     = (Err (RuntimeError (verify_error [0; 0; 0; 0; 0; 0; 0; 0] [])),
        empty_record)
  /\ FruArea._epilogue [1] = [0; 0; 0; 0; 0; 0; 0xFF]
  /\ FruArea._epilogue [1] <> [0; 0; 0; 0; 0; 0; 0; 0].
Proof.
  split; [|split; [|split; [|split]]].
  - intros input self self' Hw.
    unfold FruArea.deserialize, mbind, pure_call. rewrite Hw.
    cbn [length drop_last]. rewrite firstn_nil.
    destruct (list_eq_dec Z.eq_dec _ _) as [Heq|_]; [|reflexivity].
    exfalso. exact (_epilogue_not_nil _ Heq).
  - vm_compute. reflexivity.
  - vm_compute. reflexivity.
  - vm_compute. reflexivity.
  - vm_compute. discriminate.
Qed.

Lemma deserialize_expects_epilogue_of_nothing_witness :
  FruArea.deserialize_walk [1] empty_record = (Ok [], empty_record)
  /\ FruArea.deserialize [1] empty_record
     = (Err (RuntimeError (verify_error (FruArea._epilogue []) [])),
        empty_record).
Proof.
  split; [vm_compute; reflexivity|].
  apply (proj1 deserialize_expects_epilogue_of_nothing [1] empty_record).
  vm_compute. reflexivity.
Defined.

(** ** Which exceptions the decoding of the fields can raise *)

Lemma unpack_raises fmt order data e :
  bitstruct.unpack fmt order data = Err e -> e = bitstruct_Error.
Proof.
  unfold bitstruct.unpack. destruct (_ <? _); intros H; [congruence|discriminate].
Qed.

Lemma utf8_decode_raises_bounded (n : nat) : forall bs e,
  (length bs <= n)%nat -> utf8_decode bs = Err e -> e = UnicodeDecodeError.
Proof.
  induction n as [|n IH]; intros bs e Hl H.
  - destruct bs; [discriminate | simpl in Hl; lia].
  - destruct bs as [|b0 r0]; [discriminate|]. simpl in Hl.
    cbn [utf8_decode] in H.
    destruct ((0 <=? b0) && (b0 <? 128)).
    { raise_cases H. injection H as <-. eapply IH; [|eassumption]. lia. }
    destruct ((194 <=? b0) && (b0 <=? 223)).
    { destruct r0 as [|b1 r1]; [congruence|]. simpl in Hl.
      destruct (is_cont b1); [|congruence].
      raise_cases H. injection H as <-. eapply IH; [|eassumption]. lia. }
    destruct ((224 <=? b0) && (b0 <=? 239)).
    { destruct r0 as [|b1 [|b2 r2]]; try congruence. simpl in Hl.
      cbv zeta in H.
      match type of H with (if ?c then _ else _) = _ => destruct c end;
        [|congruence].
      raise_cases H. injection H as <-. eapply IH; [|eassumption]. lia. }
    destruct ((240 <=? b0) && (b0 <=? 244)); [|congruence].
    destruct r0 as [|b1 [|b2 [|b3 r3]]]; try congruence. simpl in Hl.
    cbv zeta in H.
    match type of H with (if ?c then _ else _) = _ => destruct c end;
      [|congruence].
    raise_cases H. injection H as <-. eapply IH; [|eassumption]. lia.
Qed.

Lemma utf8_decode_raises bs e :
  utf8_decode bs = Err e -> e = UnicodeDecodeError.
Proof. apply (utf8_decode_raises_bounded (length bs)). lia. Qed.

Lemma map_result_raises {A B} (f : A -> result B) (P : pyerr -> Prop) :
  (forall x e, f x = Err e -> P e) ->
  forall l e, StringField.map_result f l = Err e -> P e.
Proof.
  intros Hf. induction l as [|x l IH]; cbn [StringField.map_result];
    intros e H; [discriminate|].
  raise_cases H.
  - injection H as <-. eauto.
  - injection H as <-. eauto.
Qed.

Lemma bcdplus_lookup_rev_raises x e :
  StringField.bcdplus_lookup_rev x = Err e -> e = KeyError.
Proof.
  unfold StringField.bcdplus_lookup_rev. intros H.
  repeat match type of H with (if ?c then _ else _) = _ => destruct c end;
    congruence.
Qed.

Lemma deser_bcd_plus_raises val : forall e,
  StringField.deser_bcd_plus val = Err e -> not_verify e.
Proof.
  induction val as [|v val IH]; cbn [StringField.deser_bcd_plus];
    intros e H; [discriminate|].
  raise_cases H.
  - injection H as <-. eauto.
  - injection H as <-.
    eapply (map_result_raises _ not_verify); [|eassumption].
    intros x ex Hx. apply bcdplus_lookup_rev_raises in Hx. subst. exact I.
  - injection H as <-. apply unpack_raises in E. subst. exact I.
Qed.

Lemma py_bytearray_raises items : forall e,
  StringField.py_bytearray items = Err e -> not_verify e.
Proof.
  induction items as [|x items IH]; cbn [StringField.py_bytearray];
    intros e H; [discriminate|].
  destruct x; try (injection H as <-; exact I).
  destruct ((0 <=? z) && (z <? 256)); [|injection H as <-; exact I].
  raise_cases H. injection H as <-. eauto.
Qed.

Lemma deser_6bit_loop_raises chunks : forall acc e,
  StringField.deser_6bit_loop chunks acc = Err e -> not_verify e.
Proof.
  induction chunks as [|c chunks IH]; cbn [StringField.deser_6bit_loop];
    intros acc e H; [discriminate|].
  raise_cases H.
  - eauto.
  - injection H as <-. apply unpack_raises in E0. subst. exact I.
  - injection H as <-. eapply py_bytearray_raises; eauto.
Qed.

Lemma deser_fn_raises fmt payload e :
  StringField.deser_fn fmt payload = Err e -> not_verify e.
Proof.
  destruct fmt; simpl; intros H.
  - apply utf8_decode_raises in H. subst. exact I.
  - eapply deser_bcd_plus_raises; eauto.
  - unfold StringField.deser_6bit in H. raise_cases H.
    + apply utf8_decode_raises in H. subst. exact I.
    + injection H as <-. eapply deser_6bit_loop_raises; eauto.
  - apply utf8_decode_raises in H. subst. exact I.
Qed.

Lemma StringField_deserialize_raises input self e self' :
  StringField.deserialize input self = (Err e, self') -> not_verify e.
Proof.
  unfold StringField.deserialize. intros H.
  destruct (bitstruct.unpack _ _ _) as [[|fmt_int [|payload_len [|]]]|] eqn:E;
    try (injection H as <- _; exact I).
  - destruct (StringField.fmt_of_int fmt_int) as [fmt|] eqn:Ef.
    + destruct (StringField.deser_fn fmt _) eqn:Ed; [discriminate|].
      injection H as <- _. eapply deser_fn_raises; eauto.
    + injection H as <- _. unfold StringField.fmt_of_int in Ef.
      repeat match type of Ef with (if ?c then _ else _) = _ => destruct c end;
        try discriminate.
      injection Ef as <-. exact I.
  - injection H as <- _. apply unpack_raises in E. subst. exact I.
Qed.

Lemma FixedField_deserialize_raises input self e self' :
  FixedField.deserialize input self = (Err e, self') -> not_verify e.
Proof.
  unfold FixedField.deserialize, FixedField.size. intros H.
  destruct (negb _); [injection H as <- _; exact I|].
  destruct (bitstruct.unpack _ _ _) as [res|] eqn:E.
  - destruct (1 <? length res)%nat; [discriminate|].
    destruct res; [|discriminate]. injection H as <- _. exact I.
  - injection H as <- _. apply unpack_raises in E. subst. exact I.
Qed.

Lemma field_deserialize_raises input v e v' :
  FruArea.field_deserialize input v = (Err e, v') -> not_verify e.
Proof.
  destruct v as [f|f]; simpl.
  - destruct (FixedField.deserialize input f) as [r f'] eqn:E.
    intros H. injection H as -> _. eapply FixedField_deserialize_raises; eauto.
  - destruct (StringField.deserialize input f) as [r f'] eqn:E.
    intros H. injection H as -> _. eapply StringField_deserialize_raises; eauto.
Qed.

Lemma deserialize_values_raises d : forall input e d',
  FruArea.deserialize_values d input = (Err e, d') -> not_verify e.
Proof.
  induction d as [|[k v] d IH]; simpl; intros input e d' H; [discriminate|].
  destruct (FruArea.field_deserialize input v) as [[r1|e1] v'] eqn:E.
  - destruct (FruArea.deserialize_values d r1) as [r2 d2] eqn:E2.
    injection H as -> _. eauto.
  - injection H as <- _. eapply field_deserialize_raises; eauto.
Qed.

Lemma deserialize_walk_raises input self e self' :
  FruArea.deserialize_walk input self = (Err e, self') -> not_verify e.
Proof.
  unfold FruArea.deserialize_walk. intros H.
  destruct (FixedField.deserialize input (FruArea._format_version self))
    as [[r1|e1] fv] eqn:E.
  - destruct (FruArea.deserialize_values (FruArea._dict self) r1) as [r2 d2] eqn:E2.
    injection H as -> _. eapply deserialize_values_raises; eauto.
  - injection H as <- _. eapply FixedField_deserialize_raises; eauto.
Qed.

(** ** What was held before plays no part in decoding *)

Lemma FixedField_deserialize_overwrites input f g rest f' :
  FixedField.format f = FixedField.format g ->
  FixedField.deserialize input f = (Ok rest, f') ->
  FixedField.deserialize input g = (Ok rest, f').
Proof.
  unfold FixedField.deserialize, FixedField.size. intros Hfmt. rewrite <- Hfmt.
  destruct (negb _); [discriminate|].
  destruct (bitstruct.unpack _ _ _) as [res|]; [|discriminate].
  destruct (1 <? length res)%nat; [exact (fun H => H)|].
  destruct res; [discriminate | exact (fun H => H)].
Qed.

Lemma StringField_deserialize_overwrites input f g rest f' :
  StringField.deserialize input f = (Ok rest, f') ->
  StringField.deserialize input g = (Ok rest, f').
Proof.
  unfold StringField.deserialize.
  destruct (bitstruct.unpack _ _ _) as [[|fmt_int [|payload_len [|]]]|];
    try discriminate.
  destruct (StringField.fmt_of_int fmt_int) as [fmt|]; [|discriminate].
  destruct (StringField.deser_fn fmt _); [|discriminate].
  exact (fun H => H).
Qed.

Lemma field_deserialize_overwrites input v w rest v' :
  same_layout v w ->
  FruArea.field_deserialize input v = (Ok rest, v') ->
  FruArea.field_deserialize input w = (Ok rest, v').
Proof.
  destruct v as [f|f], w as [g|g]; simpl; try contradiction.
  - intros Hfmt.
    destruct (FixedField.deserialize input f) as [r f'] eqn:E.
    intros H. injection H as -> <-.
    rewrite (FixedField_deserialize_overwrites _ _ _ _ _ Hfmt E). reflexivity.
  - intros _.
    destruct (StringField.deserialize input f) as [r f'] eqn:E.
    intros H. injection H as -> <-.
    rewrite (StringField_deserialize_overwrites _ _ g _ _ E). reflexivity.
Qed.

Lemma deserialize_values_overwrites d1 d2 :
  Forall2 (fun kv kw => fst kv = fst kw /\ same_layout (snd kv) (snd kw)) d1 d2 ->
  forall input rest d',
    FruArea.deserialize_values d1 input = (Ok rest, d') ->
    FruArea.deserialize_values d2 input = (Ok rest, d').
Proof.
  induction 1 as [|[k v] [k2 w] d1 d2 [Hk Hl] _ IH]; intros input rest d'.
  - exact (fun H => H).
  - simpl in Hk, Hl. subst k2. simpl.
    destruct (FruArea.field_deserialize input v) as [[r1|e] v'] eqn:E;
      [|discriminate].
    rewrite (field_deserialize_overwrites _ _ _ _ _ Hl E).
    destruct (FruArea.deserialize_values d1 r1) as [r2 d3] eqn:E2.
    intros H. injection H as -> <-.
    rewrite (IH _ _ _ E2). reflexivity.
Qed.

Lemma deserialize_walk_overwrites input a b rest a' :
  same_schema a b ->
  FruArea.deserialize_walk input a = (Ok rest, a') ->
  FruArea.deserialize_walk input b = (Ok rest, a').
Proof.
  intros [Hfv Hd]. unfold FruArea.deserialize_walk.
  destruct (FixedField.deserialize input (FruArea._format_version a))
    as [[r1|e] fv] eqn:E; [|discriminate].
  rewrite (FixedField_deserialize_overwrites _ _ _ _ _ Hfv E).
  destruct (FruArea.deserialize_values (FruArea._dict a) r1) as [r2 d2] eqn:E2.
  intros H. injection H as -> <-.
  rewrite (deserialize_values_overwrites _ _ Hd _ _ _ E2). reflexivity.
Qed.

(** ** Bit strings *)

Section Bits.
Import bitstruct.

Lemma length_to_bits (n : nat) (v : Z) : length (to_bits n v) = n.
Proof. induction n; simpl; congruence. Qed.

Lemma of_bits_fold (b : bits) : forall acc,
  fold_left (fun a d => 2 * a + Z.b2z d) b acc
  = acc * 2 ^ Z.of_nat (length b) + of_bits b.
Proof.
  unfold of_bits. induction b as [|d b IH]; intros acc.
  - simpl. lia.
  - cbn [fold_left length]. rewrite IH, (IH (2 * 0 + Z.b2z d)).
    rewrite Nat2Z.inj_succ, Z.pow_succ_r by lia. ring.
Qed.

Lemma of_bits_cons (d : bool) (b : bits) :
  of_bits (d :: b) = Z.b2z d * 2 ^ Z.of_nat (length b) + of_bits b.
Proof.
  unfold of_bits at 1. cbn [fold_left]. rewrite of_bits_fold. ring.
Qed.

Lemma of_bits_app (a b : bits) :
  of_bits (a ++ b) = of_bits a * 2 ^ Z.of_nat (length b) + of_bits b.
Proof.
  unfold of_bits at 1. rewrite fold_left_app, of_bits_fold. reflexivity.
Qed.

Lemma of_bits_bound (b : bits) : 0 <= of_bits b < 2 ^ Z.of_nat (length b).
Proof.
  induction b as [|d b IH].
  - cbv. split; [discriminate | reflexivity].
  - rewrite of_bits_cons. cbn [length].
    rewrite Nat2Z.inj_succ, Z.pow_succ_r by lia.
    destruct d; simpl Z.b2z; lia.
Qed.

Lemma of_bits_to_bits (n : nat) (v : Z) :
  of_bits (to_bits n v) = v mod 2 ^ Z.of_nat n.
Proof.
  induction n as [|n IH].
  - cbn. symmetry. apply Z.mod_1_r.
  - cbn [to_bits]. rewrite of_bits_cons, length_to_bits, IH.
    rewrite Z.testbit_spec' by lia.
    rewrite Nat2Z.inj_succ, Z.pow_succ_r by lia.
    rewrite (Z.mul_comm 2), Z.rem_mul_r by lia. ring.
Qed.

Lemma to_bits_ext (n : nat) (v w : Z) :
  (forall i, 0 <= i < Z.of_nat n -> Z.testbit v i = Z.testbit w i) ->
  to_bits n v = to_bits n w.
Proof.
  induction n as [|n IH]; intros H; [reflexivity|].
  cbn [to_bits]. f_equal; [apply H; lia | apply IH; intros; apply H; lia].
Qed.

Lemma to_bits_app (a b : nat) (x y : Z) :
  0 <= y < 2 ^ Z.of_nat b ->
  to_bits a x ++ to_bits b y = to_bits (a + b) (x * 2 ^ Z.of_nat b + y).
Proof.
  intros Hy. induction a as [|a IH].
  - cbn [to_bits app Nat.add]. apply to_bits_ext. intros i Hi.
    rewrite <- (Z.mod_pow2_bits_low y (Z.of_nat b) i) by lia.
    rewrite <- (Z.mod_pow2_bits_low (x * 2 ^ Z.of_nat b + y) (Z.of_nat b) i) by lia.
    f_equal. rewrite Z.add_comm, Z_mod_plus_full. reflexivity.
  - cbn [to_bits app Nat.add]. rewrite IH. f_equal.
    rewrite Nat2Z.inj_add, <- Z.div_pow2_bits by lia.
    f_equal. rewrite Z.div_add_l by lia. rewrite Z.div_small by lia. lia.
Qed.

Lemma to_bits_of_bits (b : bits) : to_bits (length b) (of_bits b) = b.
Proof.
  induction b as [|d b IH]; [reflexivity|].
  rewrite of_bits_cons.
  change (length (d :: b)) with (1 + length b)%nat.
  rewrite <- to_bits_app by apply of_bits_bound.
  rewrite IH. destruct d; reflexivity.
Qed.

(** *** Bytes of a bit string *)

Lemma bytes_of_bits_app8 (a r : bits) :
  length a = 8%nat -> bytes_of_bits (a ++ r) = of_bits a :: bytes_of_bits r.
Proof.
  intros H.
  do 8 (destruct a as [|? a]; [discriminate|]).
  destruct a; [reflexivity | discriminate].
Qed.

Lemma split_8 (k : nat) (b : bits) :
  length b = (8 * S k)%nat ->
  exists a r, b = a ++ r /\ length a = 8%nat /\ length r = (8 * k)%nat.
Proof.
  intros H. exists (firstn 8 b), (skipn 8 b).
  rewrite firstn_skipn, length_firstn, length_skipn. repeat split; lia.
Qed.

Lemma bits_of_bytes_of_bits (k : nat) : forall b,
  length b = (8 * k)%nat -> bits_of_bytes (bytes_of_bits b) = b.
Proof.
  induction k as [|k IH]; intros b H.
  - destruct b; [reflexivity | discriminate].
  - destruct (split_8 k b H) as (a & r & -> & Ha & Hr).
    rewrite bytes_of_bits_app8 by exact Ha.
    unfold bits_of_bytes in *. cbn [flat_map]. rewrite IH by exact Hr.
    f_equal. rewrite <- Ha. apply to_bits_of_bits.
Qed.

Lemma length_bytes_of_bits (k : nat) : forall b,
  length b = (8 * k)%nat -> length (bytes_of_bits b) = k.
Proof.
  induction k as [|k IH]; intros b H.
  - destruct b; [reflexivity | discriminate].
  - destruct (split_8 k b H) as (a & r & -> & Ha & Hr).
    rewrite bytes_of_bits_app8 by exact Ha. cbn [length]. f_equal. auto.
Qed.

Lemma length_bits_of_bytes (data : bytes) :
  length (bits_of_bytes data) = (8 * length data)%nat.
Proof.
  unfold bits_of_bytes. induction data as [|x data IH]; [reflexivity|].
  cbn [flat_map]. rewrite length_app, length_to_bits, IH. cbn [length]. lia.
Qed.

Lemma pad_last_byte_aligned (b : bits) :
  Z.of_nat (length b) mod 8 = 0 -> pad_last_byte b = b.
Proof. unfold pad_last_byte. intros ->. reflexivity. Qed.

(** *** Slices *)

Lemma take_all {A} (n : Z) (l : list A) :
  Z.of_nat (length l) <= n -> take n l = l.
Proof. intros H. apply firstn_all2. lia. Qed.

Lemma drop_all {A} (n : Z) (l : list A) :
  Z.of_nat (length l) <= n -> drop n l = [].
Proof. intros H. apply skipn_all2. lia. Qed.

Lemma take_app_length {A} (c l : list A) (n : Z) :
  0 <= n -> take (n + Z.of_nat (length c)) (c ++ l) = c ++ take n l.
Proof.
  intros H. unfold take.
  replace (Z.to_nat (n + Z.of_nat (length c)))
    with (length c + Z.to_nat n)%nat by lia.
  apply firstn_app_2.
Qed.

Lemma drop_app_length {A} (c l : list A) (n : Z) :
  0 <= n -> drop (n + Z.of_nat (length c)) (c ++ l) = drop n l.
Proof.
  intros H. unfold drop.
  replace (Z.to_nat (n + Z.of_nat (length c)))
    with (length c + Z.to_nat n)%nat by lia.
  rewrite skipn_app, skipn_all2 by lia.
  replace (length c + Z.to_nat n - length c)%nat with (Z.to_nat n) by lia.
  reflexivity.
Qed.

Lemma take_drop {A} (n : Z) (l : list A) : take n l ++ drop n l = l.
Proof. apply firstn_skipn. Qed.

Lemma length_take {A} (n : Z) (l : list A) :
  0 <= n <= Z.of_nat (length l) -> Z.of_nat (length (take n l)) = n.
Proof. intros H. unfold take. rewrite length_firstn. lia. Qed.

Lemma length_drop {A} (n : Z) (l : list A) :
  0 <= n <= Z.of_nat (length l) ->
  Z.of_nat (length (drop n l)) = Z.of_nat (length l) - n.
Proof. intros H. unfold drop. rewrite length_skipn. lia. Qed.

End Bits.

(** ** [bitstruct]: what is packed is unpacked again *)

Section Bitstruct_roundtrip.
Import bitstruct.

Lemma pack_lsb_loop_acc (fuel : nat) : forall ao vb acc,
  pack_lsb_loop fuel ao vb acc = acc ++ pack_lsb_loop fuel ao vb [].
Proof.
  induction fuel as [|fuel IH]; intros ao vb acc; cbn [pack_lsb_loop].
  - reflexivity.
  - destruct (0 <? ao); [|reflexivity].
    rewrite IH, (IH _ _ ([] ++ _)). cbn [app]. symmetry. apply app_assoc.
Qed.

Lemma pack_lsb_loop_fuel (fuel : nat) : forall fuel' ao vb acc,
  ao <= 8 * Z.of_nat fuel -> ao <= 8 * Z.of_nat fuel' ->
  pack_lsb_loop fuel ao vb acc = pack_lsb_loop fuel' ao vb acc.
Proof.
  induction fuel as [|fuel IH]; intros fuel' ao vb acc H1 H2.
  - destruct fuel'; cbn [pack_lsb_loop]; [reflexivity|].
    destruct (Z.ltb_spec 0 ao); [lia | reflexivity].
  - cbn [pack_lsb_loop]. destruct (Z.ltb_spec 0 ao) as [Hpos|Hle].
    + destruct fuel'; [lia|]. cbn [pack_lsb_loop].
      destruct (Z.ltb_spec 0 ao); [|lia]. apply IH; lia.
    + destruct fuel'; cbn [pack_lsb_loop]; [reflexivity|].
      destruct (Z.ltb_spec 0 ao); [lia | reflexivity].
Qed.

Lemma length_pack_lsb_loop (fuel : nat) : forall ao vb acc,
  length (pack_lsb_loop fuel ao vb acc) = (length acc + length vb)%nat.
Proof.
  induction fuel as [|fuel IH]; intros ao vb acc; cbn [pack_lsb_loop].
  - apply length_app.
  - destruct (0 <? ao); [|apply length_app].
    rewrite IH, length_app. unfold take, drop.
    rewrite <- (firstn_skipn (Z.to_nat ao) vb) at 3. rewrite length_app. lia.
Qed.

Lemma lsb_emit_stop ao vb : ao <= 0 -> lsb_emit ao vb = vb.
Proof.
  intros H. unfold lsb_emit. replace (Z.to_nat ao) with 0%nat by lia.
  reflexivity.
Qed.

Lemma lsb_emit_step ao vb :
  0 < ao -> lsb_emit ao vb = drop ao vb ++ lsb_emit (ao - 8) (take ao vb).
Proof.
  intros H. unfold lsb_emit.
  destruct (Z.to_nat ao) as [|m] eqn:Em; [lia|].
  cbn [pack_lsb_loop]. destruct (Z.ltb_spec 0 ao); [|lia].
  rewrite pack_lsb_loop_acc. cbn [app]. f_equal.
  apply pack_lsb_loop_fuel; lia.
Qed.

Lemma length_lsb_emit ao vb : length (lsb_emit ao vb) = length vb.
Proof. unfold lsb_emit. rewrite length_pack_lsb_loop. reflexivity. Qed.

Lemma unpack_lsb_loop_acc (fuel : nat) : forall ao tmp acc,
  unpack_lsb_loop fuel ao tmp acc = acc ++ unpack_lsb_loop fuel ao tmp [].
Proof.
  induction fuel as [|fuel IH]; intros ao tmp acc; cbn [unpack_lsb_loop].
  - reflexivity.
  - destruct (0 <? ao); [|reflexivity].
    rewrite IH, (IH _ _ ([] ++ _)). cbn [app]. symmetry. apply app_assoc.
Qed.

Lemma unpack_lsb_loop_fuel (fuel : nat) : forall fuel' ao tmp acc,
  ao <= 8 * Z.of_nat fuel -> ao <= 8 * Z.of_nat fuel' ->
  unpack_lsb_loop fuel ao tmp acc = unpack_lsb_loop fuel' ao tmp acc.
Proof.
  induction fuel as [|fuel IH]; intros fuel' ao tmp acc H1 H2.
  - destruct fuel'; cbn [unpack_lsb_loop]; [reflexivity|].
    destruct (Z.ltb_spec 0 ao); [lia | reflexivity].
  - cbn [unpack_lsb_loop]. destruct (Z.ltb_spec 0 ao) as [Hpos|Hle].
    + destruct fuel'; [lia|]. cbn [unpack_lsb_loop].
      destruct (Z.ltb_spec 0 ao); [|lia]. apply IH; lia.
    + destruct fuel'; cbn [unpack_lsb_loop]; [reflexivity|].
      destruct (Z.ltb_spec 0 ao); [lia | reflexivity].
Qed.

Lemma lsb_collect_stop ao tmp : ao <= 0 -> lsb_collect ao tmp = tmp.
Proof.
  intros H. unfold lsb_collect. replace (Z.to_nat ao) with 0%nat by lia.
  reflexivity.
Qed.

Lemma lsb_collect_step ao tmp :
  0 < ao ->
  lsb_collect ao tmp
  = take 8 (drop ao tmp) ++ lsb_collect (ao - 8) (take ao tmp).
Proof.
  intros H. unfold lsb_collect.
  destruct (Z.to_nat ao) as [|m] eqn:Em; [lia|].
  cbn [unpack_lsb_loop]. destruct (Z.ltb_spec 0 ao); [|lia].
  rewrite unpack_lsb_loop_acc. cbn [app]. f_equal.
  apply unpack_lsb_loop_fuel; lia.
Qed.

(** Reading back a bit string that has one more chunk in front. *)
Lemma lsb_collect_prepend (k : nat) : forall T c,
  Z.of_nat (length T) <= 8 * Z.of_nat k + 8 ->
  (1 <= length c <= 8)%nat ->
  lsb_collect (8 * Z.of_nat k + Z.of_nat (length c)) (c ++ T)
  = lsb_collect (8 * Z.of_nat k) T ++ c.
Proof.
  induction k as [|k IH]; intros T c HT Hc.
  - change (8 * Z.of_nat 0) with 0.
    rewrite lsb_collect_step by lia.
    rewrite drop_app_length, take_app_length by lia.
    unfold drop at 1, take at 2. cbn [Z.to_nat skipn firstn].
    rewrite take_all by lia. rewrite app_nil_r.
    rewrite !lsb_collect_stop by lia. reflexivity.
  - rewrite lsb_collect_step by lia.
    rewrite drop_app_length, take_app_length by lia.
    rewrite (lsb_collect_step (8 * Z.of_nat (S k))) by lia.
    rewrite <- app_assoc. f_equal.
    replace (8 * Z.of_nat (S k) + Z.of_nat (length c) - 8)
      with (8 * Z.of_nat k + Z.of_nat (length c)) by lia.
    replace (8 * Z.of_nat (S k) - 8) with (8 * Z.of_nat k) by lia.
    apply IH; [|exact Hc].
    unfold take. rewrite length_firstn. lia.
Qed.

Lemma lsb_roundtrip_short vb f :
  1 <= f <= 8 -> Z.of_nat (length vb) <= f ->
  lsb_collect (Z.of_nat (length vb) - (Z.of_nat (length vb) - f) mod 8) vb
  = vb.
Proof.
  intros Hf Hle.
  destruct (Z.eq_dec (Z.of_nat (length vb)) f) as [Heq|Hne].
  - replace (Z.of_nat (length vb) - f) with 0 by lia.
    rewrite Zmod_0_l, Z.sub_0_r.
    rewrite lsb_collect_step by lia.
    rewrite (drop_all _ vb) by lia.
    rewrite (take_all _ vb) by lia.
    unfold take at 1. rewrite firstn_nil. cbn [app].
    apply lsb_collect_stop. lia.
  - apply lsb_collect_stop.
    pose proof (Z.mod_pos_bound (Z.of_nat (length vb) - f) 8 ltac:(lia)).
    pose proof (Z.div_mod (Z.of_nat (length vb) - f) 8 ltac:(lia)). lia.
Qed.

Lemma lsb_roundtrip (m : nat) : forall vb f,
  (length vb <= m)%nat -> 1 <= f <= 8 ->
  lsb_collect (Z.of_nat (length vb) - (Z.of_nat (length vb) - f) mod 8)
              (lsb_emit (Z.of_nat (length vb) - f) vb)
  = vb.
Proof.
  induction m as [|m IH]; intros vb f Hm Hf;
    destruct (Z.le_gt_cases (Z.of_nat (length vb)) f) as [Hle|Hgt];
    try lia.
  - rewrite lsb_emit_stop by lia. apply lsb_roundtrip_short; assumption.
  - rewrite lsb_emit_stop by lia. apply lsb_roundtrip_short; assumption.
  - (* the last [f] bits fill the current byte, the rest is emitted first *)
    set (n := Z.of_nat (length vb)) in *.
    rewrite lsb_emit_step by lia.
    set (vb' := take (n - f) vb). set (c := drop (n - f) vb).
    assert (Hvb' : Z.of_nat (length vb') = n - f)
      by (apply length_take; lia).
    assert (Hc : Z.of_nat (length c) = f).
    { unfold c. rewrite length_drop by lia. fold n. lia. }
    pose proof (Z.mod_pos_bound (n - f) 8 ltac:(lia)) as Hr.
    pose proof (Z.div_mod (n - f) 8 ltac:(lia)) as Hq.
    set (q := (n - f) / 8) in *. set (r := (n - f) mod 8) in *.
    assert (Hq0 : 0 <= q) by lia.
    specialize (IH vb' 8 ltac:(lia) ltac:(lia)).
    rewrite Hvb' in IH.
    replace ((n - f - 8) mod 8) with r in IH.
    2:{ unfold r. replace (n - f - 8) with (n - f + (-1) * 8) by lia.
        symmetry. apply Z_mod_plus_full. }
    replace (n - r) with (8 * Z.of_nat (Z.to_nat q) + Z.of_nat (length c)) by lia.
    rewrite lsb_collect_prepend.
    + replace (8 * Z.of_nat (Z.to_nat q)) with (n - f - r) by lia.
      rewrite IH. apply take_drop.
    + rewrite length_lsb_emit. lia.
    + lia.
Qed.

End Bitstruct_roundtrip.

Section Pack_unpack.
Import bitstruct.

Lemma uint_pack_ok size v :
  in_range size v ->
  uint_pack size (VInt v) = Ok (to_bits (Pos.to_nat size) v).
Proof.
  intros [H0 H1]. unfold uint_pack. cbn [py_int bind].
  destruct (Z.ltb_spec v 0); [lia|].
  destruct (Z.ltb_spec (2 ^ Z.pos size - 1) v); [lia|]. reflexivity.
Qed.

Lemma uint_pack_refuses size v :
  2 ^ Z.pos size <= v -> uint_pack size (VInt v) = Err bitstruct_Error.
Proof.
  intros H. unfold uint_pack. cbn [py_int bind].
  destruct (Z.ltb_spec (2 ^ Z.pos size - 1) v); [|lia].
  rewrite orb_true_r. reflexivity.
Qed.

Lemma window_at {A} (acc E suffix : list A) :
  take (Z.of_nat (length E)) (drop (Z.of_nat (length acc)) (acc ++ E ++ suffix))
  = E.
Proof.
  rewrite <- (Z.add_0_l (Z.of_nat (length acc))), drop_app_length by lia.
  unfold drop at 1. cbn [Z.to_nat skipn].
  rewrite <- (Z.add_0_l (Z.of_nat (length E))), take_app_length by lia.
  unfold take. cbn [Z.to_nat firstn]. apply app_nil_r.
Qed.

Lemma pack_value_ok order size v acc :
  in_range size v ->
  exists E,
    pack_value order size (VInt v) acc = Ok (acc ++ E)
    /\ length E = Pos.to_nat size
    /\ forall suffix,
         unpack_value order size (acc ++ E ++ suffix) (Z.of_nat (length acc))
         = v.
Proof.
  intros Hv. unfold pack_value. rewrite (uint_pack_ok _ _ Hv). cbn [bind].
  set (vb := to_bits (Pos.to_nat size) v).
  assert (Hlen : length vb = Pos.to_nat size) by apply length_to_bits.
  assert (Hval : of_bits vb = v).
  { unfold vb. rewrite of_bits_to_bits, positive_nat_Z.
    apply Z.mod_small. exact Hv. }
  assert (Hsz : Z.pos size = Z.of_nat (length vb))
    by (rewrite Hlen; symmetry; apply positive_nat_Z).
  destruct order.
  - exists vb. repeat split; [exact Hlen|].
    intros suffix. unfold unpack_value.
    rewrite Hsz, window_at. exact Hval.
  - set (p := Z.of_nat (length acc) mod 8).
    assert (Hp : 0 <= p < 8) by (apply Z.mod_pos_bound; lia).
    exists (lsb_emit (Z.of_nat (length vb) - (8 - p)) vb).
    repeat split.
    + f_equal. rewrite pack_lsb_loop_acc. f_equal.
      unfold lsb_emit. apply pack_lsb_loop_fuel; lia.
    + rewrite length_lsb_emit. exact Hlen.
    + intros suffix. unfold unpack_value.
      rewrite Hsz.
      replace (take (Z.of_nat (length vb)) _)
        with (lsb_emit (Z.of_nat (length vb) - (8 - p)) vb)
        by (rewrite <- (length_lsb_emit (Z.of_nat (length vb) - (8 - p)) vb)
              at 2; symmetry; apply window_at).
      replace (unpack_lsb_loop _ _ _ _)
        with (lsb_collect
                (Z.of_nat (length vb)
                 - (Z.of_nat (length acc) + Z.of_nat (length vb)) mod 8)
                (lsb_emit (Z.of_nat (length vb) - (8 - p)) vb)).
      2:{ unfold lsb_collect. apply unpack_lsb_loop_fuel.
          - pose proof (Z.mod_pos_bound
                          (Z.of_nat (length acc) + Z.of_nat (length vb)) 8
                          ltac:(lia)). lia.
          - pose proof (Z.mod_pos_bound
                          (Z.of_nat (length acc) + Z.of_nat (length vb)) 8
                          ltac:(lia)). lia. }
      replace ((Z.of_nat (length acc) + Z.of_nat (length vb)) mod 8)
        with ((Z.of_nat (length vb) - (8 - p)) mod 8).
      2:{ unfold p.
          replace (Z.of_nat (length vb) - (8 - Z.of_nat (length acc) mod 8))
            with (Z.of_nat (length acc) mod 8 + Z.of_nat (length vb) + (-1) * 8)
            by lia.
          rewrite Z_mod_plus_full, Zplus_mod_idemp_l. reflexivity. }
      rewrite (lsb_roundtrip (length vb)) by lia. exact Hval.
Qed.

Lemma calcsize_cons size fmt : calcsize (size :: fmt) = Z.pos size + calcsize fmt.
Proof. reflexivity. Qed.

Lemma calcsize_nonneg fmt : 0 <= calcsize fmt.
Proof. induction fmt; [cbn; lia | rewrite calcsize_cons; lia]. Qed.

Lemma pack_any_ok order fmt vs :
  Forall2 in_range fmt vs ->
  forall acc,
  exists B,
    pack_any order fmt (map VInt vs) acc = Ok (acc ++ B)
    /\ Z.of_nat (length B) = calcsize fmt
    /\ forall suffix,
         unpack_any order fmt (acc ++ B ++ suffix) (Z.of_nat (length acc)) = vs.
Proof.
  induction 1 as [|size v fmt vs Hv _ IH]; intros acc.
  - exists []. rewrite app_nil_r. repeat split.
  - destruct (pack_value_ok order size v acc Hv) as (E & HE & HlE & HuE).
    destruct (IH (acc ++ E)) as (B & HB & HlB & HuB).
    exists (E ++ B). cbn [map pack_any]. rewrite HE. cbn [bind].
    rewrite HB, <- app_assoc. repeat split.
    + rewrite length_app, Nat2Z.inj_add, HlB, HlE, calcsize_cons. lia.
    + intros suffix. cbn [unpack_any]. f_equal.
      * rewrite <- app_assoc. apply HuE.
      * specialize (HuB suffix).
        rewrite length_app, Nat2Z.inj_add, HlE, positive_nat_Z in HuB.
        rewrite <- !app_assoc in HuB. rewrite <- !app_assoc.
        exact HuB.
Qed.

(** A format whose size is a multiple of 8 bits, given values in range:
    [pack] returns [calcsize // 8] bytes, from which [unpack] returns
    the values. *)
Lemma pack_unpack fmt order vs :
  Forall2 in_range fmt vs ->
  calcsize fmt mod 8 = 0 ->
  exists bs,
    pack fmt order (map VInt vs) = Ok bs
    /\ Z.of_nat (length bs) = calcsize fmt / 8
    /\ unpack fmt order bs = Ok vs.
Proof.
  intros Hvs Hal.
  destruct (pack_any_ok order fmt vs Hvs []) as (B & HB & HlB & HuB).
  cbn [app length] in HB, HuB.
  assert (Hk : length B = (8 * Z.to_nat (calcsize fmt / 8))%nat).
  { pose proof (calcsize_nonneg fmt).
    pose proof (Z.div_mod (calcsize fmt) 8 ltac:(lia)). lia. }
  exists (bytes_of_bits B). unfold pack, unpack.
  rewrite length_map, <- (Forall2_length Hvs), Nat.ltb_irrefl, HB. cbn [bind].
  rewrite pad_last_byte_aligned by (rewrite HlB; exact Hal).
  rewrite (bits_of_bytes_of_bits _ _ Hk).
  repeat split.
  - rewrite (length_bytes_of_bits _ _ Hk).
    pose proof (calcsize_nonneg fmt).
    rewrite Z2Nat.id; [reflexivity|]. apply Z.div_pos; lia.
  - rewrite HlB, Z.ltb_irrefl. f_equal.
    specialize (HuB []). rewrite app_nil_r in HuB. exact HuB.
Qed.

End Pack_unpack.

(** ** [_grouper] *)

Lemma grouper_rounds_fuel {A} (n : nat) (pad : A) (rounds : nat) :
  forall rounds' l,
    (0 < n)%nat -> (length l <= rounds)%nat -> (length l <= rounds')%nat ->
    grouper_rounds rounds n l pad = grouper_rounds rounds' n l pad.
Proof.
  induction rounds as [|rounds IH]; intros rounds' l Hn H1 H2.
  - destruct l; [|simpl in H1; lia]. destruct rounds'; reflexivity.
  - destruct l as [|x l]; [destruct rounds'; reflexivity|].
    destruct rounds' as [|rounds']; [simpl in H2; lia|].
    cbn [grouper_rounds]. f_equal.
    apply IH; [exact Hn| |]; rewrite length_skipn; cbn [length] in *; lia.
Qed.

Lemma _grouper_nil {A} (n : nat) (pad : A) : _grouper n [] pad = [].
Proof. reflexivity. Qed.

Lemma _grouper_step {A} (n : nat) (l : list A) (pad : A) :
  (0 < n)%nat -> l <> [] ->
  _grouper n l pad
  = (firstn n l ++ repeat pad (n - length (firstn n l)))
      :: _grouper n (skipn n l) pad.
Proof.
  intros Hn Hl. unfold _grouper.
  destruct l as [|x l]; [congruence|].
  cbn [length grouper_rounds]. f_equal.
  apply grouper_rounds_fuel; [exact Hn| |]; rewrite ?length_skipn; cbn [length]; lia.
Qed.

(** A full chunk in front is drawn as it is. *)
Lemma _grouper_chunk {A} (n : nat) (c l : list A) (pad : A) :
  (0 < n)%nat -> length c = n -> _grouper n (c ++ l) pad = c :: _grouper n l pad.
Proof.
  intros Hn Hc. subst n.
  rewrite _grouper_step;
    [|exact Hn|destruct c; [simpl in Hn; lia | discriminate]].
  rewrite firstn_app, firstn_all, skipn_app, skipn_all, !Nat.sub_diag.
  cbn [firstn skipn app]. rewrite app_nil_r, Nat.sub_diag.
  cbn [repeat]. rewrite app_nil_r. reflexivity.
Qed.

(** The last, short chunk is filled with the pad value. *)
Lemma _grouper_short {A} (n : nat) (c : list A) (pad : A) :
  (0 < length c < n)%nat ->
  _grouper n c pad = [c ++ repeat pad (n - length c)].
Proof.
  intros Hc. rewrite _grouper_step; [|lia|destruct c; [simpl in Hc; lia|discriminate]].
  rewrite firstn_all2, skipn_all2 by lia. reflexivity.
Qed.

(** Lists, two items at a time. *)
Lemma list_ind_2 {A} (P : list A -> Prop) :
  P [] -> (forall a, P [a]) -> (forall a b l, P l -> P (a :: b :: l)) ->
  forall l, P l.
Proof.
  intros H0 H1 H2.
  assert (H : forall l, P l /\ forall a, P (a :: l)).
  { induction l as [|x l [IH1 IH2]]; split; auto. }
  intros l. apply H.
Qed.

(** ** What [StringField.serialize] refuses *)

Lemma bcdplus_lookup_char (c : Z) :
  StringField.bcdplus_lookup (VStr [c])
  = if bcd_supported c then Ok (bcd_code c) else Err KeyError.
Proof.
  unfold StringField.bcdplus_lookup, bcd_supported, bcd_code.
  destruct ((0x30 <=? c) && (c <=? 0x39)); [reflexivity|].
  destruct (c =? 0x20); [reflexivity|].
  destruct (c =? 0x2D); [reflexivity|].
  destruct (c =? 0x2E); reflexivity.
Qed.

Lemma bcd_code_range (c : Z) : bcd_supported c = true -> 0 <= bcd_code c <= 12.
Proof.
  unfold bcd_supported, bcd_code.
  destruct (Z.leb_spec 0x30 c), (Z.leb_spec c 0x39); cbn [andb orb];
    try lia;
    destruct (c =? 0x20); try lia; destruct (c =? 0x2D); lia.
Qed.

Lemma pack_nibbles_ok (a b : Z) :
  0 <= a <= 12 -> 0 <= b <= 12 ->
  exists tmp,
    bitstruct.pack [4; 4]%positive bitstruct.MSB_first [VInt a; VInt b] = Ok tmp
    /\ length tmp = 1%nat
    /\ bitstruct.unpack [4; 4]%positive bitstruct.MSB_first tmp = Ok [a; b].
Proof.
  intros Ha Hb.
  destruct (pack_unpack [4; 4]%positive bitstruct.MSB_first [a; b])
    as (tmp & Hp & Hl & Hu).
  - repeat constructor; unfold in_range; simpl; lia.
  - reflexivity.
  - exists tmp. repeat split; [exact Hp| |exact Hu].
    change (bitstruct.calcsize [4; 4]%positive / 8) with 1 in Hl. lia.
Qed.

Lemma ser_bcd_plus_loop_unsupported : forall (s : str) (acc : bytes),
  existsb (fun c => negb (bcd_supported c)) s = true ->
  StringField.ser_bcd_plus_loop
    (_grouper 2 (map char_item s) (VStr [0x20])) acc
  = Err KeyError.
Proof.
  induction s as [|a|a b s IH] using list_ind_2; intros acc H.
  - discriminate.
  - cbn [existsb] in H. rewrite orb_false_r in H.
    cbn [map]. rewrite _grouper_short by (simpl; lia).
    cbn [StringField.ser_bcd_plus_loop app length Nat.sub repeat
         StringField.map_result]. unfold char_item.
    rewrite bcdplus_lookup_char.
    destruct (bcd_supported a); [discriminate | reflexivity].
  - cbn [map].
    change (char_item a :: char_item b :: map char_item s)
      with ([char_item a; char_item b] ++ map char_item s).
    rewrite (_grouper_chunk 2 [char_item a; char_item b]) by (simpl; lia).
    cbn [StringField.ser_bcd_plus_loop StringField.map_result]. unfold char_item at 1 2.
    rewrite !bcdplus_lookup_char.
    cbn [existsb] in H.
    destruct (bcd_supported a) eqn:Ea; [|reflexivity].
    destruct (bcd_supported b) eqn:Eb; [|reflexivity].
    cbn [negb orb] in H. cbn [bind map].
    destruct (pack_nibbles_ok _ _ (bcd_code_range _ Ea) (bcd_code_range _ Eb))
      as (tmp & -> & _ & _).
    cbn [bind]. apply IH. exact H.
Qed.

(** C8.  [StringField.serialize] raises, and returns no bytes, whenever
    the encoded payload is longer than 63 bytes, and, for BCD_PLUS,
    whenever the value has a character outside the digits, space, [-]
    and [.]. *)
Theorem serialize_refuses_long_or_unsupported :
  (forall (self : StringField.t) (payload : bytes),
      StringField.ser_fn (StringField.format self) (StringField.value self)
      = Ok payload ->
      63 < Z.of_nat (length payload) ->
      StringField.serialize self = Err bitstruct_Error)
  /\ (forall (s : str) (c : Z),
         In c s -> bcd_supported c = false ->
         StringField.serialize (StringField.mk BCD_PLUS (VStr s)) = Err KeyError).
Proof.
  split.
  - intros self payload Hp Hlen. unfold StringField.serialize.
    rewrite Hp. cbn [bind]. unfold StringField.ser_type_length, bitstruct.pack.
    cbn [length Nat.ltb Nat.leb bitstruct.pack_any].
    unfold bitstruct.pack_value.
    rewrite uint_pack_ok
      by (unfold in_range; destruct (StringField.format self); simpl; lia).
    cbn [bind app]. rewrite uint_pack_refuses by (simpl; lia). reflexivity.
  - intros s c Hin Hc. unfold StringField.serialize.
    cbn [StringField.format StringField.value StringField.ser_fn].
    unfold StringField.ser_bcd_plus. cbn [StringField.py_iter bind].
    change (map (fun c0 => VStr [c0]) s) with (map char_item s).
    rewrite ser_bcd_plus_loop_unsupported; [reflexivity|].
    apply existsb_exists. exists c. rewrite Hc. split; [exact Hin | reflexivity].
Qed.

Lemma serialize_refuses_long_or_unsupported_witness :
  StringField.serialize
    (StringField.mk ASCII_8BIT (VStr (repeat 0x41 64))) = Err bitstruct_Error
  /\ StringField.serialize
       (StringField.mk BCD_PLUS (VStr (str_of "1A"))) = Err KeyError.
Proof.
  split.
  - apply (proj1 serialize_refuses_long_or_unsupported
                 (StringField.mk ASCII_8BIT (VStr (repeat 0x41 64)))
                 (repeat 0x41 64)).
    + vm_compute. reflexivity.
    + vm_compute. reflexivity.
  - apply (proj2 serialize_refuses_long_or_unsupported (str_of "1A") 0x41).
    + simpl. right. left. reflexivity.
    + vm_compute. reflexivity.
Defined.

(** ** The ASCII_6BIT encode rule *)

Lemma uint_pack_int (size : positive) (v : Z) :
  bitstruct.uint_pack size (VInt v)
  = if (0 <=? v) && (v <? 2 ^ Z.pos size)
    then Ok (bitstruct.to_bits (Pos.to_nat size) v)
    else Err bitstruct_Error.
Proof.
  unfold bitstruct.uint_pack. cbn [py_int bind].
  destruct (Z.ltb_spec v 0), (Z.leb_spec 0 v); try lia; cbn [orb andb];
    [reflexivity|].
  destruct (Z.ltb_spec (2 ^ Z.pos size - 1) v), (Z.ltb_spec v (2 ^ Z.pos size));
    try lia; reflexivity.
Qed.

Lemma bytes_of_stream (s : Z) :
  0 <= s < 2 ^ 24 ->
  bitstruct.bytes_of_bits (bitstruct.to_bits 24 s) = stream_bytes s.
Proof.
  intros Hs.
  assert (H16 : 0 <= s mod 2 ^ 16 < 2 ^ 16) by (apply Z.mod_pos_bound; lia).
  assert (H8 : 0 <= s mod 2 ^ 8 < 2 ^ 8) by (apply Z.mod_pos_bound; lia).
  assert (Hhi : 0 <= s / 2 ^ 16 < 2 ^ 8).
  { split; [apply Z.div_pos; lia|]. apply Z.div_lt_upper_bound; lia. }
  assert (Hmid : 0 <= (s / 2 ^ 8) mod 2 ^ 8 < 2 ^ 8)
    by (apply Z.mod_pos_bound; lia).
  replace s with ((s / 2 ^ 16) * 2 ^ Z.of_nat 16
                  + (((s / 2 ^ 8) mod 2 ^ 8) * 2 ^ Z.of_nat 8 + s mod 2 ^ 8))
    at 1.
  2:{ change (Z.of_nat 16) with 16. change (Z.of_nat 8) with 8.
      pose proof (Z.div_mod s (2 ^ 16) ltac:(lia)).
      pose proof (Z.div_mod s (2 ^ 8) ltac:(lia)).
      pose proof (Z.div_mod (s / 2 ^ 8) (2 ^ 8) ltac:(lia)).
      assert (s / 2 ^ 8 / 2 ^ 8 = s / 2 ^ 16)
        by (rewrite Z.div_div by lia; reflexivity).
      lia. }
  change 24%nat with (8 + 16)%nat.
  rewrite <- to_bits_app by (change (Z.of_nat 16) with 16; lia).
  change 16%nat with (8 + 8)%nat at 1.
  rewrite <- to_bits_app by (change (Z.of_nat 8) with 8; lia).
  rewrite !bytes_of_bits_app8 by apply length_to_bits.
  rewrite <- (app_nil_r (bitstruct.to_bits 8 (s mod 2 ^ 8))).
  rewrite bytes_of_bits_app8 by apply length_to_bits.
  rewrite !of_bits_to_bits. change (2 ^ Z.of_nat 8) with (2 ^ 8).
  rewrite (Z.mod_small (s / 2 ^ 16)) by lia.
  rewrite !Z.mod_mod by lia. reflexivity.
Qed.

Lemma pack_u6x4 (c3 c2 c1 c0 : Z) :
  bitstruct.pack [6; 6; 6; 6]%positive bitstruct.MSB_first
                 [VInt c3; VInt c2; VInt c1; VInt c0]
  = if forallb (fun c => (0 <=? c) && (c <? 64)) [c3; c2; c1; c0]
    then Ok (stream_bytes (c3 * 2 ^ 18 + c2 * 2 ^ 12 + c1 * 2 ^ 6 + c0))
    else Err bitstruct_Error.
Proof.
  unfold bitstruct.pack. cbn [length Nat.ltb Nat.leb bitstruct.pack_any forallb].
  unfold bitstruct.pack_value. rewrite !uint_pack_int.
  change (2 ^ Z.pos 6) with 64. change (Pos.to_nat 6) with 6%nat.
  destruct (Z.leb_spec 0 c3), (Z.ltb_spec c3 64); cbn [andb bind]; try reflexivity.
  destruct (Z.leb_spec 0 c2), (Z.ltb_spec c2 64); cbn [andb bind]; try reflexivity.
  destruct (Z.leb_spec 0 c1), (Z.ltb_spec c1 64); cbn [andb bind]; try reflexivity.
  destruct (Z.leb_spec 0 c0), (Z.ltb_spec c0 64); cbn [andb bind]; try reflexivity.
  f_equal. cbn [app]. rewrite <- !app_assoc.
  rewrite pad_last_byte_aligned
    by (rewrite !length_app, !length_to_bits; reflexivity).
  rewrite (to_bits_app 6 6 c1 c0) by (change (Z.of_nat 6) with 6; lia).
  rewrite (to_bits_app 6 (6 + 6) c2) by (change (Z.of_nat (6 + 6)) with 12; lia).
  rewrite (to_bits_app 6 (6 + (6 + 6)) c3)
    by (change (Z.of_nat (6 + (6 + 6))) with 18; lia).
  change (6 + (6 + (6 + 6)))%nat with 24%nat.
  change (Z.of_nat (6 + (6 + 6))) with 18.
  change (Z.of_nat (6 + 6)) with 12. change (Z.of_nat 6) with 6.
  rewrite bytes_of_stream by lia. f_equal. ring.
Qed.

(** Lists, four items at a time. *)
Lemma list_ind_4 {A} (P : list A -> Prop) :
  P [] -> (forall a, P [a]) -> (forall a b, P [a; b]) ->
  (forall a b c, P [a; b; c]) ->
  (forall a b c d l, P l -> P (a :: b :: c :: d :: l)) ->
  forall l, P l.
Proof.
  intros H0 H1 H2 H3 H4.
  assert (H : forall l, P l /\ (forall a, P (a :: l))
                        /\ (forall a b, P (a :: b :: l))
                        /\ (forall a b c, P (a :: b :: c :: l))).
  { induction l as [|x l (I0 & I1 & I2 & I3)]; repeat split; auto. }
  intros l. apply H.
Qed.

Lemma code_in_range (x : Z) :
  (0 <=? x - 0x20) && (x - 0x20 <? 64) = is_6bit_char x.
Proof.
  unfold is_6bit_char.
  destruct (Z.leb_spec 0x20 x), (Z.leb_spec x 0x5F),
    (Z.leb_spec 0 (x - 0x20)), (Z.ltb_spec (x - 0x20) 64);
    cbn [andb]; try reflexivity; lia.
Qed.

(** One round of the loop of [ser_6bit] on a full chunk. *)
Lemma ser_6bit_loop_step (x0 x1 x2 x3 : Z) (rest : list (list Z)) (acc : bytes) :
  StringField.ser_6bit_loop ([x0; x1; x2; x3] :: rest) acc
  = if forallb is_6bit_char [x0; x1; x2; x3]
    then StringField.ser_6bit_loop rest (acc ++ rule_6bit_chunk [x0; x1; x2; x3])
    else Err bitstruct_Error.
Proof.
  cbn [StringField.ser_6bit_loop map rev app]. rewrite pack_u6x4.
  cbn [forallb]. rewrite !code_in_range.
  destruct (is_6bit_char x0), (is_6bit_char x1), (is_6bit_char x2),
    (is_6bit_char x3); reflexivity.
Qed.

Lemma ser_6bit_loop_rule : forall (u : str) (acc : bytes),
  StringField.ser_6bit_loop (_grouper 4 u 0x20) acc
  = if forallb is_6bit_char u
    then Ok (acc ++ flat_map rule_6bit_chunk (_grouper 4 u 0x20))
    else Err bitstruct_Error.
Proof.
  induction u as [|a|a b|a b c|a b c d u IH] using list_ind_4; intros acc.
  - cbn. rewrite app_nil_r. reflexivity.
  - rewrite _grouper_short by (simpl; lia).
    cbn [length Nat.sub repeat app]. rewrite ser_6bit_loop_step.
    cbn [forallb flat_map StringField.ser_6bit_loop].
    change (is_6bit_char 0x20) with true. rewrite !andb_true_r, app_nil_r.
    reflexivity.
  - rewrite _grouper_short by (simpl; lia).
    cbn [length Nat.sub repeat app]. rewrite ser_6bit_loop_step.
    cbn [forallb flat_map StringField.ser_6bit_loop].
    change (is_6bit_char 0x20) with true. rewrite !andb_true_r, app_nil_r.
    reflexivity.
  - rewrite _grouper_short by (simpl; lia).
    cbn [length Nat.sub repeat app]. rewrite ser_6bit_loop_step.
    cbn [forallb flat_map StringField.ser_6bit_loop].
    change (is_6bit_char 0x20) with true. rewrite !andb_true_r, app_nil_r.
    reflexivity.
  - change (a :: b :: c :: d :: u) with ([a; b; c; d] ++ u).
    rewrite _grouper_chunk by (simpl; lia).
    rewrite ser_6bit_loop_step, IH, forallb_app.
    destruct (forallb is_6bit_char [a; b; c; d]); [|reflexivity].
    cbn [andb flat_map]. rewrite app_assoc. reflexivity.
Qed.

(** C4 as the spec states it fails on [IPMI]: with the first character
    most significant the bytes would be 69 0B A7, while the code returns
    29 DC A6. *)
Lemma spec_6bit_counterexample :
  spec_6bit (str_of "IPMI") = [0x69; 0x0B; 0xA7]
  /\ StringField.ser_6bit (VStr (str_of "IPMI")) = Ok [0x29; 0xDC; 0xA6]
  /\ StringField.ser_6bit (VStr (str_of "IPMI")) <> Ok (spec_6bit (str_of "IPMI")).
Proof.
  split; [vm_compute; reflexivity|].
  split; [vm_compute; reflexivity|].
  vm_compute. discriminate.
Qed.

Lemma ser_6bit_follows_rule_aux (s : str) :
  StringField.ser_6bit (VStr s)
  = if forallb is_6bit_char (upper s) then Ok (rule_6bit s)
    else Err bitstruct_Error.
Proof.
  unfold StringField.ser_6bit, rule_6bit. rewrite ser_6bit_loop_rule.
  reflexivity.
Qed.

(** C4, amended.  The ASCII_6BIT encoding of every string follows this
    rule: upper-case the input, pad with trailing spaces to a multiple of
    4 characters, and for each chunk of 4 characters subtract 0x20 from
    each code, pack the 4 six-bit codes into a 24-bit stream with the
    last character of the chunk most significant, split the stream into 3
    bytes and reverse these 3 bytes; a character outside 0x20..0x5F after
    upper-casing has no six-bit code and is refused. *)
Theorem ser_6bit_follows_rule (s : str) :
  StringField.ser_6bit (VStr s)
  = if forallb is_6bit_char (upper s) then Ok (rule_6bit s)
    else Err bitstruct_Error.
Proof. exact (ser_6bit_follows_rule_aux s). Qed.

(** ** [size] against the length of [serialize] *)

(** C5, at a value with a character that UTF-8 encodes in two bytes:
    [size] counts the characters of the value and answers 2, while
    [serialize] returns the header byte and the two bytes C3 A9, three
    bytes in all. *)
Theorem size_counts_characters_not_bytes :
  let f := StringField.mk ASCII_8BIT (VStr [0xE9]) in
  StringField.size f = Ok 2
  /\ StringField.serialize f = Ok [0xC2; 0xC3; 0xA9]
  /\ Z.of_nat (length [0xC2; 0xC3; 0xA9]) <> 2.
Proof.
  cbv zeta. split; [vm_compute; reflexivity|].
  split; [vm_compute; reflexivity|]. discriminate.
Qed.

(** ** [area_length] after [serialize] *)

(** C6 as the spec states it fails: after [serialize], reading
    [area_length] gives 8, the value of [size_total], and 8 times 8 is not
    [size_total]. *)
Lemma area_length_counterexample :
  exists bs self',
    FruArea.serialize area_length_only = (Ok bs, self')
    /\ FruArea.__getitem__ "area_length" self' = Ok (VInt 8)
    /\ FruArea.size_total self' = Ok 8
    /\ 8 * 8 <> 8.
Proof.
  eexists. eexists. split; [vm_compute; reflexivity|].
  split; [vm_compute; reflexivity|].
  split; [vm_compute; reflexivity|]. lia.
Qed.

Lemma od_get_put_same (d : FruArea.odict) (key : string) (v : Field) :
  FruArea.od_get (FruArea.od_put d key v) key = Some v.
Proof.
  induction d as [|[k v0] d IH]; cbn [FruArea.od_put FruArea.od_get].
  - rewrite String.eqb_refl. reflexivity.
  - destruct (String.eqb k key) eqn:E; cbn [FruArea.od_get]; rewrite E;
      [reflexivity | exact IH].
Qed.

Lemma for_values_get {A} (f : Field -> result A) (d : FruArea.odict) :
  forall parts key v,
    FruArea.for_values f d = Ok parts ->
    FruArea.od_get d key = Some v ->
    exists x, f v = Ok x.
Proof.
  unfold FruArea.for_values.
  induction d as [|[k v0] d IH]; intros parts key v Hp Hg; [discriminate|].
  cbn [StringField.map_result snd] in Hp. cbn [FruArea.od_get] in Hg.
  destruct (f v0) as [x|] eqn:Ef; [|discriminate]. cbn [bind] in Hp.
  destruct (StringField.map_result _ d) as [xs|] eqn:Ed; [|discriminate].
  destruct (String.eqb k key).
  - injection Hg as <-. eauto.
  - eapply IH; eauto.
Qed.

Lemma for_values_put {A} (f : Field -> result A) (d : FruArea.odict) :
  forall key v v',
    FruArea.od_get d key = Some v ->
    f v' = f v ->
    FruArea.for_values f (FruArea.od_put d key v') = FruArea.for_values f d.
Proof.
  unfold FruArea.for_values.
  induction d as [|[k v0] d IH]; intros key v v' Hg Hf; [discriminate|].
  cbn [FruArea.od_get] in Hg. cbn [FruArea.od_put].
  destruct (String.eqb k key).
  - injection Hg as <-. cbn [StringField.map_result snd]. rewrite Hf. reflexivity.
  - cbn [StringField.map_result snd]. rewrite (IH _ _ _ Hg Hf). reflexivity.
Qed.

(** A [StringField] that holds an integer does not serialize. *)
Lemma StringField_serialize_int (fmt : StringFmt) (z : Z) :
  exists e, StringField.serialize (StringField.mk fmt (VInt z)) = Err e.
Proof. destruct fmt; eexists; reflexivity. Qed.

Lemma size_total_aligned (self : FruArea.t) (n : Z) :
  FruArea.size_total self = Ok n -> n mod 8 = 0.
Proof.
  unfold FruArea.size_total. destruct (FruArea.size_payload self) as [p|];
    [|discriminate].
  cbn [bind]. intros H.
  pose proof (_sizeAlign_total (p + 1) 8 ltac:(lia)) as Ha.
  destruct (_sizeAlign (p + 1) 8) as [pad n']. injection H as <-. exact Ha.
Qed.

(** C6, amended.  For a record whose schema includes [area_length],
    after [serialize] has returned, reading [area_length] gives the value
    of [size_total()]: the field holds that value divided by 8 and the
    accessor multiplies what the field holds by 8. *)
Theorem area_length_is_size_total (self self' : FruArea.t) (bs : bytes) :
  FruArea.od_contains (FruArea._dict self) "area_length" = true ->
  FruArea.serialize self = (Ok bs, self') ->
  exists n,
    FruArea.size_total self' = Ok n
    /\ FruArea._get "area_length" self' = Ok (VInt (n / 8))
    /\ FruArea.__getitem__ "area_length" self' = Ok (VInt n).
Proof.
  intros Hc H. unfold FruArea.serialize, mbind, pure_call in H.
  destruct (FruArea._prologue self) as [p|]; [|discriminate].
  rewrite Hc in H.
  destruct (FruArea.size_total self) as [n|] eqn:En; [|discriminate].
  pose proof (size_total_aligned _ _ En) as Hal.
  unfold FruArea.__setitem__ in H. cbn [String.eqb Ascii.eqb Bool.eqb] in H.
  unfold FruArea._set_area_length, FruArea._set in H.
  rewrite Hal in H. cbn [Z.eqb negb] in H.
  unfold FruArea.od_contains in Hc.
  destruct (FruArea.od_get (FruArea._dict self) "area_length") as [f|] eqn:Eg;
    [|discriminate].
  cbn [FruArea._dict] in H.
  destruct (FruArea.for_values FruArea.field_serialize _) as [parts|] eqn:Ep;
    [|discriminate].
  injection H as _ <-.
  destruct (for_values_get _ _ _ "area_length" _ Ep (od_get_put_same _ _ _))
    as [x Hx].
  destruct f as [f|f].
  2:{ cbn in Hx. destruct (StringField_serialize_int (StringField.format f) (n / 8))
        as [e He]. congruence. }
  exists n. split; [|split].
  - unfold FruArea.size_total, FruArea.size_payload in *.
    cbn [FruArea._dict].
    rewrite (for_values_put FruArea.field_size _ _ _ _ Eg); [exact En|].
    reflexivity.
  - unfold FruArea._get. cbn [FruArea._dict]. rewrite od_get_put_same.
    reflexivity.
  - unfold FruArea.__getitem__. cbn [String.eqb Ascii.eqb Bool.eqb].
    unfold FruArea._get_area_length, FruArea._get. cbn [FruArea._dict].
    rewrite od_get_put_same. cbn. f_equal. f_equal.
    pose proof (Z.div_mod n 8 ltac:(lia)). lia.
Qed.

Lemma area_length_is_size_total_witness :
  exists n,
    FruArea.size_total (snd (FruArea.serialize area_length_only)) = Ok n
    /\ FruArea._get "area_length" (snd (FruArea.serialize area_length_only))
       = Ok (VInt (n / 8))
    /\ FruArea.__getitem__ "area_length" (snd (FruArea.serialize area_length_only))
       = Ok (VInt n).
Proof.
  apply (area_length_is_size_total area_length_only
           (snd (FruArea.serialize area_length_only))
           [1; 1; 0; 0; 0; 0; 0; 254]).
  - vm_compute. reflexivity.
  - vm_compute. reflexivity.
Defined.

(** ** Decoding ASCII_6BIT *)

(** Lists, three items at a time. *)
Lemma list_ind_3 {A} (P : list A -> Prop) :
  P [] -> (forall a, P [a]) -> (forall a b, P [a; b]) ->
  (forall a b c l, P l -> P (a :: b :: c :: l)) ->
  forall l, P l.
Proof.
  intros H0 H1 H2 H3.
  assert (H : forall l, P l /\ (forall a, P (a :: l))
                        /\ (forall a b, P (a :: b :: l))).
  { induction l as [|x l (I0 & I1 & I2)]; repeat split; auto. }
  intros l. apply H.
Qed.

Lemma utf8_decode_ascii (l : bytes) :
  Forall (fun x => 0 <= x < 0x80) l -> utf8_decode l = Ok l.
Proof.
  induction 1 as [|x l Hx _ IH]; [reflexivity|].
  cbn [utf8_decode].
  destruct (Z.leb_spec 0 x), (Z.ltb_spec x 0x80); try lia.
  cbn [andb]. rewrite IH. reflexivity.
Qed.

Lemma unpack_value_msb_bound (size : positive) (b : bitstruct.bits) (offset : Z) :
  0 <= bitstruct.unpack_value bitstruct.MSB_first size b offset < 2 ^ Z.pos size.
Proof.
  unfold bitstruct.unpack_value.
  pose proof (of_bits_bound (take (Z.pos size) (drop offset b))) as [H0 H1].
  split; [exact H0|].
  eapply Z.lt_le_trans; [exact H1|].
  apply Z.pow_le_mono_r; [lia|]. unfold take. rewrite length_firstn. lia.
Qed.

Lemma unpack_u6x4 (x y z : Z) :
  exists v0 v1 v2 v3,
    bitstruct.unpack [6; 6; 6; 6]%positive bitstruct.MSB_first [x; y; z]
    = Ok [v0; v1; v2; v3]
    /\ 0 <= v0 < 64 /\ 0 <= v1 < 64 /\ 0 <= v2 < 64 /\ 0 <= v3 < 64.
Proof.
  unfold bitstruct.unpack.
  rewrite length_bits_of_bytes. cbn [length Nat.mul Nat.add].
  change (Z.of_nat 24 <? bitstruct.calcsize [6; 6; 6; 6]%positive) with false.
  cbn [bitstruct.unpack_any].
  do 4 eexists. split; [reflexivity|].
  repeat split; apply (unpack_value_msb_bound 6).
Qed.

Lemma deser_6bit_loop_spec : forall (payload acc : bytes),
  Forall is_byte payload ->
  (Z.of_nat (length payload) mod 3 = 0 ->
   exists res,
     StringField.deser_6bit_loop
       (_grouper 3 (map VInt payload) (VStr [0x20])) acc = Ok (acc ++ res)
     /\ Forall (fun x => 0x20 <= x < 0x60) res)
  /\ (Z.of_nat (length payload) mod 3 <> 0 ->
      StringField.deser_6bit_loop
        (_grouper 3 (map VInt payload) (VStr [0x20])) acc = Err TypeError).
Proof.
  induction payload as [|a|a b|a b c payload IH] using list_ind_3;
    intros acc Hb.
  - split; [|intros H; exfalso; apply H; reflexivity].
    intros _. exists []. rewrite app_nil_r. split; [reflexivity | constructor].
  - split; [intros H; discriminate H|]. intros _. reflexivity.
  - split; [intros H; discriminate H|]. intros _. reflexivity.
  - assert (Hlen : Z.of_nat (length (a :: b :: c :: payload)) mod 3
                   = Z.of_nat (length payload) mod 3).
    { cbn [length]. rewrite !Nat2Z.inj_succ.
      replace (Z.succ (Z.succ (Z.succ (Z.of_nat (length payload)))))
        with (Z.of_nat (length payload) + 1 * 3) by lia.
      apply Z_mod_plus_full. }
    rewrite Hlen.
    inversion Hb as [|? ? Ha Hb1]; subst.
    inversion Hb1 as [|? ? Hb' Hb2]; subst.
    inversion Hb2 as [|? ? Hc Hb3]; subst.
    cbn [map].
    change (VInt a :: VInt b :: VInt c :: map VInt payload)
      with ([VInt a; VInt b; VInt c] ++ map VInt payload).
    rewrite _grouper_chunk by (simpl; lia).
    cbn [StringField.deser_6bit_loop rev app StringField.py_bytearray].
    unfold is_byte in Ha, Hb', Hc.
    destruct (Z.leb_spec 0 c), (Z.ltb_spec c 256); try lia.
    destruct (Z.leb_spec 0 b), (Z.ltb_spec b 256); try lia.
    destruct (Z.leb_spec 0 a), (Z.ltb_spec a 256); try lia.
    cbn [andb bind].
    destruct (unpack_u6x4 c b a) as (v0 & v1 & v2 & v3 & -> & Hv0 & Hv1 & Hv2 & Hv3).
    cbn [bind rev app map].
    destruct (IH (acc ++ [v3 + 0x20; v2 + 0x20; v1 + 0x20; v0 + 0x20]) Hb3)
      as [IHok IHerr].
    split; [|exact IHerr].
    intros Hm. destruct (IHok Hm) as (res & -> & Hres).
    exists ([v3 + 0x20; v2 + 0x20; v1 + 0x20; v0 + 0x20] ++ res).
    rewrite <- app_assoc. split; [reflexivity|].
    apply Forall_app. split; [|exact Hres].
    repeat constructor; lia.
Qed.

Lemma Forall_firstn {A} (P : A -> Prop) (n : nat) : forall l,
  Forall P l -> Forall P (firstn n l).
Proof.
  induction n as [|n IH]; intros l H; [constructor|].
  destruct H; [constructor|]. cbn [firstn]. constructor; auto.
Qed.

Lemma Forall_skipn {A} (P : A -> Prop) (n : nat) : forall l,
  Forall P l -> Forall P (skipn n l).
Proof.
  induction n as [|n IH]; intros l H; [exact H|].
  destruct H; [constructor|]. cbn [skipn]. auto.
Qed.

(** C10 as stated fails: the header 0x84 selects ASCII_6BIT with payload
    length 4, which is not a multiple of 3, yet only 3 bytes follow and
    they decode, so the call returns and stores [IPMI]. *)
Lemma deser_6bit_counterexample :
  bitstruct.unpack [2; 6]%positive bitstruct.MSB_first [0x84] = Ok [2; 4]
  /\ 4 mod 3 <> 0
  /\ StringField.deserialize [0x84; 0x29; 0xDC; 0xA6] (StringField.mk BIN VNone)
     = (Ok [], StringField.mk ASCII_6BIT (VStr (str_of "IPMI"))).
Proof.
  split; [vm_compute; reflexivity|].
  split; [discriminate|]. vm_compute. reflexivity.
Qed.

(** C10, amended.  [StringField.deserialize] of a buffer whose header
    selects ASCII_6BIT returns only when the number of payload bytes it
    takes from the buffer (the header's payload length, or as many bytes
    as are left when these are fewer) is a multiple of 3, and then stores
    a decoded string; for any other number it raises [TypeError] while
    grouping the payload bytes, and the value of the field stays as it
    was, the format being ASCII_6BIT already.  When the buffer holds the
    whole payload the number taken is the header's payload length. *)
Theorem deser_6bit_needs_triples
        (input : bytes) (self : StringField.t) (payload_len : Z) :
  Forall is_byte input ->
  bitstruct.unpack [2; 6]%positive bitstruct.MSB_first (take 1 input)
  = Ok [2; payload_len] ->
  let payload := take payload_len (drop 1 input) in
  let remainder := drop payload_len (drop 1 input) in
  (Z.of_nat (length payload) mod 3 = 0 ->
   exists s, StringField.deserialize input self
             = (Ok remainder, StringField.mk ASCII_6BIT (VStr s)))
  /\ (Z.of_nat (length payload) mod 3 <> 0 ->
      StringField.deserialize input self
      = (Err TypeError, StringField.mk ASCII_6BIT (StringField.value self)))
  /\ (0 <= payload_len <= Z.of_nat (length (drop 1 input)) ->
      Z.of_nat (length payload) = payload_len).
Proof.
  intros Hb Hh payload remainder.
  assert (Hp : Forall is_byte payload).
  { unfold payload, take, drop. apply Forall_firstn, Forall_skipn, Hb. }
  destruct (deser_6bit_loop_spec payload [] Hp) as [Hok Herr].
  unfold StringField.deserialize. rewrite Hh.
  change (StringField.fmt_of_int 2) with (Ok ASCII_6BIT).
  cbn [StringField.deser_fn].
  fold payload remainder. unfold StringField.deser_6bit.
  split; [|split].
  - intros Hm. destruct (Hok Hm) as (res & -> & Hres). cbn [bind app].
    rewrite utf8_decode_ascii
      by (eapply Forall_impl; [|exact Hres]; cbv beta; intros; lia).
    eauto.
  - intros Hm. rewrite (Herr Hm). reflexivity.
  - intros Hl. unfold payload. apply length_take. exact Hl.
Qed.

Lemma deser_6bit_needs_triples_witness :
  (Z.of_nat (length (take 2 (drop 1 [0x82; 0x29; 0xDC; 0xA6]))) mod 3 = 0 ->
   exists s, StringField.deserialize [0x82; 0x29; 0xDC; 0xA6]
                                     (StringField.mk BIN VNone)
             = (Ok (drop 2 (drop 1 [0x82; 0x29; 0xDC; 0xA6])),
                StringField.mk ASCII_6BIT (VStr s)))
  /\ (Z.of_nat (length (take 2 (drop 1 [0x82; 0x29; 0xDC; 0xA6]))) mod 3 <> 0 ->
      StringField.deserialize [0x82; 0x29; 0xDC; 0xA6] (StringField.mk BIN VNone)
      = (Err TypeError, StringField.mk ASCII_6BIT VNone))
  /\ (0 <= 2 <= Z.of_nat (length (drop 1 [0x82; 0x29; 0xDC; 0xA6])) ->
      Z.of_nat (length (take 2 (drop 1 [0x82; 0x29; 0xDC; 0xA6]))) = 2).
Proof.
  apply (deser_6bit_needs_triples [0x82; 0x29; 0xDC; 0xA6]
                                  (StringField.mk BIN VNone) 2).
  - repeat constructor; unfold is_byte; lia.
  - vm_compute. reflexivity.
Defined.

(** ** UTF-8: what is encoded is decoded again *)

Lemma utf8_decode_encode_cp (c : Z) (b rest : bytes) :
  is_code_point c ->
  utf8_encode_cp c = Ok b ->
  utf8_decode (b ++ rest) = (s <- utf8_decode rest ;; Ok (c :: s)).
Proof.
  unfold is_code_point, utf8_encode_cp, is_surrogate. intros Hc H.
  destruct (Z.ltb_spec c 0x80).
  { injection H as <-. cbn [app utf8_decode]. decide_tests. reflexivity. }
  pose proof (Z.div_mod c 64 ltac:(lia)) as Hd.
  pose proof (Z.mod_pos_bound c 64 ltac:(lia)) as Hm.
  pose proof (Z.div_mod (c / 64) 64 ltac:(lia)) as Hd2.
  pose proof (Z.mod_pos_bound (c / 64) 64 ltac:(lia)) as Hm2.
  pose proof (Z.div_mod (c / 64 / 64) 64 ltac:(lia)) as Hd3.
  pose proof (Z.mod_pos_bound (c / 64 / 64) 64 ltac:(lia)) as Hm3.
  assert (Hq : c / 4096 = c / 64 / 64)
    by (rewrite Z.div_div by lia; reflexivity).
  assert (Hq3 : c / 262144 = c / 64 / 64 / 64)
    by (rewrite !Z.div_div by lia; reflexivity).
  rewrite Hq, Hq3 in H.
  remember (c / 64) as q eqn:Eq. remember (c mod 64) as r eqn:Er.
  remember (q / 64) as q2 eqn:Eq2. remember (q mod 64) as r2 eqn:Er2.
  remember (q2 / 64) as q3 eqn:Eq3. remember (q2 mod 64) as r3 eqn:Er3.
  clear Eq Er Eq2 Er2 Eq3 Er3 Hq Hq3.
  destruct (Z.ltb_spec c 0x800).
  { remember (192 + q) as b0 eqn:Eb0. remember (128 + r) as b1 eqn:Eb1.
    injection H as <-.
    cbn [app utf8_decode]. unfold is_cont. decide_tests.
    replace ((b0 - 192) * 64 + (b1 - 128)) with c by lia.
    reflexivity. }
  destruct (Z.ltb_spec c 0x10000).
  { destruct ((55296 <=? c) && (c <=? 57343)) eqn:Es; [discriminate|].
    remember (224 + q2) as b0 eqn:Eb0. remember (128 + r2) as b1 eqn:Eb1.
    remember (128 + r) as b2 eqn:Eb2.
    injection H as <-.
    cbn [app utf8_decode]. unfold is_cont, is_surrogate. cbv zeta.
    replace ((b0 - 224) * 4096 + (b1 - 128) * 64 + (b2 - 128)) with c by lia.
    rewrite Es.
    decide_tests. reflexivity. }
  remember (240 + q3) as b0 eqn:Eb0. remember (128 + r3) as b1 eqn:Eb1.
  remember (128 + r2) as b2 eqn:Eb2. remember (128 + r) as b3 eqn:Eb3.
  injection H as <-.
  cbn [app utf8_decode]. unfold is_cont. cbv zeta.
  replace ((b0 - 240) * 262144 + (b1 - 128) * 4096 + (b2 - 128) * 64
           + (b3 - 128)) with c by lia.
  decide_tests. reflexivity.
Qed.

Lemma utf8_decode_encode (s : str) : forall bs,
  Forall is_code_point s ->
  utf8_encode s = Ok bs ->
  utf8_decode bs = Ok s.
Proof.
  induction s as [|c s IH]; intros bs Hs H.
  - injection H as <-. reflexivity.
  - inversion Hs as [|? ? Hc Hs']; subst.
    cbn [utf8_encode] in H.
    destruct (utf8_encode_cp c) as [b|] eqn:Eb; [|discriminate].
    destruct (utf8_encode s) as [bs'|] eqn:Es; [|discriminate].
    injection H as <-.
    rewrite (utf8_decode_encode_cp c b bs' Hc Eb), (IH bs' Hs' eq_refl).
    reflexivity.
Qed.

(** ** The string encodings: what is encoded is decoded again *)

Lemma pad_to_chunk (n : nat) (c s : str) :
  length c = n -> pad_to n (c ++ s) = c ++ pad_to n s.
Proof.
  intros Hc. unfold pad_to. rewrite <- app_assoc, length_app, Hc.
  replace (n + length s)%nat with (length s + 1 * n)%nat by lia.
  rewrite Nat.Div0.mod_add. reflexivity.
Qed.

Lemma bytes_of_bits_range_bounded (n : nat) : forall b,
  (length b <= n)%nat -> Forall is_byte (bitstruct.bytes_of_bits b).
Proof.
  induction n as [|n IH]; intros b Hl.
  - destruct b; [constructor | simpl in Hl; lia].
  - do 8 (destruct b as [|? b]; [constructor|]).
    cbn [bitstruct.bytes_of_bits]. constructor.
    + pose proof (of_bits_bound [b0; b1; b2; b3; b4; b5; b6; b7]) as H.
      exact H.
    + apply IH. cbn [length] in Hl. lia.
Qed.

Lemma pack_is_bytes fmt order args bs :
  bitstruct.pack fmt order args = Ok bs -> Forall is_byte bs.
Proof.
  unfold bitstruct.pack. destruct (_ <? _)%nat; [discriminate|].
  destruct (bitstruct.pack_any _ _ _ _); [|discriminate].
  cbn [bind]. intros H. injection H as <-.
  eapply bytes_of_bits_range_bounded. apply Nat.le_refl.
Qed.

Lemma bcdplus_lookup_rev_code (c : Z) :
  bcd_supported c = true ->
  StringField.bcdplus_lookup_rev (bcd_code c) = Ok c.
Proof.
  unfold bcd_supported, bcd_code, StringField.bcdplus_lookup_rev.
  destruct (Z.leb_spec 0x30 c), (Z.leb_spec c 0x39); cbn [andb orb].
  - intros _. destruct (Z.leb_spec 0 (c - 0x30)), (Z.leb_spec (c - 0x30) 9);
      try lia. cbn [andb]. f_equal. lia.
  - destruct (Z.eqb_spec c 0x20); [subst; reflexivity|].
    destruct (Z.eqb_spec c 0x2D); [subst; reflexivity|].
    destruct (Z.eqb_spec c 0x2E); [subst; reflexivity | discriminate].
  - destruct (Z.eqb_spec c 0x20); [subst; reflexivity|].
    destruct (Z.eqb_spec c 0x2D); [subst; reflexivity|].
    destruct (Z.eqb_spec c 0x2E); [subst; reflexivity | discriminate].
  - destruct (Z.eqb_spec c 0x20); [subst; reflexivity|].
    destruct (Z.eqb_spec c 0x2D); [subst; reflexivity|].
    destruct (Z.eqb_spec c 0x2E); [subst; reflexivity | discriminate].
Qed.

(** One byte of BCD_PLUS: the two characters come back. *)
Lemma bcd_pair_roundtrip (a b : Z) :
  bcd_supported a = true -> bcd_supported b = true ->
  exists t,
    bitstruct.pack [4; 4]%positive bitstruct.MSB_first
                   [VInt (bcd_code a); VInt (bcd_code b)] = Ok [t]
    /\ forall val,
         StringField.deser_bcd_plus (t :: val)
         = (rest <- StringField.deser_bcd_plus val ;; Ok ([a; b] ++ rest)).
Proof.
  intros Ha Hb.
  destruct (pack_nibbles_ok _ _ (bcd_code_range _ Ha) (bcd_code_range _ Hb))
    as (tmp & Hp & Hl & Hu).
  destruct tmp as [|t [|]]; try discriminate.
  exists t. split; [exact Hp|]. intros val.
  cbn [StringField.deser_bcd_plus]. rewrite Hu.
  cbn [bind StringField.map_result].
  rewrite !bcdplus_lookup_rev_code by assumption. reflexivity.
Qed.

Lemma bcd_roundtrip : forall (s : str) (acc res : bytes),
  StringField.ser_bcd_plus_loop
    (_grouper 2 (map char_item s) (VStr [0x20])) acc = Ok res ->
  exists enc,
    res = acc ++ enc
    /\ StringField.deser_bcd_plus enc = Ok (pad_to 2 s).
Proof.
  induction s as [|a|a b s IH] using list_ind_2; intros acc res H.
  - injection H as <-. exists []. rewrite app_nil_r. split; reflexivity.
  - cbn [map] in H. rewrite _grouper_short in H by (simpl; lia).
    cbn [StringField.ser_bcd_plus_loop app length Nat.sub repeat
         StringField.map_result] in H.
    unfold char_item in H. rewrite !bcdplus_lookup_char in H.
    destruct (bcd_supported a) eqn:Ea; [|discriminate].
    change (bcd_supported 32) with true in H. cbn [bind map] in H.
    destruct (bcd_pair_roundtrip a 0x20 Ea eq_refl) as (t & Hp & Hd).
    change (bcd_code 32) with (bcd_code 0x20) in H.
    rewrite Hp in H. cbn [bind StringField.ser_bcd_plus_loop] in H.
    injection H as <-. exists [t]. split; [reflexivity|].
    rewrite Hd. reflexivity.
  - cbn [map] in H.
    change (char_item a :: char_item b :: map char_item s)
      with ([char_item a; char_item b] ++ map char_item s) in H.
    rewrite (_grouper_chunk 2 [char_item a; char_item b]) in H by (simpl; lia).
    cbn [StringField.ser_bcd_plus_loop StringField.map_result] in H.
    unfold char_item at 1 2 in H. rewrite !bcdplus_lookup_char in H.
    destruct (bcd_supported a) eqn:Ea; [|discriminate].
    destruct (bcd_supported b) eqn:Eb; [|discriminate].
    cbn [bind map] in H.
    destruct (bcd_pair_roundtrip a b Ea Eb) as (t & Hp & Hd).
    rewrite Hp in H. cbn [bind] in H.
    destruct (IH _ _ H) as (enc & -> & Henc).
    exists (t :: enc). rewrite <- app_assoc. split; [reflexivity|].
    rewrite Hd, Henc. cbn [bind].
    change (a :: b :: s) with ([a; b] ++ s).
    rewrite pad_to_chunk by reflexivity. reflexivity.
Qed.

(** One chunk of ASCII_6BIT: the three bytes packed from four characters
    give the four codes back. *)
Lemma chunk_6bit_roundtrip (x0 x1 x2 x3 : Z) :
  forallb is_6bit_char [x0; x1; x2; x3] = true ->
  exists t0 t1 t2,
    rule_6bit_chunk [x0; x1; x2; x3] = [t2; t1; t0]
    /\ is_byte t0 /\ is_byte t1 /\ is_byte t2
    /\ bitstruct.unpack [6; 6; 6; 6]%positive bitstruct.MSB_first [t0; t1; t2]
       = Ok [x3 - 0x20; x2 - 0x20; x1 - 0x20; x0 - 0x20].
Proof.
  intros Hc.
  destruct (pack_unpack [6; 6; 6; 6]%positive bitstruct.MSB_first
                        [x3 - 0x20; x2 - 0x20; x1 - 0x20; x0 - 0x20])
    as (bs & Hp & Hl & Hu).
  - cbn [forallb] in Hc. rewrite <- !code_in_range in Hc.
    rewrite !andb_true_iff in Hc.
    destruct Hc as ([H0 H0'] & [H1 H1'] & [H2 H2'] & [H3 H3'] & _).
    repeat constructor; unfold in_range; change (2 ^ Z.pos 6) with 64; lia.
  - reflexivity.
  - pose proof (pack_is_bytes _ _ _ _ Hp) as Hb.
    cbn [map] in Hp. rewrite pack_u6x4 in Hp.
    match type of Hp with (if ?c then _ else _) = _ => destruct c end;
      [|discriminate].
    injection Hp as Hp.
    assert (Hr : rule_6bit_chunk [x0; x1; x2; x3] = rev bs)
      by (rewrite <- Hp; reflexivity).
    clear Hp.
    change (bitstruct.calcsize [6; 6; 6; 6]%positive / 8) with 3 in Hl.
    destruct bs as [|t0 [|t1 [|t2 [|]]]]; try (cbn [length] in Hl; lia).
    inversion Hb as [|? ? Hb0 Hb']; subst.
    inversion Hb' as [|? ? Hb1 Hb'']; subst.
    inversion Hb'' as [|? ? Hb2 _]; subst.
    exists t0, t1, t2.
    split; [exact Hr|]. split; [exact Hb0|]. split; [exact Hb1|].
    split; [exact Hb2 | exact Hu].
Qed.

Lemma deser_6bit_loop_chunk (x0 x1 x2 x3 : Z) (enc : bytes) (acc : bytes) :
  forallb is_6bit_char [x0; x1; x2; x3] = true ->
  StringField.deser_6bit_loop
    (_grouper 3 (map VInt (rule_6bit_chunk [x0; x1; x2; x3] ++ enc)) (VStr [0x20]))
    acc
  = StringField.deser_6bit_loop
      (_grouper 3 (map VInt enc) (VStr [0x20])) (acc ++ [x0; x1; x2; x3]).
Proof.
  intros Hc.
  destruct (chunk_6bit_roundtrip x0 x1 x2 x3 Hc)
    as (t0 & t1 & t2 & -> & Hb0 & Hb1 & Hb2 & Hu).
  cbn [map app].
  change (VInt t2 :: VInt t1 :: VInt t0 :: map VInt enc)
    with ([VInt t2; VInt t1; VInt t0] ++ map VInt enc).
  rewrite _grouper_chunk by (simpl; lia).
  cbn [StringField.deser_6bit_loop rev app StringField.py_bytearray].
  unfold is_byte in Hb0, Hb1, Hb2.
  destruct (Z.leb_spec 0 t0), (Z.ltb_spec t0 256); try lia.
  destruct (Z.leb_spec 0 t1), (Z.ltb_spec t1 256); try lia.
  destruct (Z.leb_spec 0 t2), (Z.ltb_spec t2 256); try lia.
  cbn [andb bind]. rewrite Hu. cbn [bind rev app map].
  replace (x0 - 32 + 32) with x0 by lia. replace (x1 - 32 + 32) with x1 by lia.
  replace (x2 - 32 + 32) with x2 by lia. replace (x3 - 32 + 32) with x3 by lia.
  reflexivity.
Qed.

Lemma sixbit_roundtrip : forall (u : str) (acc : bytes),
  forallb is_6bit_char u = true ->
  StringField.deser_6bit_loop
    (_grouper 3 (map VInt (flat_map rule_6bit_chunk (_grouper 4 u 0x20)))
              (VStr [0x20])) acc
  = Ok (acc ++ pad_to 4 u).
Proof.
  induction u as [|a|a b|a b c|a b c d u IH] using list_ind_4; intros acc Hu.
  - cbn. rewrite app_nil_r. reflexivity.
  - rewrite (_grouper_short 4) by (simpl; lia).
    cbn [length Nat.sub repeat app flat_map].
    rewrite deser_6bit_loop_chunk
      by (cbn [forallb] in *;
          repeat (apply andb_true_iff in Hu; destruct Hu as [? Hu]);
          repeat first [assumption | reflexivity | apply andb_true_iff; split]).
    reflexivity.
  - rewrite (_grouper_short 4) by (simpl; lia).
    cbn [length Nat.sub repeat app flat_map].
    rewrite deser_6bit_loop_chunk
      by (cbn [forallb] in *;
          repeat (apply andb_true_iff in Hu; destruct Hu as [? Hu]);
          repeat first [assumption | reflexivity | apply andb_true_iff; split]).
    reflexivity.
  - rewrite (_grouper_short 4) by (simpl; lia).
    cbn [length Nat.sub repeat app flat_map].
    rewrite deser_6bit_loop_chunk
      by (cbn [forallb] in *;
          repeat (apply andb_true_iff in Hu; destruct Hu as [? Hu]);
          repeat first [assumption | reflexivity | apply andb_true_iff; split]).
    reflexivity.
  - change (a :: b :: c :: d :: u) with ([a; b; c; d] ++ u) in *.
    rewrite forallb_app in Hu. apply andb_true_iff in Hu. destruct Hu as [H4 Hu].
    rewrite (_grouper_chunk 4) by (simpl; lia). cbn [flat_map].
    rewrite deser_6bit_loop_chunk by exact H4.
    rewrite IH by exact Hu.
    rewrite pad_to_chunk by reflexivity. rewrite app_assoc. reflexivity.
Qed.

Lemma pad_to_ascii (n : nat) (u : str) :
  forallb is_6bit_char u = true -> Forall (fun x => 0 <= x < 0x80) (pad_to n u).
Proof.
  intros H. unfold pad_to. apply Forall_app. split.
  - rewrite forallb_forall in H. apply Forall_forall. intros x Hx.
    specialize (H x Hx). unfold is_6bit_char in H.
    apply andb_true_iff in H. lia.
  - apply Forall_forall. intros x Hx. apply repeat_spec in Hx. subst. lia.
Qed.

Lemma take_app_exact {A} (a b : list A) : take (Z.of_nat (length a)) (a ++ b) = a.
Proof.
  rewrite <- (Z.add_0_l (Z.of_nat (length a))), take_app_length by lia.
  unfold take. cbn [Z.to_nat firstn]. apply app_nil_r.
Qed.

Lemma drop_app_exact {A} (a b : list A) : drop (Z.of_nat (length a)) (a ++ b) = b.
Proof.
  rewrite <- (Z.add_0_l (Z.of_nat (length a))), drop_app_length by lia.
  reflexivity.
Qed.

(** The values [pack] has accepted were in range. *)
Lemma pack_any_in_range order fmt : forall zs acc b,
  length zs = length fmt ->
  bitstruct.pack_any order fmt (map VInt zs) acc = Ok b ->
  Forall2 in_range fmt zs.
Proof.
  induction fmt as [|size fmt IH]; intros zs acc b Hl H.
  - destruct zs; [constructor | discriminate].
  - destruct zs as [|z zs]; [discriminate|].
    cbn [map bitstruct.pack_any] in H. unfold bitstruct.pack_value in H.
    rewrite uint_pack_int in H.
    destruct (Z.leb_spec 0 z), (Z.ltb_spec z (2 ^ Z.pos size));
      try discriminate.
    cbn [andb bind] in H.
    constructor; [split; assumption|].
    destruct order; eapply IH; try eassumption; cbn [length] in Hl; lia.
Qed.

Lemma pack_roundtrip fmt order zs bs :
  length zs = length fmt ->
  bitstruct.calcsize fmt mod 8 = 0 ->
  bitstruct.pack fmt order (map VInt zs) = Ok bs ->
  Z.of_nat (length bs) = bitstruct.calcsize fmt / 8
  /\ bitstruct.unpack fmt order bs = Ok zs.
Proof.
  intros Hl Hal Hp.
  assert (Hr : Forall2 in_range fmt zs).
  { unfold bitstruct.pack in Hp.
    destruct (_ <? _)%nat; [discriminate|].
    destruct (bitstruct.pack_any order fmt (map VInt zs) []) as [b|] eqn:Eb;
      [|discriminate].
    eapply pack_any_in_range; eassumption. }
  destruct (pack_unpack fmt order zs Hr Hal) as (bs' & Hp' & Hl' & Hu').
  rewrite Hp in Hp'. injection Hp' as <-. split; assumption.
Qed.

(** A [StringField] that holds a string and serializes: deserializing the
    bytes, with whatever follows them, stores the decoded form of the
    string and returns what follows. *)
Lemma StringField_roundtrip (f g : StringField.t) (s : str) (bs rest : bytes) :
  StringField.value f = VStr s ->
  Forall is_code_point s ->
  StringField.serialize f = Ok bs ->
  StringField.deserialize (bs ++ rest) g
  = (Ok rest,
     StringField.mk (StringField.format f)
                    (VStr (decoded_text (StringField.format f) s))).
Proof.
  destruct f as [fmt v]. cbn [StringField.value StringField.format].
  intros -> Hs H. unfold StringField.serialize in H.
  cbn [StringField.value StringField.format] in H.
  destruct (StringField.ser_fn fmt (VStr s)) as [payload|] eqn:Ep;
    [|discriminate].
  cbn [bind] in H.
  destruct (StringField.ser_type_length _ payload) as [header|] eqn:Eh;
    [|discriminate].
  cbn [bind] in H. injection H as <-.
  unfold StringField.ser_type_length in Eh. cbn [StringField.format] in Eh.
  destruct (pack_roundtrip [2; 6]%positive bitstruct.MSB_first
              [StringField.fmt_value fmt; Z.of_nat (length payload)] header
              eq_refl eq_refl Eh) as [Hl Hu].
  change (bitstruct.calcsize [2; 6]%positive / 8) with 1 in Hl.
  destruct header as [|h [|]]; try (cbn [length] in Hl; lia).
  unfold StringField.deserialize.
  cbn [app]. change (take 1 (h :: payload ++ rest)) with [h].
  rewrite Hu.
  replace (StringField.fmt_of_int (StringField.fmt_value fmt)) with (Ok fmt)
    by (destruct fmt; reflexivity).
  change (drop 1 (h :: payload ++ rest)) with (payload ++ rest).
  rewrite take_app_exact, drop_app_exact.
  assert (Hd : StringField.deser_fn fmt payload = Ok (decoded_text fmt s)).
  { destruct fmt; cbn [StringField.ser_fn StringField.deser_fn decoded_text] in *.
    - apply utf8_decode_encode; assumption.
    - unfold StringField.ser_bcd_plus in Ep. cbn [StringField.py_iter bind] in Ep.
      change (map (fun c => VStr [c]) s) with (map char_item s) in Ep.
      destruct (bcd_roundtrip _ _ _ Ep) as (enc & -> & Henc). exact Henc.
    - rewrite ser_6bit_follows_rule_aux in Ep.
      destruct (forallb is_6bit_char (upper s)) eqn:Eu; [|discriminate].
      injection Ep as <-. unfold StringField.deser_6bit, rule_6bit.
      rewrite sixbit_roundtrip by exact Eu. cbn [bind app].
      apply utf8_decode_ascii, pad_to_ascii, Eu.
    - apply utf8_decode_encode; assumption. }
  rewrite Hd. reflexivity.
Qed.

(** ** Fields and records: what is serialized is deserialized again *)

Lemma ints_of (vs : list pyval) :
  forallb is_int vs = true -> exists zs, vs = map VInt zs.
Proof.
  induction vs as [|v vs IH]; intros H; [exists []; reflexivity|].
  cbn [forallb] in H. apply andb_true_iff in H. destruct H as [Hv Hvs].
  destruct (IH Hvs) as [zs ->]. destruct v; try discriminate.
  exists (z :: zs). reflexivity.
Qed.

Lemma FixedField_roundtrip (f : FixedField.t) (bs rest : bytes) :
  fixed_shape_ok f = true ->
  FixedField.serialize f = Ok bs ->
  FixedField.deserialize (bs ++ rest) f = (Ok rest, f).
Proof.
  destruct f as [fmt v]. unfold fixed_shape_ok, FixedField.serialize.
  cbn [FixedField.format FixedField.value].
  intros Hs Hp. apply andb_true_iff in Hs. destruct Hs as [Hal Hs].
  apply Z.eqb_eq in Hal.
  unfold FixedField.deserialize, FixedField.size.
  cbn [FixedField.format FixedField.value].
  rewrite Hal. cbn [Z.eqb negb].
  destruct fmt as [|w [|w2 fmt]]; [discriminate| |].
  - destruct v; try discriminate.
    destruct (pack_roundtrip [w] bitstruct.LSB_first [z] bs eq_refl Hal Hp)
      as [Hl Hu].
    rewrite <- Hl, take_app_exact, drop_app_exact, Hu. reflexivity.
  - destruct v; try discriminate.
    apply andb_true_iff in Hs. destruct Hs as [Hlen Hints].
    apply Nat.eqb_eq in Hlen. destruct (ints_of _ Hints) as [zs ->].
    rewrite length_map in Hlen.
    destruct (pack_roundtrip (w :: w2 :: fmt) bitstruct.LSB_first zs bs Hlen Hal Hp)
      as [Hl Hu].
    rewrite <- Hl, take_app_exact, drop_app_exact, Hu.
    rewrite Hlen. reflexivity.
Qed.

Lemma is_code_pointb_spec (s : str) :
  forallb is_code_pointb s = true -> Forall is_code_point s.
Proof.
  intros H. apply Forall_forall. intros x Hx.
  rewrite forallb_forall in H. specialize (H x Hx).
  unfold is_code_pointb in H. apply andb_true_iff in H.
  unfold is_code_point. lia.
Qed.

Lemma field_roundtrip (v : Field) (bs rest : bytes) :
  field_ok v = true ->
  FruArea.field_serialize v = Ok bs ->
  FruArea.field_deserialize (bs ++ rest) v = (Ok rest, decoded_field v).
Proof.
  destruct v as [f|f]; cbn [field_ok FruArea.field_serialize
                             FruArea.field_deserialize decoded_field].
  - intros Hs Hp. rewrite (FixedField_roundtrip f bs rest Hs Hp). reflexivity.
  - unfold text_shape_ok. intros Hs Hp.
    destruct (StringField.value f) as [| |s| |] eqn:Ev; try discriminate.
    rewrite (StringField_roundtrip f f s bs rest Ev (is_code_pointb_spec _ Hs) Hp).
    reflexivity.
Qed.

Lemma values_roundtrip (d : FruArea.odict) : forall parts rest,
  forallb (fun kv => field_ok (snd kv)) d = true ->
  FruArea.for_values FruArea.field_serialize d = Ok parts ->
  FruArea.deserialize_values d (concat parts ++ rest)
  = (Ok rest, map (fun kv => (fst kv, decoded_field (snd kv))) d).
Proof.
  unfold FruArea.for_values.
  induction d as [|[k v] d IH]; intros parts rest Hok Hp.
  - injection Hp as <-. reflexivity.
  - cbn [forallb snd] in Hok. apply andb_true_iff in Hok.
    destruct Hok as [Hv Hd].
    cbn [StringField.map_result snd] in Hp.
    destruct (FruArea.field_serialize v) as [bs|] eqn:Ev; [|discriminate].
    cbn [bind] in Hp.
    destruct (StringField.map_result _ d) as [ps|] eqn:Ed; [|discriminate].
    cbn [bind] in Hp. injection Hp as <-.
    cbn [concat FruArea.deserialize_values map fst snd].
    rewrite <- app_assoc, (field_roundtrip v bs _ Hv Ev).
    rewrite (IH ps rest Hd eq_refl). reflexivity.
Qed.

Lemma od_get_absent (d : FruArea.odict) (key : string) :
  ~ In key (map fst d) -> FruArea.od_get d key = None.
Proof.
  induction d as [|[k v] d IH]; intros H; [reflexivity|].
  cbn [FruArea.od_get]. destruct (String.eqb_spec k key) as [->|Hne].
  - exfalso. apply H. left. reflexivity.
  - apply IH. intros Hin. apply H. right. exact Hin.
Qed.

Lemma od_get_present (d : FruArea.odict) (key : string) :
  In key (map fst d) -> exists v, FruArea.od_get d key = Some v.
Proof.
  induction d as [|[k v] d IH]; intros H; [contradiction|].
  cbn [FruArea.od_get]. destruct (String.eqb_spec k key) as [->|Hne]; [eauto|].
  destruct H as [H|H]; [contradiction | exact (IH H)].
Qed.

Lemma od_get_put_other (d : FruArea.odict) (key k : string) (v : Field) :
  k <> key -> FruArea.od_get (FruArea.od_put d key v) k = FruArea.od_get d k.
Proof.
  intros Hne. induction d as [|[k0 v0] d IH]; cbn [FruArea.od_put FruArea.od_get].
  - destruct (String.eqb_spec key k); [congruence | reflexivity].
  - destruct (String.eqb_spec k0 key) as [->|Hk]; cbn [FruArea.od_get].
    + destruct (String.eqb_spec key k); [congruence | reflexivity].
    + rewrite IH. reflexivity.
Qed.

Lemma entry_ok_without_area_length (d : FruArea.odict) :
  FruArea.od_get d "area_length" = None ->
  forallb entry_ok d = true ->
  forallb (fun kv => field_ok (snd kv)) d = true.
Proof.
  induction d as [|[k v] d IH]; intros Hg Hok; [reflexivity|].
  cbn [FruArea.od_get] in Hg. cbn [forallb] in *.
  apply andb_true_iff in Hok. destruct Hok as [Hv Hd].
  unfold entry_ok in Hv. cbn [fst snd] in *.
  destruct (String.eqb k "area_length"); [discriminate|].
  rewrite Hv. exact (IH Hg Hd).
Qed.

Lemma put_area_length_ok (d : FruArea.odict) (m : Z) : forall f,
  NoDup (map fst d) ->
  forallb entry_ok d = true ->
  FruArea.od_get d "area_length" = Some f ->
  forallb (fun kv => field_ok (snd kv))
          (FruArea.od_put d "area_length" (FruArea.field_assign f (VInt m)))
  = true
  /\ exists g, FruArea.field_assign f (VInt m) = Fixed g.
Proof.
  induction d as [|[k v] d IH]; intros f Hnd Hok Hg; [discriminate|].
  cbn [FruArea.od_get] in Hg. cbn [FruArea.od_put]. cbn [forallb] in Hok.
  apply andb_true_iff in Hok. destruct Hok as [Hv Hd].
  cbn [map fst] in Hnd. inversion Hnd as [|? ? Hnotin Hnd']; subst.
  unfold entry_ok in Hv. cbn [fst snd] in Hv.
  destruct (String.eqb_spec k "area_length") as [->|Hne].
  - injection Hg as <-. destruct v as [f0|f0]; [|discriminate].
    apply andb_true_iff in Hv. destruct Hv as [Hal Hfmt].
    split; [|eexists; reflexivity].
    cbn [forallb snd FruArea.field_assign field_ok].
    unfold fixed_shape_ok. cbn [FixedField.format FixedField.value].
    rewrite Hal.
    destruct (FixedField.format f0) as [|w [|]]; try discriminate.
    cbn [andb].
    apply entry_ok_without_area_length; [|exact Hd].
    apply od_get_absent. exact Hnotin.
  - destruct (IH f Hnd' Hd Hg) as [Hput Hfix].
    split; [|exact Hfix]. cbn [forallb snd]. rewrite Hv. exact Hput.
Qed.

(** What [serialize] returns for a valid record, and the state it leaves. *)
Lemma serialize_inv (self self1 : FruArea.t) (bs : bytes) :
  valid_record self ->
  FruArea.serialize self = (Ok bs, self1) ->
  exists p parts,
    FixedField.serialize (FruArea._format_version self1) = Ok p
    /\ FruArea.for_values FruArea.field_serialize (FruArea._dict self1) = Ok parts
    /\ bs = (p ++ concat parts) ++ FruArea._epilogue (p ++ concat parts)
    /\ settled self1
    /\ FruArea._format_version self1 = FruArea._format_version self
    /\ (forall k, k <> "area_length"%string ->
                  FruArea.od_get (FruArea._dict self1) k
                  = FruArea.od_get (FruArea._dict self) k).
Proof.
  intros (Hfmt & Hfv & Hok & Hnd) H.
  unfold FruArea.serialize, mbind, pure_call in H.
  unfold FruArea._prologue in H.
  destruct (FixedField.serialize (FruArea._format_version self)) as [p|] eqn:Ep;
    [|discriminate].
  destruct (FruArea.od_contains (FruArea._dict self) "area_length") eqn:Ec.
  - destruct (FruArea.size_total self) as [n|] eqn:En; [|discriminate].
    pose proof (size_total_aligned _ _ En) as Hal.
    unfold FruArea.__setitem__ in H. cbn [String.eqb Ascii.eqb Bool.eqb] in H.
    unfold FruArea._set_area_length, FruArea._set in H.
    rewrite Hal in H. cbn [Z.eqb negb] in H.
    unfold FruArea.od_contains in Ec.
    destruct (FruArea.od_get (FruArea._dict self) "area_length") as [f|] eqn:Eg;
      [|discriminate].
    cbn [FruArea._dict] in H.
    destruct (FruArea.for_values FruArea.field_serialize _) as [parts|] eqn:Eparts;
      [|discriminate].
    injection H as <- <-. exists p, parts.
    cbn [FruArea._format_version FruArea._dict].
    destruct (put_area_length_ok _ (n / 8) f Hnd Hok Eg) as [Hput [g Hg]].
    repeat split; try assumption; try reflexivity.
    + intros v Hv. cbn [FruArea._dict] in Hv.
      rewrite od_get_put_same in Hv. injection Hv as <-. eauto.
    + intros k Hk. apply od_get_put_other. exact Hk.
  - destruct (FruArea.for_values FruArea.field_serialize _) as [parts|] eqn:Eparts;
      [|discriminate].
    injection H as <- <-. exists p, parts.
    unfold FruArea.od_contains in Ec.
    destruct (FruArea.od_get (FruArea._dict self) "area_length") eqn:Eg;
      [discriminate|].
    repeat split; try assumption; try reflexivity.
    + apply entry_ok_without_area_length; assumption.
    + intros v Hv. congruence.
Qed.

(** Deserializing what a valid record has serialized. *)
Lemma deserialize_serialized (self self1 : FruArea.t) (bs : bytes) :
  valid_record self ->
  FruArea.serialize self = (Ok bs, self1) ->
  FruArea.deserialize bs self1 = (Ok [], decoded self1).
Proof.
  intros Hv H.
  destruct (serialize_inv _ _ _ Hv H)
    as (p & parts & Hp & Hparts & -> & (Hfmt & Hfv & Hok & _) & _).
  assert (Hw : FruArea.deserialize_walk
                 ((p ++ concat parts) ++ FruArea._epilogue (p ++ concat parts))
                 self1
               = (Ok (FruArea._epilogue (p ++ concat parts)), decoded self1)).
  { unfold FruArea.deserialize_walk.
    rewrite <- !app_assoc.
    rewrite (FixedField_roundtrip _ p _ Hfv Hp).
    rewrite (values_roundtrip _ parts _ Hok Hparts). reflexivity. }
  unfold FruArea.deserialize, mbind. rewrite Hw.
  rewrite drop_last_app by apply _epilogue_not_nil.
  rewrite firstn_all, skipn_all.
  destruct (list_eq_dec Z.eq_dec _ _) as [_|Hne]; [reflexivity|].
  exfalso. apply Hne. reflexivity.
Qed.

(** ** Snapshots before and after *)

Lemma od_get_decoded (d : FruArea.odict) (k : string) :
  FruArea.od_get (map (fun kv => (fst kv, decoded_field (snd kv))) d) k
  = option_map decoded_field (FruArea.od_get d k).
Proof.
  induction d as [|[k0 v0] d IH]; [reflexivity|].
  cbn [map FruArea.od_get fst snd]. destruct (String.eqb k0 k); [reflexivity|].
  exact IH.
Qed.

Lemma fixed_value_cases (f : FixedField.t) :
  fixed_shape_ok f = true ->
  (exists z, FixedField.value f = VInt z)
  \/ (exists vs, FixedField.value f = VTuple vs
                 /\ length vs = length (FixedField.format f)
                 /\ (2 <= length vs)%nat).
Proof.
  unfold fixed_shape_ok. intros H. apply andb_true_iff in H. destruct H as [_ H].
  destruct (FixedField.format f) as [|w [|w2 fmt]]; [discriminate| |].
  - destruct (FixedField.value f); try discriminate. left. eauto.
  - destruct (FixedField.value f) as [| | |vs|]; try discriminate. right.
    apply andb_true_iff in H. destruct H as [Hl _]. apply Nat.eqb_eq in Hl.
    exists vs. rewrite Hl. cbn [length]. repeat split. lia.
Qed.

Lemma _get_decoded (self : FruArea.t) (k : string) (v : Field) :
  settled self ->
  FruArea.od_get (FruArea._dict self) k = Some v ->
  exists x y,
    FruArea._get k self = Ok x
    /\ FruArea._get k (decoded self) = Ok y
    /\ (match v with Fixed _ => y = x | Text _ => same_modulo_decoding x y end)
    /\ (match v with Fixed _ => exists r, py_mul8 x = Ok r | Text _ => True end).
Proof.
  intros (_ & _ & Hok & _) Hg. unfold FruArea._get, decoded.
  cbn [FruArea._dict]. rewrite od_get_decoded, Hg. cbn [option_map].
  assert (Hv : field_ok v = true).
  { rewrite forallb_forall in Hok.
    clear - Hok Hg. revert Hg.
    induction (FruArea._dict self) as [|[k0 v0] d IH]; [discriminate|].
    cbn [FruArea.od_get]. destruct (String.eqb k0 k).
    - intros H. injection H as <-. apply (Hok (k0, v0)). left. reflexivity.
    - intros H. apply IH; [|exact H]. intros x Hx. apply Hok. right. exact Hx. }
  destruct v as [f|f]; cbn [field_ok decoded_field FruArea.field_value] in *.
  - destruct (fixed_value_cases f Hv) as [[z ->]|(vs & -> & _)].
    + do 2 eexists. repeat split. eexists. reflexivity.
    + do 2 eexists. repeat split. eexists. reflexivity.
  - unfold text_shape_ok in Hv.
    destruct (StringField.value f) as [| |s| |] eqn:Ev; try discriminate.
    cbn [FruArea.field_value StringField.value].
    do 2 eexists. split; [reflexivity|]. split; [reflexivity|].
    split; [|exact I].
    destruct (StringField.format f); cbn [decoded_text].
    + left. reflexivity.
    + right. exists s. split; [reflexivity|]. left. reflexivity.
    + right. exists s. split; [reflexivity|]. right. reflexivity.
    + left. reflexivity.
Qed.

Lemma __getitem___decoded (self : FruArea.t) (k : string) (v : Field) :
  settled self ->
  FruArea.od_get (FruArea._dict self) k = Some v ->
  exists x y,
    FruArea.__getitem__ k self = Ok x
    /\ FruArea.__getitem__ k (decoded self) = Ok y
    /\ same_modulo_decoding x y.
Proof.
  intros Hs Hg. pose proof Hs as (Hfmt & Hfv & _ & Hal).
  unfold FruArea.__getitem__.
  destruct (String.eqb_spec k "area_length") as [->|Hk1].
  - destruct (Hal v Hg) as [f ->].
    destruct (_get_decoded self _ _ Hs Hg) as (x & y & Hx & Hy & -> & [r Hr]).
    unfold FruArea._get_area_length. rewrite Hx, Hy. cbn [bind].
    rewrite Hr. exists r, r. repeat split. left. reflexivity.
  - destruct (String.eqb_spec k "format_version") as [->|Hk2].
    + unfold FruArea._get_format_version, decoded.
      cbn [FruArea._format_version].
      destruct (fixed_value_cases _ Hfv) as [[z Hz]|(vs & Hvs & Hl & _)].
      * exfalso. unfold fixed_shape_ok in Hfv. rewrite Hfmt, Hz in Hfv.
        discriminate.
      * rewrite Hvs. rewrite Hfmt in Hl.
        destruct vs as [|v0 [|v1 vs]]; try discriminate.
        cbn [nth_error]. exists v1, v1. repeat split. left. reflexivity.
    + destruct (_get_decoded self _ _ Hs Hg) as (x & y & Hx & Hy & Hr & _).
      exists x, y. repeat split; try assumption.
      destruct v; [subst; left; reflexivity | exact Hr].
Qed.

Lemma to_dict_keys_decoded (self : FruArea.t) (keys : list string) :
  settled self ->
  (forall k, In k keys -> In k (map fst (FruArea._dict self))) ->
  exists before after,
    FruArea.to_dict_keys keys self = Ok before
    /\ FruArea.to_dict_keys keys (decoded self) = Ok after
    /\ snapshots_agree same_modulo_decoding before after.
Proof.
  intros Hs. induction keys as [|k keys IH]; intros Hin.
  - exists [], []. repeat split. constructor.
  - destruct (od_get_present _ k (Hin k (or_introl eq_refl))) as [v Hg].
    destruct (__getitem___decoded self k v Hs Hg) as (x & y & Hx & Hy & Hr).
    destruct (IH (fun k' H => Hin k' (or_intror H)))
      as (before & after & Hb & Ha & Hrel).
    exists ((k, x) :: before), ((k, y) :: after).
    cbn [FruArea.to_dict_keys]. rewrite Hx, Hy, Hb, Ha. cbn [bind].
    repeat split. constructor; [split; [reflexivity | exact Hr] | exact Hrel].
Qed.

Lemma to_dict_decoded (self : FruArea.t) :
  settled self ->
  exists before after,
    FruArea.to_dict self = Ok before
    /\ FruArea.to_dict (decoded self) = Ok after
    /\ snapshots_agree same_modulo_decoding before after.
Proof.
  intros Hs. unfold FruArea.to_dict.
  replace (map fst (FruArea._dict (decoded self)))
    with (map fst (FruArea._dict self)).
  - apply to_dict_keys_decoded; [exact Hs | auto].
  - unfold decoded. cbn [FruArea._dict]. rewrite map_map. reflexivity.
Qed.

(** C1 as the spec states it fails twice.  [ipmi] under ASCII_6BIT comes
    back as [IPMI], which is not [ipmi] followed by pad spaces; and
    [area_length], read as 0 before, reads 8 afterwards, as [serialize]
    assigns it. *)
Lemma roundtrip_counterexample :
  (exists before bs self1 self2 after,
      FruArea.to_dict lower_case_record = Ok before
      /\ FruArea.serialize lower_case_record = (Ok bs, self1)
      /\ FruArea.deserialize bs self1 = (Ok [], self2)
      /\ FruArea.to_dict self2 = Ok after
      /\ before = [("name"%string, VStr (str_of "ipmi"))]
      /\ after = [("name"%string, VStr (str_of "IPMI"))]
      /\ ~ snapshots_agree same_modulo_padding before after)
  /\ (exists before bs self1 self2 after,
         FruArea.to_dict stale_length_record = Ok before
         /\ FruArea.serialize stale_length_record = (Ok bs, self1)
         /\ FruArea.deserialize bs self1 = (Ok [], self2)
         /\ FruArea.to_dict self2 = Ok after
         /\ before = [("area_length"%string, VInt 0)]
         /\ after = [("area_length"%string, VInt 8)]
         /\ ~ snapshots_agree same_modulo_padding before after).
Proof.
  split.
  - do 5 eexists.
    split; [vm_compute; reflexivity|]. split; [vm_compute; reflexivity|].
    split; [vm_compute; reflexivity|]. split; [vm_compute; reflexivity|].
    split; [reflexivity|]. split; [reflexivity|].
    intros H. inversion H as [|? ? ? ? [_ Hr] _]; subst.
    cbn [snd] in Hr. destruct Hr as [Hr|(s & k & Hs & Hr)]; [discriminate|].
    injection Hs as <-. discriminate.
  - do 5 eexists.
    split; [vm_compute; reflexivity|]. split; [vm_compute; reflexivity|].
    split; [vm_compute; reflexivity|]. split; [vm_compute; reflexivity|].
    split; [reflexivity|]. split; [reflexivity|].
    intros H. inversion H as [|? ? ? ? [_ Hr] _]; subst.
    cbn [snd] in Hr. destruct Hr as [Hr|(s & k & Hs & Hr)]; discriminate.
Qed.

(** C1, amended.  For any record built from a valid schema with valid
    field values, when [serialize] returns, deserializing the bytes it
    returned consumes them all and leaves the record in a state whose
    [to_dict()] equals the [to_dict()] snapshot taken after [serialize]
    (which assigns [area_length] and nothing else), modulo the decoded
    form of the string encodings: a BCD_PLUS value comes back padded with
    a space to an even length, an ASCII_6BIT value comes back upper-cased
    and padded with spaces to a multiple of 4 characters. *)
Theorem roundtrip_modulo_decoding (self self1 : FruArea.t) (bs : bytes) :
  valid_record self ->
  FruArea.serialize self = (Ok bs, self1) ->
  FruArea.deserialize bs self1 = (Ok [], decoded self1)
  /\ (exists before after,
         FruArea.to_dict self1 = Ok before
         /\ FruArea.to_dict (decoded self1) = Ok after
         /\ snapshots_agree same_modulo_decoding before after)
  /\ (forall k, k <> "area_length"%string ->
                FruArea.__getitem__ k self1 = FruArea.__getitem__ k self).
Proof.
  intros Hv H. split; [exact (deserialize_serialized _ _ _ Hv H)|].
  destruct (serialize_inv _ _ _ Hv H)
    as (p & parts & _ & _ & _ & Hs & Hfv & Hget).
  split; [exact (to_dict_decoded self1 Hs)|].
  intros k Hk. unfold FruArea.__getitem__.
  destruct (String.eqb_spec k "area_length"); [contradiction|].
  unfold FruArea._get_format_version, FruArea._get.
  rewrite Hfv, (Hget k Hk). reflexivity.
Qed.

Lemma roundtrip_modulo_decoding_witness :
  let self1 := snd (FruArea.serialize demo_record) in
  let bs := [1; 2; 131; 41; 220; 166; 66; 18; 58; 18; 0; 0; 0; 0; 0; 47] in
  FruArea.deserialize bs self1 = (Ok [], decoded self1)
  /\ (exists before after,
         FruArea.to_dict self1 = Ok before
         /\ FruArea.to_dict (decoded self1) = Ok after
         /\ snapshots_agree same_modulo_decoding before after)
  /\ (forall k, k <> "area_length"%string ->
                FruArea.__getitem__ k self1 = FruArea.__getitem__ k demo_record).
Proof.
  apply (roundtrip_modulo_decoding demo_record
           (snd (FruArea.serialize demo_record))
           [1; 2; 131; 41; 220; 166; 66; 18; 58; 18; 0; 0; 0; 0; 0; 47]).
  - split; [reflexivity|]. split; [reflexivity|]. split; [reflexivity|].
    repeat constructor; cbn; intuition discriminate.
  - vm_compute. reflexivity.
Defined.

(* ================================================================== *)
(** * Further properties of the helpers and of [FixedField]            *)
(* ================================================================== *)

(** X1.  For a positive alignment, [_sizeAlign] returns a number of
    padding bytes below the alignment and, as total, the least multiple
    of the alignment that is not below [size]. *)
Theorem _sizeAlign_least_multiple (size alignment : Z) :
  0 < alignment ->
  0 <= fst (_sizeAlign size alignment) < alignment
  /\ snd (_sizeAlign size alignment) = size + fst (_sizeAlign size alignment)
  /\ snd (_sizeAlign size alignment) mod alignment = 0
  /\ forall m, size <= m -> m mod alignment = 0 ->
               snd (_sizeAlign size alignment) <= m.
Proof.
  intros Ha.
  pose proof (_sizeAlign_total size alignment Ha) as Ht.
  unfold _sizeAlign in *. cbn [fst snd] in *.
  pose proof (Z.mod_pos_bound (- size) alignment Ha) as Hp.
  split; [exact Hp|]. split; [reflexivity|]. split; [exact Ht|].
  intros m Hm Hmod.
  apply Z.mod_divide in Hmod; [|lia]. destruct Hmod as [q Hq].
  apply Z.mod_divide in Ht; [|lia]. destruct Ht as [t Ht].
  destruct (Z.le_gt_cases (size + (- size) mod alignment) m) as [Hle|Hgt];
    [exact Hle|].
  exfalso.
  assert (q < t) by nia.
  assert ((q + 1) * alignment <= t * alignment)
    by (apply Z.mul_le_mono_nonneg_r; lia).
  lia.
Qed.

Lemma _sizeAlign_least_multiple_witness :
  0 <= fst (_sizeAlign 13 8) < 8
  /\ snd (_sizeAlign 13 8) = 13 + fst (_sizeAlign 13 8)
  /\ snd (_sizeAlign 13 8) mod 8 = 0
  /\ forall m, 13 <= m -> m mod 8 = 0 -> snd (_sizeAlign 13 8) <= m.
Proof. apply (_sizeAlign_least_multiple 13 8). lia. Defined.

Lemma _grouper_chunks_bounded {A} (n : nat) (pad : A) (m : nat) :
  (0 < n)%nat ->
  forall l, (length l <= m)%nat ->
    Forall (fun c => length c = n) (_grouper n l pad)
    /\ exists k, (k < n)%nat
                 /\ concat (_grouper n l pad) = l ++ repeat pad k
                 /\ (length (_grouper n l pad) * n = length l + k)%nat.
Proof.
  intros Hn. induction m as [|m IH]; intros l Hl.
  - destruct l; [|simpl in Hl; lia].
    split; [constructor|]. exists 0%nat. repeat split. exact Hn.
  - destruct l as [|x l].
    { split; [constructor|]. exists 0%nat. repeat split. exact Hn. }
    rewrite _grouper_step by (exact Hn || discriminate).
    destruct (Nat.le_gt_cases n (length (x :: l))) as [Hge|Hlt].
    + assert (Hc : length (firstn n (x :: l)) = n)
        by (rewrite length_firstn; lia).
      rewrite Hc, Nat.sub_diag. cbn [repeat]. rewrite app_nil_r.
      destruct (IH (skipn n (x :: l))) as (Hall & k & Hk & Hcat & Hcnt).
      { rewrite length_skipn. cbn [length] in *. lia. }
      split; [constructor; assumption|].
      exists k. split; [exact Hk|]. split.
      * cbn [concat]. rewrite Hcat, app_assoc, firstn_skipn. reflexivity.
      * rewrite length_skipn in Hcnt. cbn [length] in *. lia.
    + rewrite firstn_all2, skipn_all2 by lia. rewrite _grouper_nil.
      split.
      * constructor; [|constructor]. rewrite length_app, repeat_length. lia.
      * exists (n - length (x :: l))%nat. cbn [length] in *.
        split; [lia|]. split; [cbn [concat]; apply app_nil_r|].
        cbn [length]. lia.
Qed.

(** X2.  For a positive [n], every chunk [_grouper] draws has [n] items,
    and the chunks, one after the other, are the iterable followed by
    fewer than [n] pad values. *)
Theorem _grouper_chunks {A} (n : nat) (l : list A) (pad : A) :
  (0 < n)%nat ->
  Forall (fun c => length c = n) (_grouper n l pad)
  /\ exists k, (k < n)%nat
               /\ concat (_grouper n l pad) = l ++ repeat pad k
               /\ (length (_grouper n l pad) * n = length l + k)%nat.
Proof.
  intros Hn. apply (_grouper_chunks_bounded n pad (length l) Hn). lia.
Qed.

Lemma _grouper_chunks_witness :
  Forall (fun c => length c = 3%nat) (_grouper 3 [1; 2; 3; 4; 5; 6; 7] 0)
  /\ exists k, (k < 3)%nat
               /\ concat (_grouper 3 [1; 2; 3; 4; 5; 6; 7] 0)
                  = [1; 2; 3; 4; 5; 6; 7] ++ repeat 0 k
               /\ (length (_grouper 3 [1; 2; 3; 4; 5; 6; 7] 0) * 3
                   = length [1; 2; 3; 4; 5; 6; 7] + k)%nat.
Proof. apply (_grouper_chunks 3 [1; 2; 3; 4; 5; 6; 7] 0). lia. Defined.

Lemma uint_pack_length size arg vb :
  bitstruct.uint_pack size arg = Ok vb -> length vb = Pos.to_nat size.
Proof.
  unfold bitstruct.uint_pack. destruct (py_int arg) as [v|]; [|discriminate].
  cbn [bind]. destruct (_ || _); [discriminate|].
  intros H. injection H as <-. apply length_to_bits.
Qed.

Lemma pack_value_length order size arg acc b :
  bitstruct.pack_value order size arg acc = Ok b ->
  length b = (length acc + Pos.to_nat size)%nat.
Proof.
  unfold bitstruct.pack_value.
  destruct (bitstruct.uint_pack size arg) as [vb|] eqn:E; [|discriminate].
  cbn [bind]. apply uint_pack_length in E.
  destruct order; intros H; injection H as <-.
  - rewrite length_app. lia.
  - rewrite length_pack_lsb_loop. lia.
Qed.

Lemma pack_any_length order fmt : forall args acc b,
  bitstruct.pack_any order fmt args acc = Ok b ->
  Z.of_nat (length b) = Z.of_nat (length acc) + bitstruct.calcsize fmt.
Proof.
  induction fmt as [|size fmt IH]; intros args acc b H.
  - injection H as <-. cbn. lia.
  - cbn [bitstruct.pack_any] in H. destruct args as [|arg args]; [discriminate|].
    destruct (bitstruct.pack_value order size arg acc) as [acc'|] eqn:E;
      [|discriminate].
    cbn [bind] in H. apply pack_value_length in E. apply IH in H.
    rewrite H, E, calcsize_cons. lia.
Qed.

Lemma pack_length fmt order args bs :
  bitstruct.pack fmt order args = Ok bs ->
  bitstruct.calcsize fmt mod 8 = 0 ->
  Z.of_nat (length bs) = bitstruct.calcsize fmt / 8.
Proof.
  unfold bitstruct.pack. destruct (_ <? _)%nat; [discriminate|].
  destruct (bitstruct.pack_any order fmt args []) as [b|] eqn:E; [|discriminate].
  cbn [bind]. intros H Hal. injection H as <-.
  apply pack_any_length in E. cbn [length] in E.
  rewrite pad_last_byte_aligned by (rewrite E; exact Hal).
  pose proof (calcsize_nonneg fmt).
  pose proof (Z.div_mod (bitstruct.calcsize fmt) 8 ltac:(lia)).
  rewrite (length_bytes_of_bits (Z.to_nat (bitstruct.calcsize fmt / 8))) by lia.
  lia.
Qed.

Lemma FixedField_size_serialize (f : FixedField.t) (bs : bytes) (n : Z) :
  FixedField.serialize f = Ok bs ->
  FixedField.size f = Ok n ->
  Z.of_nat (length bs) = n.
Proof.
  unfold FixedField.serialize, FixedField.size. intros Hs Hn.
  destruct (Z.eqb_spec (bitstruct.calcsize (FixedField.format f) mod 8) 0)
    as [Hal|]; [|discriminate].
  cbn [negb] in Hn. injection Hn as <-.
  destruct (FixedField.value f); eapply pack_length; eassumption.
Qed.

(** X3.  Whatever a [FixedField] holds, when [serialize] and [size] both
    return, [serialize] has returned exactly [size()] bytes. *)
Theorem FixedField_size_is_serialized_length
        (f : FixedField.t) (bs : bytes) (n : Z) :
  FixedField.serialize f = Ok bs ->
  FixedField.size f = Ok n ->
  Z.of_nat (length bs) = n.
Proof. apply FixedField_size_serialize. Qed.

Lemma FixedField_size_is_serialized_length_witness :
  Z.of_nat (length [0x56; 0x34; 0x12]) = 3.
Proof.
  apply (FixedField_size_is_serialized_length
           (FixedField.mk [24%positive] (VInt 0x123456))).
  - vm_compute. reflexivity.
  - vm_compute. reflexivity.
Defined.

(** X4.  A [FixedField] is self-delimiting: the bytes a valid field has
    serialized, followed by any other bytes, deserialize into any field
    of the same format as the value they came from, and what follows
    them is returned untouched. *)
Theorem FixedField_serialize_then_deserialize
        (f g : FixedField.t) (bs rest : bytes) :
  fixed_shape_ok f = true ->
  FixedField.format g = FixedField.format f ->
  FixedField.serialize f = Ok bs ->
  FixedField.deserialize (bs ++ rest) g = (Ok rest, f).
Proof.
  intros Hs Hfmt Hp.
  apply (FixedField_deserialize_overwrites _ f g); [congruence|].
  apply FixedField_roundtrip; assumption.
Qed.

Lemma FixedField_serialize_then_deserialize_witness :
  FixedField.deserialize ([0xAD; 0xBC] ++ [7; 7])
                         (FixedField.mk [4; 12]%positive VNone)
  = (Ok [7; 7], FixedField.mk [4; 12]%positive (VTuple [VInt 0xA; VInt 0xBCD])).
Proof.
  apply (FixedField_serialize_then_deserialize
           (FixedField.mk [4; 12]%positive (VTuple [VInt 0xA; VInt 0xBCD]))).
  - reflexivity.
  - reflexivity.
  - vm_compute. reflexivity.
Defined.

(** X5.  [FixedField.deserialize] raises and leaves the field as it was:
    [RuntimeError] when the bit widths do not add up to whole bytes,
    [bitstruct.Error] when the input has fewer bytes than [size()], and
    [IndexError] when the format has no group at all. *)
Theorem FixedField_deserialize_refuses :
  (forall input self,
      bitstruct.calcsize (FixedField.format self) mod 8 <> 0 ->
      FixedField.deserialize input self
      = (Err (RuntimeError not_byte_aligned), self))
  /\ (forall input self,
         bitstruct.calcsize (FixedField.format self) mod 8 = 0 ->
         Z.of_nat (length input) < bitstruct.calcsize (FixedField.format self) / 8 ->
         FixedField.deserialize input self = (Err bitstruct_Error, self))
  /\ (forall input self,
         FixedField.format self = [] ->
         FixedField.deserialize input self = (Err IndexError, self)).
Proof.
  split; [|split].
  - intros input self Hal. unfold FixedField.deserialize, FixedField.size.
    destruct (Z.eqb_spec (bitstruct.calcsize (FixedField.format self) mod 8) 0);
      [contradiction | reflexivity].
  - intros input self Hal Hlt. unfold FixedField.deserialize, FixedField.size.
    rewrite Hal. cbn [Z.eqb negb]. unfold bitstruct.unpack.
    rewrite length_bits_of_bytes.
    rewrite take_all by lia.
    pose proof (Z.div_mod (bitstruct.calcsize (FixedField.format self)) 8
                          ltac:(lia)) as Hd.
    destruct (Z.ltb_spec (Z.of_nat (8 * length input))
                         (bitstruct.calcsize (FixedField.format self)));
      [reflexivity | lia].
  - intros input [fmt v] Hfmt. cbn [FixedField.format] in Hfmt. subst fmt.
    reflexivity.
Qed.

Lemma FixedField_deserialize_refuses_witness :
  FixedField.deserialize [1; 2] (FixedField.mk [4%positive] VNone)
  = (Err (RuntimeError not_byte_aligned), FixedField.mk [4%positive] VNone)
  /\ FixedField.deserialize [1; 2] (FixedField.mk [24%positive] VNone)
     = (Err bitstruct_Error, FixedField.mk [24%positive] VNone)
  /\ FixedField.deserialize [1; 2] (FixedField.mk [] VNone)
     = (Err IndexError, FixedField.mk [] VNone).
Proof.
  split; [|split].
  - apply (proj1 FixedField_deserialize_refuses). discriminate.
  - apply (proj1 (proj2 FixedField_deserialize_refuses)).
    + reflexivity.
    + reflexivity.
  - apply (proj2 (proj2 FixedField_deserialize_refuses)). reflexivity.
Defined.

Lemma bytes_of_lsb_emit (k : nat) : forall v,
  bitstruct.bytes_of_bits
    (lsb_emit (8 * Z.of_nat (S k) - 8) (bitstruct.to_bits (8 * S k) v))
  = le_bytes (S k) v.
Proof.
  induction k as [|k IH]; intros v.
  - rewrite lsb_emit_stop by lia.
    rewrite <- (app_nil_r (bitstruct.to_bits (8 * 1) v)).
    rewrite bytes_of_bits_app8 by apply length_to_bits.
    rewrite of_bits_to_bits. reflexivity.
  - rewrite lsb_emit_step by lia.
    replace (8 * S (S k))%nat with (8 * S k + 8)%nat by lia.
    rewrite (Z.div_mod v 256) at 1 2 by lia.
    rewrite (Z.mul_comm 256).
    change 256 with (2 ^ Z.of_nat 8) at 1 3.
    rewrite <- !to_bits_app by (apply Z.mod_pos_bound; lia).
    replace (8 * Z.of_nat (S (S k)) - 8)
      with (Z.of_nat (length (bitstruct.to_bits (8 * S k) (v / 2 ^ Z.of_nat 8))))
      by (rewrite length_to_bits; lia).
    rewrite drop_app_exact, take_app_exact.
    rewrite bytes_of_bits_app8 by apply length_to_bits.
    rewrite of_bits_to_bits, Z.mod_mod by (cbv; discriminate).
    rewrite length_to_bits.
    replace (Z.of_nat (8 * S k) - 8) with (8 * Z.of_nat (S k) - 8) by lia.
    rewrite IH. reflexivity.
Qed.

(** X6.  A [FixedField] of one group of [8 * k] bits serializes a value
    in range least significant byte first: byte [i] of the result is
    [value // 256 ** i % 256]. *)
Theorem FixedField_serialize_little_endian (k : nat) (w : positive) (v : Z) :
  Z.pos w = 8 * Z.of_nat k ->
  0 <= v < 2 ^ Z.pos w ->
  FixedField.serialize (FixedField.mk [w] (VInt v)) = Ok (le_bytes k v).
Proof.
  intros Hw Hv. destruct k as [|k]; [lia|].
  unfold FixedField.serialize.
  cbn [FixedField.value FixedField.format].
  unfold bitstruct.pack. cbn [length Nat.ltb Nat.leb bitstruct.pack_any].
  unfold bitstruct.pack_value.
  rewrite (uint_pack_ok w v) by exact Hv. cbn [bind length].
  rewrite length_to_bits.
  replace (Pos.to_nat w) with (8 * S k)%nat by lia.
  change (Z.of_nat 0 mod 8) with 0.
  replace (Z.of_nat (8 * S k) - (8 - 0)) with (8 * Z.of_nat (S k) - 8) by lia.
  replace (bitstruct.pack_lsb_loop _ _ _ _)
    with (lsb_emit (8 * Z.of_nat (S k) - 8) (bitstruct.to_bits (8 * S k) v))
    by (unfold lsb_emit; apply pack_lsb_loop_fuel; lia).
  rewrite pad_last_byte_aligned
    by (rewrite length_lsb_emit, length_to_bits, Nat2Z.inj_mul,
          Z.mul_comm; apply Z_mod_mult).
  rewrite bytes_of_lsb_emit. reflexivity.
Qed.

Lemma FixedField_serialize_little_endian_witness :
  FixedField.serialize (FixedField.mk [24%positive] (VInt 0x123456))
  = Ok (le_bytes 3 0x123456).
Proof.
  apply (FixedField_serialize_little_endian 3 24 0x123456).
  - reflexivity.
  - split; [discriminate | reflexivity].
Defined.

(* ================================================================== *)
(** * [cli.dict_set]                                                   *)
(* ================================================================== *)

Lemma get_put_same entries key v :
  cli.get (cli.put entries key v) key = Some v.
Proof.
  induction entries as [|[k v0] entries IH]; cbn [cli.put cli.get].
  - rewrite String.eqb_refl. reflexivity.
  - destruct (String.eqb k key) eqn:E; cbn [cli.get]; rewrite E;
      [reflexivity | exact IH].
Qed.

Lemma get_put_other entries key key' v :
  key <> key' ->
  cli.get (cli.put entries key v) key' = cli.get entries key'.
Proof.
  intros Hne. induction entries as [|[k v0] entries IH]; cbn [cli.put cli.get].
  - destruct (String.eqb_spec key key'); [contradiction | reflexivity].
  - destruct (String.eqb_spec k key) as [->|Hk]; cbn [cli.get].
    + destruct (String.eqb_spec key key'); [contradiction | reflexivity].
    + rewrite IH. reflexivity.
Qed.

Lemma put_get_id entries key c :
  cli.get entries key = Some c -> cli.put entries key c = entries.
Proof.
  induction entries as [|[k v0] entries IH]; cbn [cli.put cli.get];
    [discriminate|].
  destruct (String.eqb k key); intros H.
  - injection H as ->. reflexivity.
  - rewrite IH by exact H. reflexivity.
Qed.

Lemma put_put entries key a b :
  cli.put (cli.put entries key a) key b = cli.put entries key b.
Proof.
  induction entries as [|[k v0] entries IH]; cbn [cli.put].
  - rewrite String.eqb_refl. reflexivity.
  - destruct (String.eqb k key) eqn:E; cbn [cli.put]; rewrite E;
      [reflexivity | rewrite IH; reflexivity].
Qed.

(** The recursive call of [dict_set], on the child it finds or creates. *)
Lemma dict_set_step entries key k2 rest item :
  cli.dict_set (cli.Dict entries) (key :: k2 :: rest) item
  = let child := match cli.get entries key with
                 | Some c => c
                 | None => cli.Dict []
                 end in
    let entries' := if cli.contains entries key then entries
                    else cli.put entries key (cli.Dict []) in
    (fst (cli.dict_set child (k2 :: rest) item),
     cli.Dict (cli.put entries' key
                       (snd (cli.dict_set child (k2 :: rest) item)))).
Proof.
  change (cli.dict_set (cli.Dict entries) (key :: k2 :: rest) item)
    with (let entries0 := if cli.contains entries key then entries
                          else cli.put entries key (cli.Dict []) in
          match cli.get entries0 key with
          | Some child =>
              let (r, child') := cli.dict_set child (k2 :: rest) item in
              (r, cli.Dict (cli.put entries0 key child'))
          | None => (Err KeyError, cli.Dict entries0)
          end).
  cbv zeta. unfold cli.contains.
  destruct (cli.get entries key) as [c|] eqn:E.
  - rewrite E. destruct (cli.dict_set c (k2 :: rest) item). reflexivity.
  - rewrite get_put_same.
    destruct (cli.dict_set (cli.Dict []) (k2 :: rest) item). reflexivity.
Qed.

Lemma dict_set_leaf v keys item :
  keys <> [] ->
  cli.dict_set (cli.Leaf v) keys item = (Err TypeError, cli.Leaf v).
Proof.
  destruct keys as [|key [|k2 rest]]; [contradiction | reflexivity..].
Qed.

Lemma not_blocked_dict_nil keys : ~ blocked (cli.Dict []) keys.
Proof.
  intros (p & q & v & _ & _ & Hp). destruct p; discriminate.
Qed.

Lemma blocked_child entries key c keys :
  cli.get entries key = Some c ->
  keys <> [] ->
  (blocked (cli.Dict entries) (key :: keys) <-> blocked c keys).
Proof.
  intros Hget Hks. split.
  - intros (p & q & v & Hk & Hq & Hp). destruct p as [|k p]; [discriminate|].
    cbn [app] in Hk. injection Hk as <- ->.
    cbn [get_path] in Hp. rewrite Hget in Hp.
    exists p, q, v. auto.
  - intros (p & q & v & -> & Hq & Hp).
    exists (key :: p), q, v. cbn [get_path]. rewrite Hget. auto.
Qed.

Lemma not_blocked_absent entries key keys :
  cli.get entries key = None -> ~ blocked (cli.Dict entries) (key :: keys).
Proof.
  intros Hget (p & q & v & Hk & Hq & Hp). destruct p as [|k p]; [discriminate|].
  cbn [app] in Hk. injection Hk as <- ->.
  cbn [get_path] in Hp. rewrite Hget in Hp. discriminate.
Qed.

(** X7.  After [dict_set(d, keys, item)] has returned, [d[k1][k2]...[kn]]
    is [item]. *)
Theorem dict_set_then_lookup (keys : list string) :
  forall (d d' item : cli.node),
    cli.dict_set d keys item = (Ok tt, d') ->
    get_path d' keys = Some item.
Proof.
  induction keys as [|key keys IH]; intros d d' item H; [discriminate|].
  destruct keys as [|k2 rest].
  - destruct d as [v|entries]; [discriminate|].
    cbn [cli.dict_set] in H. injection H as <-.
    cbn [get_path]. rewrite get_put_same. reflexivity.
  - destruct d as [v|entries]; [discriminate|].
    rewrite dict_set_step in H. cbv zeta in H.
    destruct (cli.dict_set _ (k2 :: rest) item) as [r c'] eqn:E.
    cbn [fst snd] in H. injection H as -> <-.
    cbn [get_path]. rewrite get_put_same.
    exact (IH _ _ _ E).
Qed.

Lemma dict_set_then_lookup_witness :
  get_path
    (cli.Dict [("BoardInfo"%string,
                cli.Dict [("serial"%string, cli.Leaf (VStr [49]))]);
               ("ChassisInfo"%string,
                cli.Dict [("type"%string, cli.Leaf (VInt 2))])])
    ["ChassisInfo"%string; "type"%string]
  = Some (cli.Leaf (VInt 2)).
Proof.
  apply (dict_set_then_lookup
           ["ChassisInfo"%string; "type"%string]
           (cli.Dict [("BoardInfo"%string,
                       cli.Dict [("serial"%string, cli.Leaf (VStr [49]))])])).
  reflexivity.
Defined.

(** X8.  For at least one key, [dict_set] raises exactly when a proper
    prefix of the keys leads to a value that is not a dict; it then
    raises [TypeError] and has changed nothing.  Otherwise it returns,
    creating the dicts that are missing on the way. *)
Theorem dict_set_raises_exactly_when_blocked (keys : list string) :
  forall (d item : cli.node),
    keys <> [] ->
    (blocked d keys /\ cli.dict_set d keys item = (Err TypeError, d))
    \/ (~ blocked d keys /\ exists d', cli.dict_set d keys item = (Ok tt, d')).
Proof.
  induction keys as [|key keys IH]; intros d item Hne; [contradiction|].
  destruct d as [v|entries].
  { left. split; [|apply dict_set_leaf; exact Hne].
    exists [], (key :: keys), v. auto. }
  destruct keys as [|k2 rest].
  - right. split; [|eexists; reflexivity].
    intros (p & q & v & Hk & Hq & Hp).
    destruct p as [|k p]; [discriminate|].
    destruct p; [|discriminate]. destruct q; [contradiction | discriminate].
  - rewrite dict_set_step. cbv zeta.
    destruct (cli.get entries key) as [c|] eqn:Hget.
    + unfold cli.contains. rewrite Hget.
      destruct (IH c item ltac:(discriminate)) as [[Hb Hs]|[Hb [c' Hs]]].
      * left. split; [apply (blocked_child _ _ c); [assumption|discriminate|assumption]|].
        rewrite Hs. cbn [fst snd]. rewrite put_get_id by exact Hget.
        reflexivity.
      * right. split.
        -- intros Hbl. apply Hb.
           apply (blocked_child entries key c); [assumption|discriminate|assumption].
        -- rewrite Hs. cbn [fst snd]. eexists. reflexivity.
    + right. split; [apply not_blocked_absent; exact Hget|].
      destruct (IH (cli.Dict []) item ltac:(discriminate)) as [[Hb _]|[_ [c' Hs]]].
      * exfalso. exact (not_blocked_dict_nil _ Hb).
      * rewrite Hs. cbn [fst snd]. eexists. reflexivity.
Qed.

Lemma dict_set_raises_exactly_when_blocked_witness :
  (blocked (cli.Dict [("a"%string, cli.Leaf (VInt 1))]) ["a"%string; "b"%string]
   /\ cli.dict_set (cli.Dict [("a"%string, cli.Leaf (VInt 1))])
                   ["a"%string; "b"%string] (cli.Leaf (VInt 2))
      = (Err TypeError, cli.Dict [("a"%string, cli.Leaf (VInt 1))]))
  \/ (~ blocked (cli.Dict [("a"%string, cli.Leaf (VInt 1))])
        ["a"%string; "b"%string]
      /\ exists d',
           cli.dict_set (cli.Dict [("a"%string, cli.Leaf (VInt 1))])
                        ["a"%string; "b"%string] (cli.Leaf (VInt 2))
           = (Ok tt, d')).
Proof.
  apply (dict_set_raises_exactly_when_blocked ["a"%string; "b"%string]).
  discriminate.
Defined.

(** X9.  [dict_set] changes nothing off its path: a lookup along keys
    that part from [keys] at some position gives after the call, whether
    it has returned or raised, what it gave before. *)
Theorem dict_set_frame (path keys : list string) (d item : cli.node) :
  diverge path keys ->
  get_path (snd (cli.dict_set d keys item)) path = get_path d path.
Proof.
  intros (p & k1 & k2 & r1 & r2 & -> & -> & Hne).
  revert d. induction p as [|a p IH]; intros d.
  - cbn [app]. destruct d as [v|entries].
    { rewrite dict_set_leaf by discriminate. reflexivity. }
    destruct r2 as [|k r].
    + cbn [cli.dict_set snd get_path].
      rewrite get_put_other by congruence. reflexivity.
    + rewrite dict_set_step. cbv zeta. cbn [snd get_path].
      rewrite get_put_other by congruence.
      destruct (cli.contains entries k2); [reflexivity|].
      rewrite get_put_other by congruence. reflexivity.
  - cbn [app]. destruct d as [v|entries].
    { rewrite dict_set_leaf by discriminate. reflexivity. }
    destruct (p ++ k2 :: r2) as [|k r] eqn:E; [destruct p; discriminate|].
    rewrite dict_set_step. cbv zeta. cbn [snd get_path].
    rewrite get_put_same. rewrite IH.
    destruct (cli.get entries a) as [c|]; [reflexivity|].
    destruct p; reflexivity.
Qed.

Lemma dict_set_frame_witness :
  get_path
    (snd (cli.dict_set
            (cli.Dict [("a"%string,
                        cli.Dict [("b"%string, cli.Leaf (VInt 1))])])
            ["a"%string; "c"%string] (cli.Leaf (VInt 2))))
    ["a"%string; "b"%string]
  = get_path
      (cli.Dict [("a"%string, cli.Dict [("b"%string, cli.Leaf (VInt 1))])])
      ["a"%string; "b"%string].
Proof.
  apply (dict_set_frame ["a"%string; "b"%string] ["a"%string; "c"%string]).
  exists ["a"%string], "b"%string, "c"%string, [], [].
  repeat split. discriminate.
Defined.

(** X10.  A second [dict_set] on the same keys overrides the first: the
    dict is then as if only the second had been made. *)
Theorem dict_set_last_wins (keys : list string) :
  forall (d d1 item1 item2 : cli.node),
    cli.dict_set d keys item1 = (Ok tt, d1) ->
    cli.dict_set d1 keys item2 = cli.dict_set d keys item2.
Proof.
  induction keys as [|key keys IH]; intros d d1 item1 item2 H; [discriminate|].
  destruct d as [v|entries]; [rewrite dict_set_leaf in H; discriminate|].
  destruct keys as [|k2 rest].
  - cbn [cli.dict_set] in *. injection H as <-. rewrite put_put. reflexivity.
  - rewrite dict_set_step in H. cbv zeta in H.
    destruct (cli.dict_set _ (k2 :: rest) item1) as [r c'] eqn:E.
    cbn [fst snd] in H. injection H as -> <-.
    rewrite !dict_set_step. cbv zeta.
    replace (cli.contains (cli.put _ key c') key) with true
      by (unfold cli.contains; rewrite get_put_same; reflexivity).
    rewrite get_put_same, put_put.
    rewrite (IH _ _ item1 item2 E). reflexivity.
Qed.

Lemma dict_set_last_wins_witness :
  cli.dict_set
    (cli.Dict [("a"%string, cli.Dict [("b"%string, cli.Leaf (VInt 1))])])
    ["a"%string; "b"%string] (cli.Leaf (VInt 2))
  = cli.dict_set (cli.Dict []) ["a"%string; "b"%string] (cli.Leaf (VInt 2)).
Proof.
  apply (dict_set_last_wins ["a"%string; "b"%string] (cli.Dict []) _
                            (cli.Leaf (VInt 1))).
  reflexivity.
Defined.

(* ================================================================== *)
(** * Further properties of [StringField]                              *)
(* ================================================================== *)

Lemma bytes_of_to_bits_8 (x : Z) :
  bitstruct.bytes_of_bits (bitstruct.to_bits 8 x) = [x mod 256].
Proof.
  rewrite <- (app_nil_r (bitstruct.to_bits 8 x)).
  rewrite bytes_of_bits_app8 by apply length_to_bits.
  rewrite of_bits_to_bits. reflexivity.
Qed.

(** The type/length byte. *)
Lemma pack_u2u6 (a b : Z) :
  0 <= a < 4 -> 0 <= b < 64 ->
  bitstruct.pack [2; 6]%positive bitstruct.MSB_first [VInt a; VInt b]
  = Ok [a * 64 + b].
Proof.
  intros Ha Hb. unfold bitstruct.pack.
  cbn [length Nat.ltb Nat.leb bitstruct.pack_any]. unfold bitstruct.pack_value.
  rewrite !uint_pack_ok by (unfold in_range; simpl; lia).
  cbn [bind app]. change (Pos.to_nat 2) with 2%nat.
  change (Pos.to_nat 6) with 6%nat.
  rewrite (to_bits_app 2 6 a b) by (change (Z.of_nat 6) with 6; lia).
  rewrite pad_last_byte_aligned by (rewrite length_to_bits; reflexivity).
  change (2 + 6)%nat with 8%nat. rewrite bytes_of_to_bits_8.
  change (2 ^ Z.of_nat 6) with 64. rewrite Z.mod_small by lia. reflexivity.
Qed.

Lemma fmt_value_range (fmt : StringFmt) : 0 <= StringField.fmt_value fmt < 4.
Proof. destruct fmt; cbn; lia. Qed.

Lemma ser_type_length_long (self : StringField.t) (payload : bytes) :
  63 < Z.of_nat (length payload) ->
  StringField.ser_type_length self payload = Err bitstruct_Error.
Proof.
  intros Hlen. unfold StringField.ser_type_length, bitstruct.pack.
  cbn [length Nat.ltb Nat.leb bitstruct.pack_any]. unfold bitstruct.pack_value.
  pose proof (fmt_value_range (StringField.format self)).
  rewrite uint_pack_ok by (unfold in_range; simpl; lia).
  cbn [bind app]. rewrite uint_pack_refuses by (simpl; lia). reflexivity.
Qed.

(** X11.  What [StringField.serialize] returns starts with one
    type/length byte, [format.value * 64 + len(payload)], followed by the
    encoded payload, which has at most 63 bytes. *)
Theorem StringField_serialize_header (self : StringField.t) (bs : bytes) :
  StringField.serialize self = Ok bs ->
  exists payload,
    StringField.ser_fn (StringField.format self) (StringField.value self)
    = Ok payload
    /\ Z.of_nat (length payload) <= 63
    /\ bs = (StringField.fmt_value (StringField.format self) * 64
             + Z.of_nat (length payload)) :: payload.
Proof.
  unfold StringField.serialize. intros H.
  destruct (StringField.ser_fn _ _) as [payload|]; [|discriminate].
  cbn [bind] in H. exists payload. split; [reflexivity|].
  destruct (Z.le_gt_cases (Z.of_nat (length payload)) 63) as [Hle|Hgt].
  - split; [exact Hle|].
    unfold StringField.ser_type_length in H.
    rewrite pack_u2u6 in H by (try apply fmt_value_range; lia).
    cbn [bind app] in H. injection H as <-. reflexivity.
  - rewrite ser_type_length_long in H by lia. discriminate.
Qed.

Lemma StringField_serialize_header_witness :
  exists payload,
    StringField.ser_fn ASCII_8BIT (VStr (str_of "frugy")) = Ok payload
    /\ Z.of_nat (length payload) <= 63
    /\ 0xC5 :: str_of "frugy" = (3 * 64 + Z.of_nat (length payload)) :: payload.
Proof.
  apply (StringField_serialize_header
           (StringField.mk ASCII_8BIT (VStr (str_of "frugy")))).
  vm_compute. reflexivity.
Defined.

Lemma utf8_encode_ascii (s : str) : Forall is_ascii s -> utf8_encode s = Ok s.
Proof.
  induction 1 as [|c s Hc _ IH]; [reflexivity|].
  cbn [utf8_encode]. unfold utf8_encode_cp. unfold is_ascii in Hc.
  destruct (Z.ltb_spec c 0x80); [|lia]. cbn [bind]. rewrite IH. reflexivity.
Qed.

Lemma upper_cp_ascii (c : Z) :
  is_ascii c -> exists u, upper_cp c = [u] /\ is_ascii u.
Proof.
  unfold is_ascii, upper_cp. intros Hc.
  destruct (Z.leb_spec 0x61 c), (Z.leb_spec c 0x7A); cbn [andb];
    try (eexists; split; [reflexivity | lia]);
    repeat match goal with
           | |- context [?x =? ?y] => destruct (Z.eqb_spec x y); [lia|]
           end;
    (eexists; split; [reflexivity | lia]).
Qed.

Lemma length_upper_ascii (s : str) :
  Forall is_ascii s -> length (upper s) = length s.
Proof.
  induction 1 as [|c s Hc _ IH]; [reflexivity|].
  unfold upper in *. cbn [flat_map].
  destruct (upper_cp_ascii c Hc) as (u & -> & _).
  cbn [app length]. rewrite IH. reflexivity.
Qed.

Lemma length_ser_6bit_loop (chunks : list (list Z)) : forall acc res,
  StringField.ser_6bit_loop chunks acc = Ok res ->
  length res = (length acc + 3 * length chunks)%nat.
Proof.
  induction chunks as [|chunk chunks IH]; intros acc res H.
  - injection H as <-. cbn [length]. lia.
  - cbn [StringField.ser_6bit_loop] in H.
    destruct (bitstruct.pack _ _ _) as [tmp|] eqn:Ep; [|discriminate].
    cbn [bind] in H. apply IH in H.
    apply pack_length in Ep; [|reflexivity].
    change (bitstruct.calcsize [6; 6; 6; 6]%positive / 8) with 3 in Ep.
    rewrite H, length_app, length_rev. cbn [length]. lia.
Qed.

Lemma length_ser_bcd_plus_loop (chunks : list (list pyval)) : forall acc res,
  StringField.ser_bcd_plus_loop chunks acc = Ok res ->
  length res = (length acc + length chunks)%nat.
Proof.
  induction chunks as [|chunk chunks IH]; intros acc res H.
  - injection H as <-. cbn [length]. lia.
  - cbn [StringField.ser_bcd_plus_loop] in H.
    destruct (StringField.map_result _ chunk) as [codes|]; [|discriminate].
    cbn [bind] in H.
    destruct (bitstruct.pack _ _ _) as [tmp|] eqn:Ep; [|discriminate].
    cbn [bind] in H. apply IH in H.
    apply pack_length in Ep; [|reflexivity].
    change (bitstruct.calcsize [4; 4]%positive / 8) with 1 in Ep.
    rewrite H, length_app. cbn [length]. lia.
Qed.

(** The number of chunks [_grouper] draws is the aligned length over the
    chunk size. *)
Lemma _grouper_count {A} (n : nat) (l : list A) (pad : A) :
  (0 < n)%nat ->
  snd (_sizeAlign (Z.of_nat (length l)) (Z.of_nat n))
  = Z.of_nat (length (_grouper n l pad)) * Z.of_nat n.
Proof.
  intros Hn.
  destruct (_grouper_chunks_bounded n pad (length l) Hn l (Nat.le_refl _))
    as (_ & k & Hk & _ & Hcnt).
  unfold _sizeAlign. cbn [snd].
  assert (Hm : (- Z.of_nat (length l)) mod Z.of_nat n = Z.of_nat k).
  { symmetry.
    apply (Z.mod_unique _ _ (- Z.of_nat (length (_grouper n l pad)))); lia. }
  rewrite Hm. lia.
Qed.

Lemma StringField_size_ascii (self : StringField.t) (s : str) (bs : bytes) :
  StringField.value self = VStr s ->
  Forall is_ascii s ->
  StringField.serialize self = Ok bs ->
  StringField.size self = Ok (Z.of_nat (length bs)).
Proof.
  destruct self as [fmt v]. cbn [StringField.value]. intros -> Hs H.
  unfold StringField.serialize in H.
  cbn [StringField.format StringField.value] in H.
  destruct (StringField.ser_fn fmt (VStr s)) as [payload|] eqn:Ep;
    [|discriminate].
  cbn [bind] in H.
  destruct (StringField.ser_type_length _ payload) as [header|] eqn:Eh;
    [|discriminate].
  cbn [bind] in H. injection H as <-.
  apply pack_length in Eh; [|reflexivity].
  change (bitstruct.calcsize [2; 6]%positive / 8) with 1 in Eh.
  rewrite length_app, Nat2Z.inj_add, Eh.
  unfold StringField.size. cbn [StringField.format StringField.value].
  assert (Hn : StringField.size_fn fmt (VStr s) = Ok (Z.of_nat (length payload))).
  { destruct fmt; cbn [StringField.ser_fn StringField.size_fn] in *.
    - unfold StringField.ser_plain in Ep. rewrite utf8_encode_ascii in Ep by exact Hs.
      injection Ep as <-. reflexivity.
    - unfold StringField.ser_bcd_plus in Ep. cbn [StringField.py_iter bind] in Ep.
      apply length_ser_bcd_plus_loop in Ep. cbn [length Nat.add] in Ep.
      unfold StringField.size_bcd_plus. cbn [py_len bind].
      pose proof (_grouper_count 2 (map (fun c => VStr [c]) s) (VStr [0x20])
                                 ltac:(lia)) as Hc.
      rewrite length_map in Hc. change (Z.of_nat 2) with 2 in Hc.
      destruct (_sizeAlign (Z.of_nat (length s)) 2) as [p n].
      cbn [snd] in Hc. rewrite Hc, Z.div_mul, Ep by lia. reflexivity.
    - unfold StringField.ser_6bit in Ep.
      apply length_ser_6bit_loop in Ep. cbn [length Nat.add] in Ep.
      unfold StringField.size_6bit. cbn [py_len bind].
      pose proof (_grouper_count 4 (upper s) 0x20 ltac:(lia)) as Hc.
      rewrite length_upper_ascii in Hc by exact Hs.
      change (Z.of_nat 4) with 4 in Hc.
      destruct (_sizeAlign (Z.of_nat (length s)) 4) as [p n].
      cbn [snd] in Hc. rewrite Hc, Z.div_mul, Ep by lia. f_equal. lia.
    - unfold StringField.ser_plain in Ep. rewrite utf8_encode_ascii in Ep by exact Hs.
      injection Ep as <-. reflexivity. }
  rewrite Hn. cbn [bind]. f_equal. lia.
Qed.

(** X12.  For a value of ASCII characters, [StringField.size] is the
    number of bytes [serialize] returns, in each of the four formats. *)
Theorem StringField_size_of_ascii (self : StringField.t) (s : str) (bs : bytes) :
  StringField.value self = VStr s ->
  Forall is_ascii s ->
  StringField.serialize self = Ok bs ->
  StringField.size self = Ok (Z.of_nat (length bs)).
Proof. apply StringField_size_ascii. Qed.

Lemma StringField_size_of_ascii_witness :
  StringField.size (StringField.mk ASCII_6BIT (VStr (str_of "frugy")))
  = Ok (Z.of_nat (length [0x86; 0xA6; 0x5C; 0x9F; 0x39; 0; 0])).
Proof.
  apply (StringField_size_of_ascii
           (StringField.mk ASCII_6BIT (VStr (str_of "frugy")))
           (str_of "frugy")).
  - reflexivity.
  - repeat constructor; unfold is_ascii; lia.
  - vm_compute. reflexivity.
Defined.

(** X13.  A [StringField] is self-describing: the bytes a field holding a
    string has serialized, followed by any other bytes, deserialize into
    any other [StringField], whatever its format and value were, as the
    format of the first and the decoded form of its string, and what
    follows them is returned untouched. *)
Theorem StringField_serialize_then_deserialize
        (f g : StringField.t) (s : str) (bs rest : bytes) :
  StringField.value f = VStr s ->
  Forall is_code_point s ->
  StringField.serialize f = Ok bs ->
  StringField.deserialize (bs ++ rest) g
  = (Ok rest,
     StringField.mk (StringField.format f)
                    (VStr (decoded_text (StringField.format f) s))).
Proof. apply StringField_roundtrip. Qed.

Lemma StringField_serialize_then_deserialize_witness :
  StringField.deserialize ([0x42; 0x1B; 0x2A] ++ [9; 9])
                          (StringField.mk ASCII_6BIT VNone)
  = (Ok [9; 9],
     StringField.mk BCD_PLUS
                    (VStr (decoded_text BCD_PLUS (str_of "1-2")))).
Proof.
  apply (StringField_serialize_then_deserialize
           (StringField.mk BCD_PLUS (VStr (str_of "1-2")))).
  - reflexivity.
  - apply is_code_pointb_spec. reflexivity.
  - vm_compute. reflexivity.
Defined.

Lemma digit64 (q r : Z) :
  0 <= r < 64 -> (q * 64 + r) / 64 = q /\ (q * 64 + r) mod 64 = r.
Proof.
  intros Hr. split.
  - rewrite Z.div_add_l by lia. rewrite Z.div_small by lia. lia.
  - rewrite Z.add_comm, Z_mod_plus_full. apply Z.mod_small. exact Hr.
Qed.

Lemma unpack_u2u6 (h : Z) :
  is_byte h ->
  bitstruct.unpack [2; 6]%positive bitstruct.MSB_first [h]
  = Ok [h / 64; h mod 64].
Proof.
  intros Hh. unfold is_byte in Hh. unfold bitstruct.unpack.
  rewrite length_bits_of_bytes. cbn [length Nat.mul Nat.add].
  change (Z.of_nat 8 <? bitstruct.calcsize [2; 6]%positive) with false.
  cbv iota. f_equal.
  unfold bitstruct.bits_of_bytes. cbn [flat_map]. rewrite app_nil_r.
  pose proof (Z.mod_pos_bound h 64 ltac:(lia)) as Hm.
  assert (Hq : 0 <= h / 64 < 4).
  { split; [apply Z.div_pos; lia | apply Z.div_lt_upper_bound; lia]. }
  replace (bitstruct.to_bits 8 h)
    with (bitstruct.to_bits 2 (h / 64) ++ bitstruct.to_bits 6 (h mod 64)).
  2:{ rewrite to_bits_app by (change (Z.of_nat 6) with 6; lia).
      change (2 + 6)%nat with 8%nat. f_equal.
      change (2 ^ Z.of_nat 6) with 64.
      pose proof (Z.div_mod h 64 ltac:(lia)). lia. }
  cbn [bitstruct.unpack_any]. unfold bitstruct.unpack_value.
  change (drop 0 ?l) with l.
  change (Z.pos 2) with (0 + Z.of_nat (length (bitstruct.to_bits 2 (h / 64)))).
  rewrite Z.add_0_l at 2.
  rewrite take_app_length, drop_app_length by lia.
  change (take 0 ?l) with (@nil bool). rewrite app_nil_r.
  change (drop 0 ?l) with l.
  rewrite (take_all (Z.pos 6)) by (rewrite length_to_bits; lia).
  rewrite !of_bits_to_bits.
  change (2 ^ Z.of_nat 2) with 4. change (2 ^ Z.of_nat 6) with 64.
  rewrite Z.mod_mod, (Z.mod_small (h / 64)) by lia. reflexivity.
Qed.

Lemma fmt_of_int_top2 (h : Z) :
  is_byte h ->
  exists fmt, StringField.fmt_of_int (h / 64) = Ok fmt
              /\ StringField.fmt_value fmt = h / 64.
Proof.
  intros Hh. unfold is_byte in Hh.
  assert (Hq : 0 <= h / 64 < 4).
  { split; [apply Z.div_pos; lia | apply Z.div_lt_upper_bound; lia]. }
  unfold StringField.fmt_of_int.
  destruct (Z.eqb_spec (h / 64) 0) as [->|]; [exists BIN; auto|].
  destruct (Z.eqb_spec (h / 64) 1) as [->|]; [exists BCD_PLUS; auto|].
  destruct (Z.eqb_spec (h / 64) 2) as [->|]; [exists ASCII_6BIT; auto|].
  destruct (Z.eqb_spec (h / 64) 3) as [->|]; [exists ASCII_8BIT; auto|].
  lia.
Qed.

Lemma StringField_deserialize_cons (h : Z) (tail : bytes) (self : StringField.t) :
  is_byte h ->
  exists fmt,
    StringField.fmt_value fmt = h / 64
    /\ StringField.deserialize (h :: tail) self
       = match StringField.deser_fn fmt (take (h mod 64) tail) with
         | Ok v => (Ok (drop (h mod 64) tail), StringField.mk fmt (VStr v))
         | Err e => (Err e, StringField.mk fmt (StringField.value self))
         end.
Proof.
  intros Hh. destruct (fmt_of_int_top2 h Hh) as (fmt & Hf & Hv).
  exists fmt. split; [exact Hv|].
  unfold StringField.deserialize.
  change (take 1 (h :: tail)) with [h]. rewrite unpack_u2u6 by exact Hh.
  rewrite Hf. change (drop 1 (h :: tail)) with tail.
  destruct (StringField.deser_fn fmt _); reflexivity.
Qed.

(** X14.  [StringField.deserialize] raises [bitstruct.Error] on empty
    input and leaves the field as it was.  Otherwise it takes the format
    from the two top bits of the first byte and the payload length from
    its six low bits, and decodes that many of the bytes that follow, or
    all of them when they are fewer, which is no error.  When the payload
    does not decode, the field has the new format and its old value. *)
Theorem StringField_deserialize_header :
  (forall self,
      StringField.deserialize [] self = (Err bitstruct_Error, self))
  /\ (forall (h : Z) (tail : bytes) (self : StringField.t),
         is_byte h ->
         exists fmt,
           StringField.fmt_value fmt = h / 64
           /\ StringField.deserialize (h :: tail) self
              = match StringField.deser_fn fmt (take (h mod 64) tail) with
                | Ok v =>
                    (Ok (drop (h mod 64) tail), StringField.mk fmt (VStr v))
                | Err e =>
                    (Err e, StringField.mk fmt (StringField.value self))
                end).
Proof.
  split; [reflexivity|]. exact StringField_deserialize_cons.
Qed.

Lemma StringField_deserialize_header_witness :
  exists fmt,
    StringField.fmt_value fmt = 0xC5 / 64
    /\ StringField.deserialize (0xC5 :: str_of "fru")
                               (StringField.mk BIN VNone)
       = match StringField.deser_fn fmt (take (0xC5 mod 64) (str_of "fru")) with
         | Ok v => (Ok (drop (0xC5 mod 64) (str_of "fru")),
                    StringField.mk fmt (VStr v))
         | Err e => (Err e, StringField.mk fmt VNone)
         end.
Proof.
  apply (proj2 StringField_deserialize_header 0xC5 (str_of "fru")
               (StringField.mk BIN VNone)).
  unfold is_byte. lia.
Defined.

(** ** What is decoded is encoded again *)

Lemma utf8_encode_decode_bounded (n : nat) : forall bs s,
  (length bs <= n)%nat -> utf8_decode bs = Ok s -> utf8_encode s = Ok bs.
Proof.
  induction n as [|n IH]; intros bs s Hl H.
  - destruct bs; [|simpl in Hl; lia]. injection H as <-. reflexivity.
  - destruct bs as [|b0 r0]; [injection H as <-; reflexivity|].
    cbn [length] in Hl. cbn [utf8_decode] in H.
    destruct ((0 <=? b0) && (b0 <? 128)) eqn:E1.
    { apply andb_true_iff in E1. destruct E1 as [_ E1].
      destruct (utf8_decode r0) as [s0|] eqn:Er; [|discriminate].
      cbn [bind] in H. injection H as <-.
      cbn [utf8_encode]. unfold utf8_encode_cp. rewrite E1. cbn [bind].
      rewrite (IH r0 s0) by (lia || assumption). reflexivity. }
    destruct ((194 <=? b0) && (b0 <=? 223)) eqn:E2.
    { apply andb_true_iff in E2. destruct E2 as [E2 E2'].
      apply Z.leb_le in E2, E2'.
      destruct r0 as [|b1 r1]; [discriminate|]. cbn [length] in Hl.
      destruct (is_cont b1) eqn:C1; [|discriminate].
      unfold is_cont in C1. apply andb_true_iff in C1. destruct C1 as [C1 C1'].
      apply Z.leb_le in C1, C1'.
      destruct (utf8_decode r1) as [s0|] eqn:Er; [|discriminate].
      cbn [bind] in H. injection H as <-.
      destruct (digit64 (b0 - 192) (b1 - 128) ltac:(lia)) as [Hq Hr].
      remember ((b0 - 192) * 64 + (b1 - 128)) as c eqn:Ec.
      cbn [utf8_encode]. unfold utf8_encode_cp.
      destruct (Z.ltb_spec c 128); [lia|].
      destruct (Z.ltb_spec c 2048); [|lia].
      cbn [bind]. rewrite (IH r1 s0) by (lia || assumption). cbn [bind app].
      rewrite Hq, Hr. repeat first [lia | f_equal]. }
    destruct ((224 <=? b0) && (b0 <=? 239)) eqn:E3.
    { apply andb_true_iff in E3. destruct E3 as [E3 E3'].
      apply Z.leb_le in E3, E3'.
      destruct r0 as [|b1 [|b2 r2]]; try discriminate. cbn [length] in Hl.
      cbv zeta in H.
      remember ((b0 - 224) * 4096 + (b1 - 128) * 64 + (b2 - 128)) as c eqn:Ec.
      destruct (is_cont b1) eqn:C1; [|discriminate].
      destruct (is_cont b2) eqn:C2; [|discriminate].
      destruct (Z.leb_spec 2048 c); [|discriminate].
      destruct (is_surrogate c) eqn:Es; [discriminate|].
      cbn [andb negb] in H.
      unfold is_cont in C1, C2.
      apply andb_true_iff in C1, C2. destruct C1 as [C1 C1'], C2 as [C2 C2'].
      apply Z.leb_le in C1, C1', C2, C2'.
      destruct (utf8_decode r2) as [s0|] eqn:Er; [|discriminate].
      cbn [bind] in H. injection H as <-.
      destruct (digit64 ((b0 - 224) * 64 + (b1 - 128)) (b2 - 128) ltac:(lia))
        as [Hq Hr].
      destruct (digit64 (b0 - 224) (b1 - 128) ltac:(lia)) as [Hq2 Hr2].
      replace (((b0 - 224) * 64 + (b1 - 128)) * 64 + (b2 - 128)) with c
        in Hq, Hr by lia.
      assert (Hq3 : c / 4096 = b0 - 224).
      { change 4096 with (64 * 64). rewrite <- Z.div_div by lia.
        rewrite Hq. exact Hq2. }
      cbn [utf8_encode]. unfold utf8_encode_cp.
      destruct (Z.ltb_spec c 128); [lia|].
      destruct (Z.ltb_spec c 2048); [lia|].
      destruct (Z.ltb_spec c 65536); [|lia].
      rewrite Es.
      cbn [bind]. rewrite (IH r2 s0) by (lia || assumption). cbn [bind app].
      rewrite Hq3, Hq, Hr2, Hr. repeat first [lia | f_equal]. }
    destruct ((240 <=? b0) && (b0 <=? 244)) eqn:E4; [|discriminate].
    apply andb_true_iff in E4. destruct E4 as [E4 E4'].
    apply Z.leb_le in E4, E4'.
    destruct r0 as [|b1 [|b2 [|b3 r3]]]; try discriminate. cbn [length] in Hl.
    cbv zeta in H.
    remember ((b0 - 240) * 262144 + (b1 - 128) * 4096 + (b2 - 128) * 64
              + (b3 - 128)) as c eqn:Ec.
    destruct (is_cont b1) eqn:C1; [|discriminate].
    destruct (is_cont b2) eqn:C2; [|discriminate].
    destruct (is_cont b3) eqn:C3; [|discriminate].
    destruct (Z.leb_spec 65536 c); [|discriminate].
    destruct (Z.leb_spec c 1114111); [|discriminate].
    cbn [andb] in H.
    unfold is_cont in C1, C2, C3.
    apply andb_true_iff in C1, C2, C3.
    destruct C1 as [C1 C1'], C2 as [C2 C2'], C3 as [C3 C3'].
    apply Z.leb_le in C1, C1', C2, C2', C3, C3'.
    destruct (utf8_decode r3) as [s0|] eqn:Er; [|discriminate].
    cbn [bind] in H. injection H as <-.
    destruct (digit64 (((b0 - 240) * 64 + (b1 - 128)) * 64 + (b2 - 128))
                      (b3 - 128) ltac:(lia)) as [Hq Hr].
    destruct (digit64 ((b0 - 240) * 64 + (b1 - 128)) (b2 - 128) ltac:(lia))
      as [Hq2 Hr2].
    destruct (digit64 (b0 - 240) (b1 - 128) ltac:(lia)) as [Hq3 Hr3].
    replace ((((b0 - 240) * 64 + (b1 - 128)) * 64 + (b2 - 128)) * 64
             + (b3 - 128)) with c in Hq, Hr by lia.
    assert (Hq4 : c / 4096 = (b0 - 240) * 64 + (b1 - 128)).
    { change 4096 with (64 * 64). rewrite <- Z.div_div by lia.
      rewrite Hq. exact Hq2. }
    assert (Hq5 : c / 262144 = b0 - 240).
    { change 262144 with (4096 * 64). rewrite <- Z.div_div by lia.
      rewrite Hq4. exact Hq3. }
    cbn [utf8_encode]. unfold utf8_encode_cp.
    destruct (Z.ltb_spec c 128); [lia|].
    destruct (Z.ltb_spec c 2048); [lia|].
    destruct (Z.ltb_spec c 65536); [lia|].
    cbn [bind]. rewrite (IH r3 s0) by (lia || assumption). cbn [bind app].
    rewrite Hq5, Hq4, Hr3, Hq, Hr2, Hr. repeat first [lia | f_equal].
Qed.

Lemma utf8_encode_decode (bs : bytes) (s : str) :
  utf8_decode bs = Ok s -> utf8_encode s = Ok bs.
Proof. apply (utf8_encode_decode_bounded (length bs)). lia. Qed.

Lemma bytes_of_bits_of_bytes (bs : bytes) :
  Forall is_byte bs ->
  bitstruct.bytes_of_bits (bitstruct.bits_of_bytes bs) = bs.
Proof.
  induction 1 as [|b bs Hb _ IH]; [reflexivity|].
  unfold bitstruct.bits_of_bytes in *. cbn [flat_map].
  rewrite bytes_of_bits_app8 by apply length_to_bits.
  rewrite of_bits_to_bits, IH. unfold is_byte in Hb.
  change (2 ^ Z.of_nat 8) with 256. rewrite Z.mod_small by lia. reflexivity.
Qed.

Lemma take_add {A} (a b : Z) (l : list A) :
  0 <= a -> 0 <= b -> take (a + b) l = take a l ++ take b (drop a l).
Proof.
  intros Ha Hb. unfold take, drop. rewrite Z2Nat.inj_add by lia.
  generalize (Z.to_nat a) as n. intros n. revert l.
  induction n as [|n IH]; intros l; [reflexivity|].
  destruct l as [|x l]; cbn [Nat.add firstn skipn app].
  - rewrite firstn_nil. reflexivity.
  - rewrite IH. reflexivity.
Qed.

Lemma drop_add {A} (a b : Z) (l : list A) :
  0 <= a -> 0 <= b -> drop (a + b) l = drop b (drop a l).
Proof.
  intros Ha Hb. unfold drop. rewrite Z2Nat.inj_add by lia.
  generalize (Z.to_nat a) as n. intros n. revert l.
  induction n as [|n IH]; intros l; [reflexivity|].
  destruct l as [|x l]; cbn [Nat.add skipn].
  - rewrite skipn_nil. reflexivity.
  - apply IH.
Qed.

(** Most significant bit first: packing the values unpacked from a bit
    string gives its bits back. *)
Lemma pack_any_unpack_any (fmt : list positive) : forall (B acc : bitstruct.bits) (off : Z),
  0 <= off ->
  off + bitstruct.calcsize fmt <= Z.of_nat (length B) ->
  bitstruct.pack_any bitstruct.MSB_first fmt
    (map VInt (bitstruct.unpack_any bitstruct.MSB_first fmt B off)) acc
  = Ok (acc ++ take (bitstruct.calcsize fmt) (drop off B)).
Proof.
  induction fmt as [|size fmt IH]; intros B acc off Hoff Hlen.
  - cbn. rewrite app_nil_r. reflexivity.
  - rewrite calcsize_cons in *. pose proof (calcsize_nonneg fmt) as Hc.
    cbn [bitstruct.unpack_any map bitstruct.pack_any].
    unfold bitstruct.pack_value, bitstruct.unpack_value.
    set (w := take (Z.pos size) (drop off B)).
    assert (Hw : length w = Pos.to_nat size).
    { unfold w, take, drop. rewrite length_firstn, length_skipn. lia. }
    pose proof (of_bits_bound w) as Hb. rewrite Hw, positive_nat_Z in Hb.
    rewrite uint_pack_ok by exact Hb. cbn [bind].
    rewrite <- Hw, to_bits_of_bits.
    rewrite IH by lia.
    rewrite <- app_assoc. unfold w.
    rewrite take_add, drop_add by lia. reflexivity.
Qed.

Lemma length_unpack_any order (fmt : list positive) : forall B off,
  length (bitstruct.unpack_any order fmt B off) = length fmt.
Proof.
  induction fmt as [|size fmt IH]; intros B off; [reflexivity|].
  cbn [bitstruct.unpack_any length]. rewrite IH. reflexivity.
Qed.

Lemma length_unpack order (fmt : list positive) (data : bytes) (vs : list Z) :
  bitstruct.unpack fmt order data = Ok vs -> length vs = length fmt.
Proof.
  unfold bitstruct.unpack. destruct (_ <? _); [discriminate|].
  intros E. injection E as <-. apply length_unpack_any.
Qed.

Lemma pack_unpacked (fmt : list positive) (bs : bytes) (vs : list Z) :
  Forall is_byte bs ->
  8 * Z.of_nat (length bs) = bitstruct.calcsize fmt ->
  bitstruct.unpack fmt bitstruct.MSB_first bs = Ok vs ->
  bitstruct.pack fmt bitstruct.MSB_first (map VInt vs) = Ok bs.
Proof.
  intros Hb Hlen. unfold bitstruct.unpack, bitstruct.pack.
  rewrite length_bits_of_bytes.
  destruct (Z.ltb_spec (Z.of_nat (8 * length bs)) (bitstruct.calcsize fmt));
    [lia|].
  intros Hu. injection Hu as <-.
  rewrite length_map, length_unpack_any, Nat.ltb_irrefl.
  rewrite pack_any_unpack_any by (rewrite ?length_bits_of_bytes; lia).
  cbn [bind app]. change (drop 0 ?l) with l.
  rewrite take_all by (rewrite length_bits_of_bytes; lia).
  rewrite pad_last_byte_aligned
    by (rewrite length_bits_of_bytes, Nat2Z.inj_mul, Z.mul_comm;
        apply Z_mod_mult).
  rewrite bytes_of_bits_of_bytes by exact Hb. reflexivity.
Qed.

Lemma bcdplus_lookup_rev_inv (x c : Z) :
  StringField.bcdplus_lookup_rev x = Ok c ->
  bcd_supported c = true /\ bcd_code c = x.
Proof.
  unfold StringField.bcdplus_lookup_rev, bcd_supported, bcd_code.
  destruct (Z.leb_spec 0 x) as [L0|L0], (Z.leb_spec x 9) as [L9|L9];
    cbn [andb].
  1:{ intros E. injection E as <-.
      destruct (Z.leb_spec 48 (x + 48)), (Z.leb_spec (x + 48) 57); try lia.
      cbn [andb orb]. split; [reflexivity | lia]. }
  all: destruct (Z.eqb_spec x 10) as [->|];
    [intros E; injection E as <-; split; reflexivity|];
    destruct (Z.eqb_spec x 11) as [->|];
    [intros E; injection E as <-; split; reflexivity|];
    destruct (Z.eqb_spec x 12) as [->|];
    [intros E; injection E as <-; split; reflexivity | discriminate].
Qed.

(** BCD_PLUS: the bytes decoded are the bytes the decoded string encodes
    to. *)
Lemma ser_bcd_plus_decoded : forall (bs : bytes) (s : str) (acc : bytes),
  Forall is_byte bs ->
  StringField.deser_bcd_plus bs = Ok s ->
  StringField.ser_bcd_plus_loop
    (_grouper 2 (map char_item s) (VStr [0x20])) acc = Ok (acc ++ bs).
Proof.
  induction bs as [|v bs IH]; intros s acc Hb H.
  - injection H as <-. cbn. rewrite app_nil_r. reflexivity.
  - inversion Hb as [|? ? Hv Hbs]; subst.
    cbn [StringField.deser_bcd_plus] in H.
    destruct (bitstruct.unpack _ _ [v]) as [tmp|] eqn:Eu; [|discriminate].
    cbn [bind] in H.
    pose proof (length_unpack _ _ _ _ Eu) as Hl.
    destruct tmp as [|x [|y [|]]]; try discriminate.
    pose proof (pack_unpacked [4; 4]%positive [v] [x; y]
                              ltac:(constructor; [exact Hv | constructor])
                              eq_refl Eu) as Hp.
    cbn [StringField.map_result bind] in H.
    destruct (StringField.bcdplus_lookup_rev x) as [a|] eqn:Ea; [|discriminate].
    cbn [bind] in H.
    destruct (StringField.bcdplus_lookup_rev y) as [b|] eqn:Eb; [|discriminate].
    cbn [bind] in H.
    destruct (StringField.deser_bcd_plus bs) as [rest|] eqn:Er; [|discriminate].
    cbn [bind] in H. injection H as <-.
    apply bcdplus_lookup_rev_inv in Ea, Eb.
    destruct Ea as [Sa Ca], Eb as [Sb Cb].
    cbn [app map].
    change (char_item a :: char_item b :: map char_item rest)
      with ([char_item a; char_item b] ++ map char_item rest).
    rewrite (_grouper_chunk 2 [char_item a; char_item b]) by (simpl; lia).
    cbn [StringField.ser_bcd_plus_loop StringField.map_result].
    unfold char_item at 1 2. rewrite !bcdplus_lookup_char, Sa, Sb.
    cbn [bind map]. rewrite Ca, Cb. cbn [map] in Hp. rewrite Hp. cbn [bind].
    rewrite (IH rest _ Hbs eq_refl), <- app_assoc. reflexivity.
Qed.

Lemma upper_6bit (s : str) :
  Forall (fun x => 0x20 <= x < 0x60) s -> upper s = s.
Proof.
  induction 1 as [|c s Hc _ IH]; [reflexivity|].
  unfold upper in *. cbn [flat_map]. rewrite IH.
  unfold upper_cp.
  destruct (Z.leb_spec 0x61 c); [lia|]. cbn [andb].
  repeat match goal with
         | |- context [?x =? ?y] => destruct (Z.eqb_spec x y); [lia|]
         end.
  reflexivity.
Qed.

(** ASCII_6BIT: the bytes decoded are the bytes the decoded characters
    encode to. *)
Lemma ser_6bit_decoded : forall (payload acc res : bytes) (out : bytes),
  Forall is_byte payload ->
  StringField.deser_6bit_loop
    (_grouper 3 (map VInt payload) (VStr [0x20])) acc = Ok (acc ++ res) ->
  StringField.ser_6bit_loop (_grouper 4 res 0x20) out = Ok (out ++ payload).
Proof.
  induction payload as [|a|a b|a b c payload IH] using list_ind_3;
    intros acc res out Hb H.
  - injection H as H. rewrite <- (app_nil_r acc) in H at 1.
    apply app_inv_head in H. subst res. cbn. rewrite app_nil_r. reflexivity.
  - discriminate.
  - discriminate.
  - inversion Hb as [|? ? Ha Hb1]; subst.
    inversion Hb1 as [|? ? Hb' Hb2]; subst.
    inversion Hb2 as [|? ? Hc Hb3]; subst.
    cbn [map] in H.
    change (VInt a :: VInt b :: VInt c :: map VInt payload)
      with ([VInt a; VInt b; VInt c] ++ map VInt payload) in H.
    rewrite _grouper_chunk in H by (simpl; lia).
    cbn [StringField.deser_6bit_loop rev app StringField.py_bytearray] in H.
    pose proof Ha as Ha'. pose proof Hb' as Hb''. pose proof Hc as Hc'.
    unfold is_byte in Ha', Hb'', Hc'.
    destruct (Z.leb_spec 0 c), (Z.ltb_spec c 256); try lia.
    destruct (Z.leb_spec 0 b), (Z.ltb_spec b 256); try lia.
    destruct (Z.leb_spec 0 a), (Z.ltb_spec a 256); try lia.
    cbn [andb bind] in H.
    destruct (unpack_u6x4 c b a)
      as (v0 & v1 & v2 & v3 & Eu & Hv0 & Hv1 & Hv2 & Hv3).
    rewrite Eu in H. cbn [bind rev app map] in H.
    pose proof (pack_unpacked [6; 6; 6; 6]%positive [c; b; a] [v0; v1; v2; v3]
                              ltac:(repeat constructor; assumption)
                              eq_refl Eu) as Hp.
    destruct (deser_6bit_loop_spec payload
                (acc ++ [v3 + 32; v2 + 32; v1 + 32; v0 + 32]) Hb3)
      as [Hok Herr].
    destruct (Z.eq_dec (Z.of_nat (length payload) mod 3) 0) as [Hm|Hm];
      [|rewrite (Herr Hm) in H; discriminate].
    destruct (Hok Hm) as (res' & Hres & _).
    rewrite Hres in H. injection H as H. rewrite <- app_assoc in H.
    apply app_inv_head in H. subst res.
    specialize (IH _ res' (out ++ [a; b; c]) Hb3 Hres).
    change ([v3 + 32; v2 + 32; v1 + 32; v0 + 32] ++ res')
      with ([v3 + 32; v2 + 32; v1 + 32; v0 + 32] ++ res').
    rewrite (_grouper_chunk 4 [v3 + 32; v2 + 32; v1 + 32; v0 + 32])
      by (simpl; lia).
    cbn [StringField.ser_6bit_loop map rev app].
    replace (v3 + 32 - 32) with v3 by lia. replace (v2 + 32 - 32) with v2 by lia.
    replace (v1 + 32 - 32) with v1 by lia. replace (v0 + 32 - 32) with v0 by lia.
    cbn [map] in Hp. rewrite Hp. cbn [bind rev app].
    rewrite IH, <- app_assoc. reflexivity.
Qed.

Lemma ser_fn_decoded (fmt : StringFmt) (payload : bytes) (v : str) :
  Forall is_byte payload ->
  StringField.deser_fn fmt payload = Ok v ->
  StringField.ser_fn fmt (VStr v) = Ok payload.
Proof.
  intros Hp Hd.
  destruct fmt; cbn [StringField.deser_fn StringField.ser_fn] in *.
  - apply utf8_encode_decode. exact Hd.
  - unfold StringField.ser_bcd_plus. cbn [StringField.py_iter bind].
    change (map (fun c => VStr [c]) v) with (map char_item v).
    apply (ser_bcd_plus_decoded payload v [] Hp Hd).
  - unfold StringField.deser_6bit in Hd.
    destruct (deser_6bit_loop_spec payload [] Hp) as [Hok Herr].
    destruct (Z.eq_dec (Z.of_nat (length payload) mod 3) 0) as [Hm|Hm];
      [|rewrite (Herr Hm) in Hd; discriminate].
    destruct (Hok Hm) as (res & Hres & H6).
    rewrite Hres in Hd. cbn [bind app] in Hd.
    rewrite utf8_decode_ascii in Hd
      by (eapply Forall_impl; [|exact H6]; cbv beta; intros; lia).
    injection Hd as <-.
    unfold StringField.ser_6bit. rewrite upper_6bit by exact H6.
    apply (ser_6bit_decoded payload [] res [] Hp Hres).
  - apply utf8_encode_decode. exact Hd.
Qed.

Lemma StringField_reencode
      (h : Z) (tail rest : bytes) (self self' : StringField.t) :
  Forall is_byte (h :: tail) ->
  h mod 64 <= Z.of_nat (length tail) ->
  StringField.deserialize (h :: tail) self = (Ok rest, self') ->
  exists consumed,
    h :: tail = consumed ++ rest
    /\ StringField.serialize self' = Ok consumed.
Proof.
  intros Hb Hlen H. inversion Hb as [|? ? Hh Ht]; subst.
  destruct (StringField_deserialize_cons h tail self Hh) as (fmt & Hf & Hd).
  rewrite Hd in H. clear Hd.
  destruct (StringField.deser_fn fmt _) as [v|] eqn:Ed; [|discriminate].
  injection H as <- <-.
  exists (h :: take (h mod 64) tail). split.
  - cbn [app]. rewrite take_drop. reflexivity.
  - assert (Hp : Forall is_byte (take (h mod 64) tail))
      by (unfold take; apply Forall_firstn, Ht).
    unfold StringField.serialize. cbn [StringField.format StringField.value].
    rewrite (ser_fn_decoded fmt _ v Hp Ed). cbn [bind].
    unfold StringField.ser_type_length. cbn [StringField.format].
    pose proof (Z.mod_pos_bound h 64 ltac:(lia)) as Hm.
    rewrite length_take by lia.
    rewrite pack_u2u6 by (try apply fmt_value_range; lia).
    cbn [bind app]. rewrite Hf. do 2 f_equal.
    pose proof (Z.div_mod h 64 ltac:(lia)). lia.
Qed.

(** X15.  What [StringField.deserialize] has decoded serializes back to
    the bytes it was decoded from: when the input holds the whole payload
    its header announces and the call returns, [serialize] on the field
    returns exactly the bytes the call has consumed. *)
Theorem StringField_deserialize_then_serialize
        (h : Z) (tail rest : bytes) (self self' : StringField.t) :
  Forall is_byte (h :: tail) ->
  h mod 64 <= Z.of_nat (length tail) ->
  StringField.deserialize (h :: tail) self = (Ok rest, self') ->
  exists consumed,
    h :: tail = consumed ++ rest
    /\ StringField.serialize self' = Ok consumed.
Proof. apply StringField_reencode. Qed.

Lemma StringField_deserialize_then_serialize_witness :
  exists consumed,
    [0x83; 0x29; 0xDC; 0xA6; 0xC1] = consumed ++ [0xC1]
    /\ StringField.serialize
         (StringField.mk ASCII_6BIT (VStr (str_of "IPMI"))) = Ok consumed.
Proof.
  apply (StringField_deserialize_then_serialize
           0x83 [0x29; 0xDC; 0xA6; 0xC1] [0xC1] (StringField.mk BIN VNone)).
  - repeat constructor; unfold is_byte; lia.
  - vm_compute. discriminate.
  - vm_compute. reflexivity.
Defined.

(* ================================================================== *)
(** * [FixedField]: what is decoded is encoded again                   *)
(* ================================================================== *)

Lemma length_lsb_collect (m : nat) : forall ao tmp,
  ao <= 8 * Z.of_nat m ->
  Z.of_nat (length tmp) <= ao + 8 ->
  length (lsb_collect ao tmp) = length tmp.
Proof.
  induction m as [|m IH]; intros ao tmp Hm Hl.
  - rewrite lsb_collect_stop by lia. reflexivity.
  - destruct (Z.le_gt_cases ao 0) as [Hle|Hgt].
    + rewrite lsb_collect_stop by lia. reflexivity.
    + rewrite lsb_collect_step by lia. rewrite length_app.
      rewrite IH; [| lia | unfold take; rewrite length_firstn; lia].
      unfold take, drop. rewrite !length_firstn, length_skipn. lia.
Qed.

(** Emitting the bits of a value read back from a window gives the
    window: the loops of [pack_value] and of [unpack] for [<] undo each
    other also in this order. *)
Lemma lsb_emit_collect (m : nat) : forall W f,
  (length W <= m)%nat -> 1 <= f <= 8 ->
  lsb_emit (Z.of_nat (length W) - f)
           (lsb_collect (Z.of_nat (length W) - (Z.of_nat (length W) - f) mod 8) W)
  = W.
Proof.
  induction m as [|m IH]; intros W f Hm Hf;
    destruct (Z.le_gt_cases (Z.of_nat (length W)) f) as [Hle|Hgt];
    try lia.
  - rewrite lsb_emit_stop by lia. apply (lsb_roundtrip_short W f); assumption.
  - rewrite lsb_emit_stop by lia. apply (lsb_roundtrip_short W f); assumption.
  - set (n := Z.of_nat (length W)) in *.
    set (c := take f W). set (T := drop f W).
    assert (HW : W = c ++ T) by (symmetry; apply take_drop).
    assert (Hc : Z.of_nat (length c) = f) by (apply length_take; lia).
    assert (HT : Z.of_nat (length T) = n - f).
    { unfold T. rewrite length_drop by lia. reflexivity. }
    pose proof (Z.mod_pos_bound (n - f) 8 ltac:(lia)) as Hr.
    pose proof (Z.div_mod (n - f) 8 ltac:(lia)) as Hq.
    set (q := (n - f) / 8) in *. set (r := (n - f) mod 8) in *.
    assert (Hq0 : 0 <= q) by lia.
    specialize (IH T 8 ltac:(lia) ltac:(lia)).
    rewrite HT in IH.
    replace ((n - f - 8) mod 8) with r in IH.
    2:{ unfold r. replace (n - f - 8) with (n - f + (-1) * 8) by lia.
        symmetry. apply Z_mod_plus_full. }
    replace (n - r) with (8 * Z.of_nat (Z.to_nat q) + Z.of_nat (length c)) by lia.
    rewrite HW at 1. rewrite lsb_collect_prepend by lia.
    replace (8 * Z.of_nat (Z.to_nat q)) with (n - f - r) by lia.
    assert (Hlc : Z.of_nat (length (lsb_collect (n - f - r) T)) = n - f).
    { rewrite (length_lsb_collect (Z.to_nat q)) by lia. exact HT. }
    rewrite lsb_emit_step by lia.
    assert (Hcut : forall k,
               k = Z.of_nat (length (lsb_collect (n - f - r) T)) ->
               drop k (lsb_collect (n - f - r) T ++ c) = c
               /\ take k (lsb_collect (n - f - r) T ++ c)
                  = lsb_collect (n - f - r) T).
    { intros k ->. split; [apply drop_app_exact | apply take_app_exact]. }
    destruct (Hcut (n - f) ltac:(lia)) as [-> ->].
    rewrite IH. symmetry. exact HW.
Qed.

(** Least significant byte first: packing the values unpacked from a bit
    string gives its bits back. *)
Lemma pack_any_unpack_any_lsb (fmt : list positive) :
  forall (B acc : bitstruct.bits) (off : Z),
    off = Z.of_nat (length acc) ->
    off + bitstruct.calcsize fmt <= Z.of_nat (length B) ->
    bitstruct.pack_any bitstruct.LSB_first fmt
      (map VInt (bitstruct.unpack_any bitstruct.LSB_first fmt B off)) acc
    = Ok (acc ++ take (bitstruct.calcsize fmt) (drop off B)).
Proof.
  induction fmt as [|size fmt IH]; intros B acc off Hoff Hlen.
  - cbn. rewrite app_nil_r. reflexivity.
  - rewrite calcsize_cons in *. pose proof (calcsize_nonneg fmt) as Hc.
    cbn [bitstruct.unpack_any map bitstruct.pack_any].
    unfold bitstruct.pack_value, bitstruct.unpack_value.
    set (W := take (Z.pos size) (drop off B)).
    assert (HW : Z.of_nat (length W) = Z.pos size).
    { unfold W, take, drop. rewrite length_firstn, length_skipn. lia. }
    pose proof (Z.mod_pos_bound off 8 ltac:(lia)) as Hm.
    set (f := 8 - off mod 8).
    assert (Hr : (off + Z.pos size) mod 8 = (Z.pos size - f) mod 8).
    { unfold f. replace (Z.pos size - (8 - off mod 8))
        with (off mod 8 + Z.pos size + (-1) * 8) by lia.
      rewrite Z_mod_plus_full, Z.add_mod_idemp_l by lia. reflexivity. }
    pose proof (Z.mod_pos_bound (Z.pos size - f) 8 ltac:(lia)) as Hr'.
    replace (bitstruct.unpack_lsb_loop _ _ W [])
      with (lsb_collect (Z.pos size - (Z.pos size - f) mod 8) W).
    2:{ unfold lsb_collect. rewrite Hr.
        apply unpack_lsb_loop_fuel; lia. }
    set (vb := lsb_collect (Z.pos size - (Z.pos size - f) mod 8) W).
    assert (Hvb : Z.of_nat (length vb) = Z.pos size).
    { unfold vb. rewrite (length_lsb_collect (Pos.to_nat size)) by lia.
      exact HW. }
    pose proof (of_bits_bound vb) as Hb. rewrite Hvb in Hb.
    rewrite uint_pack_ok by exact Hb. cbn [bind].
    replace (Pos.to_nat size) with (length vb) by lia.
    rewrite to_bits_of_bits.
    rewrite pack_lsb_loop_acc.
    replace (bitstruct.pack_lsb_loop _ _ vb [])
      with (lsb_emit (Z.pos size - f) vb).
    2:{ unfold lsb_emit. rewrite <- Hoff. fold f. rewrite Hvb.
        apply pack_lsb_loop_fuel; lia. }
    assert (He : lsb_emit (Z.pos size - f) vb = W).
    { pose proof (lsb_emit_collect (length W) W f (Nat.le_refl _)
                                   ltac:(unfold f; lia)) as E.
      rewrite HW in E. exact E. }
    rewrite He, IH.
    + rewrite <- app_assoc. unfold W.
      rewrite take_add, drop_add by lia. reflexivity.
    + rewrite length_app. lia.
    + lia.
Qed.

Lemma pack_unpacked_lsb (fmt : list positive) (bs : bytes) (vs : list Z) :
  Forall is_byte bs ->
  8 * Z.of_nat (length bs) = bitstruct.calcsize fmt ->
  bitstruct.unpack fmt bitstruct.LSB_first bs = Ok vs ->
  bitstruct.pack fmt bitstruct.LSB_first (map VInt vs) = Ok bs.
Proof.
  intros Hb Hlen. unfold bitstruct.unpack, bitstruct.pack.
  rewrite length_bits_of_bytes.
  destruct (Z.ltb_spec (Z.of_nat (8 * length bs)) (bitstruct.calcsize fmt));
    [lia|].
  intros Hu. injection Hu as <-.
  rewrite length_map, length_unpack_any, Nat.ltb_irrefl.
  rewrite pack_any_unpack_any_lsb
    by (rewrite ?length_bits_of_bytes; cbn [length]; lia).
  cbn [bind app]. change (drop 0 ?l) with l.
  rewrite take_all by (rewrite length_bits_of_bytes; lia).
  rewrite pad_last_byte_aligned
    by (rewrite length_bits_of_bytes, Nat2Z.inj_mul, Z.mul_comm;
        apply Z_mod_mult).
  rewrite bytes_of_bits_of_bytes by exact Hb. reflexivity.
Qed.

Lemma FixedField_reencode
      (input rest : bytes) (self self' : FixedField.t) :
  Forall is_byte input ->
  FixedField.deserialize input self = (Ok rest, self') ->
  exists consumed,
    input = consumed ++ rest
    /\ FixedField.serialize self' = Ok consumed.
Proof.
  intros Hb H. unfold FixedField.deserialize, FixedField.size in H.
  destruct (Z.eqb_spec (bitstruct.calcsize (FixedField.format self) mod 8) 0)
    as [Hal|]; [|discriminate].
  cbn [negb] in H.
  set (n := bitstruct.calcsize (FixedField.format self) / 8) in *.
  destruct (bitstruct.unpack _ _ (take n input)) as [vs|] eqn:Eu;
    [|discriminate].
  assert (Hn : 8 * n = bitstruct.calcsize (FixedField.format self)).
  { pose proof (Z.div_mod (bitstruct.calcsize (FixedField.format self)) 8
                          ltac:(lia)). unfold n. lia. }
  pose proof (calcsize_nonneg (FixedField.format self)) as Hc.
  assert (Hlen : Z.of_nat (length (take n input)) = n).
  { destruct (Z.le_gt_cases n (Z.of_nat (length input))) as [Hle|Hgt];
      [apply length_take; lia|].
    exfalso. unfold bitstruct.unpack in Eu.
    rewrite length_bits_of_bytes, take_all in Eu by lia.
    destruct (Z.ltb_spec (Z.of_nat (8 * length input))
                         (bitstruct.calcsize (FixedField.format self)));
      [discriminate | lia]. }
  pose proof (pack_unpacked_lsb (FixedField.format self) (take n input) vs
                (Forall_firstn _ _ _ Hb) ltac:(lia) Eu) as Hp.
  exists (take n input).
  destruct (1 <? length vs)%nat eqn:E1.
  - injection H as <- <-. split; [symmetry; apply take_drop|].
    unfold FixedField.serialize. cbn [FixedField.value FixedField.format].
    exact Hp.
  - destruct vs as [|r0 vs']; [discriminate|].
    injection H as <- <-. split; [symmetry; apply take_drop|].
    destruct vs'; [|cbn in E1; discriminate].
    unfold FixedField.serialize. cbn [FixedField.value FixedField.format].
    exact Hp.
Qed.

(** X16.  What [FixedField.deserialize] has decoded serializes back to
    the bytes it was decoded from: when the call returns, [serialize] on
    the field returns exactly the bytes the call has consumed. *)
Theorem FixedField_deserialize_then_serialize
        (input rest : bytes) (self self' : FixedField.t) :
  Forall is_byte input ->
  FixedField.deserialize input self = (Ok rest, self') ->
  exists consumed,
    input = consumed ++ rest
    /\ FixedField.serialize self' = Ok consumed.
Proof. apply FixedField_reencode. Qed.

Lemma FixedField_deserialize_then_serialize_witness :
  exists consumed,
    [0x56; 0x34; 0x12; 0xFF] = consumed ++ [0xFF]
    /\ FixedField.serialize (FixedField.mk [24%positive] (VInt 0x123456))
       = Ok consumed.
Proof.
  apply (FixedField_deserialize_then_serialize
           [0x56; 0x34; 0x12; 0xFF] [0xFF] (FixedField.mk [24%positive] VNone)).
  - repeat constructor; unfold is_byte; lia.
  - vm_compute. reflexivity.
Defined.

(* ================================================================== *)
(** * Further properties of [FruArea]                                  *)
(* ================================================================== *)

Lemma od_put_keys (d : FruArea.odict) (key : string) (v f : Field) :
  FruArea.od_get d key = Some f ->
  map fst (FruArea.od_put d key v) = map fst d.
Proof.
  induction d as [|[k v0] d IH]; cbn [FruArea.od_get FruArea.od_put];
    [discriminate|].
  destruct (String.eqb k key); intros H; cbn [map fst]; [reflexivity|].
  rewrite IH by exact H. reflexivity.
Qed.

Lemma od_put_get_id (d : FruArea.odict) (key : string) (f : Field) :
  FruArea.od_get d key = Some f -> FruArea.od_put d key f = d.
Proof.
  induction d as [|[k v0] d IH]; cbn [FruArea.od_get FruArea.od_put];
    [discriminate|].
  destruct (String.eqb k key); intros H.
  - injection H as ->. reflexivity.
  - rewrite IH by exact H. reflexivity.
Qed.

Lemma od_put_put (d : FruArea.odict) (key : string) (a b : Field) :
  FruArea.od_put (FruArea.od_put d key a) key b = FruArea.od_put d key b.
Proof.
  induction d as [|[k v0] d IH]; cbn [FruArea.od_put].
  - rewrite String.eqb_refl. reflexivity.
  - destruct (String.eqb k key) eqn:E; cbn [FruArea.od_put]; rewrite E;
      [reflexivity | rewrite IH; reflexivity].
Qed.

Lemma field_value_assign (f : Field) (x : pyval) :
  FruArea.field_value (FruArea.field_assign f x) = x.
Proof. destruct f; reflexivity. Qed.

Lemma field_assign_value (f : Field) :
  FruArea.field_assign f (FruArea.field_value f) = f.
Proof. destruct f as [[fmt v]|[fmt v]]; reflexivity. Qed.

Lemma field_assign_assign (f : Field) (x y : pyval) :
  FruArea.field_assign (FruArea.field_assign f x) y = FruArea.field_assign f y.
Proof. destruct f; reflexivity. Qed.

(** X17.  The generic accessors: assigning a value under a key of the
    schema and reading it gives the value back, a tuple or a list as a
    list; the values under the other keys, the order of the keys and the
    format version stay as they were.  Under a key that is not in the
    schema both accessors raise [KeyError], and nothing is added. *)
Theorem _set_then_get (key : string) (value : pyval) (self : FruArea.t) :
  (FruArea.od_contains (FruArea._dict self) key = true ->
   exists self',
     FruArea._set key value self = (Ok tt, self')
     /\ FruArea._get key self' = Ok (as_read value)
     /\ (forall k, k <> key -> FruArea._get k self' = FruArea._get k self)
     /\ map fst (FruArea._dict self') = map fst (FruArea._dict self)
     /\ FruArea._format_version self' = FruArea._format_version self)
  /\ (FruArea.od_contains (FruArea._dict self) key = false ->
      FruArea._set key value self = (Err KeyError, self)
      /\ FruArea._get key self = Err KeyError).
Proof.
  unfold FruArea.od_contains, FruArea._set.
  destruct (FruArea.od_get (FruArea._dict self) key) as [f|] eqn:Eg.
  - split; [|discriminate]. intros _. eexists. split; [reflexivity|].
    unfold FruArea._get. cbn [FruArea._dict FruArea._format_version].
    split; [|split; [|split]].
    + rewrite od_get_put_same, field_value_assign.
      destruct value; reflexivity.
    + intros k Hk. rewrite od_get_put_other by exact Hk. reflexivity.
    + apply (od_put_keys _ _ _ f Eg).
    + reflexivity.
  - split; [discriminate|]. intros _. split; [reflexivity|].
    unfold FruArea._get. rewrite Eg. reflexivity.
Qed.

Lemma _set_then_get_witness :
  exists self',
    FruArea._set "area_length" (VList [VInt 1; VInt 2]) demo_record
    = (Ok tt, self')
    /\ FruArea._get "area_length" self' = Ok (as_read (VList [VInt 1; VInt 2]))
    /\ (forall k, k <> "area_length"%string ->
                  FruArea._get k self' = FruArea._get k demo_record)
    /\ map fst (FruArea._dict self') = map fst (FruArea._dict demo_record)
    /\ FruArea._format_version self' = FruArea._format_version demo_record.
Proof.
  apply (proj1 (_set_then_get "area_length" (VList [VInt 1; VInt 2])
                              demo_record)).
  reflexivity.
Defined.

(** X18.  The accessor of [area_length], for a schema with that field:
    assigning a number of bytes that is not a multiple of 8 raises
    [ValueError] and changes nothing; assigning a multiple of 8 stores
    the number divided by 8, and reading [area_length] gives the number
    of bytes back. *)
Theorem area_length_accessor (val : Z) (self : FruArea.t) :
  FruArea.od_contains (FruArea._dict self) "area_length" = true ->
  (val mod 8 <> 0 ->
   FruArea.__setitem__ "area_length" (VInt val) self = (Err ValueError, self))
  /\ (val mod 8 = 0 ->
      exists self',
        FruArea.__setitem__ "area_length" (VInt val) self = (Ok tt, self')
        /\ FruArea._get "area_length" self' = Ok (VInt (val / 8))
        /\ FruArea.__getitem__ "area_length" self' = Ok (VInt val)).
Proof.
  intros Hc. unfold FruArea.__setitem__, FruArea.__getitem__.
  cbn [String.eqb Ascii.eqb Bool.eqb].
  unfold FruArea._set_area_length, FruArea._get_area_length.
  unfold FruArea.od_contains in Hc.
  destruct (FruArea.od_get (FruArea._dict self) "area_length") as [f|] eqn:Eg;
    [|discriminate].
  split; intros Hm.
  - destruct (Z.eqb_spec (val mod 8) 0); [contradiction | reflexivity].
  - rewrite Hm. cbn [Z.eqb negb]. unfold FruArea._set. rewrite Eg.
    eexists. split; [reflexivity|].
    unfold FruArea._get. cbn [FruArea._dict].
    rewrite od_get_put_same, field_value_assign. split; [reflexivity|].
    cbn [bind py_mul8]. do 2 f_equal.
    pose proof (Z.div_mod val 8 ltac:(lia)). lia.
Qed.

Lemma area_length_accessor_witness :
  FruArea.__setitem__ "area_length" (VInt 20) area_length_only
  = (Err ValueError, area_length_only)
  /\ exists self',
       FruArea.__setitem__ "area_length" (VInt 24) area_length_only
       = (Ok tt, self')
       /\ FruArea._get "area_length" self' = Ok (VInt (24 / 8))
       /\ FruArea.__getitem__ "area_length" self' = Ok (VInt 24).
Proof.
  split.
  - apply (proj1 (area_length_accessor 20 area_length_only eq_refl)).
    discriminate.
  - apply (proj2 (area_length_accessor 24 area_length_only eq_refl)).
    reflexivity.
Defined.

Lemma pack_lsb_loop_stop (fuel : nat) (ao : Z) (vb acc : bitstruct.bits) :
  ao <= 0 -> bitstruct.pack_lsb_loop fuel ao vb acc = acc ++ vb.
Proof.
  intros H. destruct fuel; cbn [bitstruct.pack_lsb_loop]; [reflexivity|].
  destruct (Z.ltb_spec 0 ao); [lia | reflexivity].
Qed.

Lemma pack_version (val : Z) :
  bitstruct.pack [4; 4]%positive bitstruct.LSB_first [VInt 0; VInt val]
  = if (0 <=? val) && (val <? 16) then Ok [val] else Err bitstruct_Error.
Proof.
  unfold bitstruct.pack. cbn [length Nat.ltb Nat.leb bitstruct.pack_any].
  unfold bitstruct.pack_value.
  rewrite (uint_pack_ok 4 0) by (unfold in_range; simpl; lia).
  cbn [bind]. rewrite uint_pack_int. change (2 ^ Z.pos 4) with 16.
  destruct ((0 <=? val) && (val <? 16)) eqn:E; [|reflexivity].
  apply andb_true_iff in E. destruct E as [E0 E1].
  apply Z.leb_le in E0. apply Z.ltb_lt in E1.
  cbn [bind]. rewrite !length_to_bits.
  rewrite (pack_lsb_loop_stop _ _ _ []) by (cbn; lia).
  cbn [app]. rewrite length_to_bits.
  rewrite pack_lsb_loop_stop by (change (Pos.to_nat 4) with 4%nat; cbn; lia).
  change (Pos.to_nat 4) with 4%nat.
  rewrite (to_bits_app 4 4 0 val) by (change (Z.of_nat 4) with 4; lia).
  rewrite pad_last_byte_aligned by (rewrite length_to_bits; reflexivity).
  change (4 + 4)%nat with 8%nat. rewrite bytes_of_to_bits_8.
  rewrite Z.mul_0_l, Z.add_0_l, Z.mod_small by lia. reflexivity.
Qed.

(** X19.  Assigning [format_version] is never refused and leaves the
    fields alone; reading it gives the value back.  A version from 0 to
    15 is the one byte of the prologue; any other integer shows only at
    [serialize], which then raises [bitstruct.Error] before it has
    changed anything. *)
Theorem format_version_accessor (val : Z) (self : FruArea.t) :
  FixedField.format (FruArea._format_version self) = [4; 4]%positive ->
  exists self',
    FruArea.__setitem__ "format_version" (VInt val) self = (Ok tt, self')
    /\ FruArea._dict self' = FruArea._dict self
    /\ FruArea.__getitem__ "format_version" self' = Ok (VInt val)
    /\ (0 <= val < 16 -> FruArea._prologue self' = Ok [val])
    /\ (~ 0 <= val < 16 ->
        FruArea.serialize self' = (Err bitstruct_Error, self')).
Proof.
  intros Hfmt. eexists. split; [reflexivity|].
  split; [reflexivity|]. split; [reflexivity|].
  unfold FruArea.serialize, mbind, pure_call, FruArea._prologue,
    FixedField.serialize.
  cbn [FruArea._format_version FixedField.value FixedField.format].
  rewrite Hfmt, pack_version.
  split; intros Hv.
  - destruct (Z.leb_spec 0 val), (Z.ltb_spec val 16); try lia. reflexivity.
  - destruct (Z.leb_spec 0 val), (Z.ltb_spec val 16); try lia; reflexivity.
Qed.

Lemma format_version_accessor_witness :
  exists self',
    FruArea.__setitem__ "format_version" (VInt 16) demo_record = (Ok tt, self')
    /\ FruArea._dict self' = FruArea._dict demo_record
    /\ FruArea.__getitem__ "format_version" self' = Ok (VInt 16)
    /\ (0 <= 16 < 16 -> FruArea._prologue self' = Ok [16])
    /\ (~ 0 <= 16 < 16 ->
        FruArea.serialize self' = (Err bitstruct_Error, self')).
Proof. apply (format_version_accessor 16 demo_record). reflexivity. Defined.

(** X20.  [area_length] and [format_version] are reported as contained
    in every record.  When the schema has no field [area_length], reading
    it, and assigning it a multiple of 8, still raise [KeyError], and the
    assignment adds no field. *)
Theorem special_names_always_contained (self : FruArea.t) :
  FruArea.__contains__ "area_length" self = true
  /\ FruArea.__contains__ "format_version" self = true
  /\ (FruArea.od_contains (FruArea._dict self) "area_length" = false ->
      FruArea.__getitem__ "area_length" self = Err KeyError
      /\ forall val,
           val mod 8 = 0 ->
           FruArea.__setitem__ "area_length" (VInt val) self
           = (Err KeyError, self)).
Proof.
  split; [reflexivity|]. split; [reflexivity|].
  unfold FruArea.od_contains. intros Hc.
  destruct (FruArea.od_get (FruArea._dict self) "area_length") eqn:Eg;
    [discriminate|].
  split.
  - unfold FruArea.__getitem__. cbn [String.eqb Ascii.eqb Bool.eqb].
    unfold FruArea._get_area_length, FruArea._get. rewrite Eg. reflexivity.
  - intros val Hm. unfold FruArea.__setitem__.
    cbn [String.eqb Ascii.eqb Bool.eqb].
    unfold FruArea._set_area_length, FruArea._set.
    rewrite Hm, Eg. reflexivity.
Qed.

Lemma special_names_always_contained_witness :
  FruArea.__getitem__ "area_length" empty_record = Err KeyError
  /\ forall val,
       val mod 8 = 0 ->
       FruArea.__setitem__ "area_length" (VInt val) empty_record
       = (Err KeyError, empty_record).
Proof.
  apply (proj2 (proj2 (special_names_always_contained empty_record))).
  reflexivity.
Defined.

Lemma update_app (src1 src2 : list (string * pyval)) : forall self,
  FruArea.update (src1 ++ src2) self
  = match FruArea.update src1 self with
    | (Ok _, self1) => FruArea.update src2 self1
    | (Err e, self1) => (Err e, self1)
    end.
Proof.
  induction src1 as [|[k v] src1 IH]; intros self; [reflexivity|].
  cbn [app FruArea.update]. unfold mbind.
  destruct (FruArea.__setitem__ k v self) as [[[]|e] s1]; [apply IH | reflexivity].
Qed.

(** X21.  [update] assigns the entries in order and stops at the first
    one that raises: an entry whose key the record does not contain
    raises [KeyError], the entries before it stay assigned and the
    entries after it are not looked at. *)
Theorem update_stops_at_unknown_key
        (src1 src2 : list (string * pyval)) (k : string) (v : pyval)
        (self self1 : FruArea.t) :
  FruArea.update src1 self = (Ok tt, self1) ->
  FruArea.__contains__ k self1 = false ->
  FruArea.update (src1 ++ (k, v) :: src2) self = (Err KeyError, self1).
Proof.
  intros H1 Hc. rewrite update_app, H1.
  cbn [FruArea.update]. unfold mbind.
  unfold FruArea.__contains__ in Hc.
  apply orb_false_iff in Hc. destruct Hc as [Hc Hd].
  apply orb_false_iff in Hc. destruct Hc as [Ha Hf].
  unfold FruArea.__setitem__. rewrite Ha, Hf.
  unfold FruArea._set. unfold FruArea.od_contains in Hd.
  destruct (FruArea.od_get (FruArea._dict self1) k); [discriminate|].
  reflexivity.
Qed.

Lemma update_stops_at_unknown_key_witness :
  FruArea.update
    ([("format_version"%string, VInt 2)]
       ++ ("serial"%string, VStr (str_of "1")) :: [("format_version"%string, VInt 3)])
    empty_record
  = (Err KeyError,
     FruArea.mk (FixedField.mk [4; 4]%positive (VTuple [VInt 0; VInt 2])) []).
Proof.
  apply (update_stops_at_unknown_key
           [("format_version"%string, VInt 2)]
           [("format_version"%string, VInt 3)]
           "serial" (VStr (str_of "1")) empty_record).
  - reflexivity.
  - reflexivity.
Defined.

Lemma od_get_In (d : FruArea.odict) (k : string) (f : Field) :
  FruArea.od_get d k = Some f -> In (k, f) d.
Proof.
  induction d as [|[k0 v0] d IH]; cbn [FruArea.od_get]; [discriminate|].
  destruct (String.eqb_spec k0 k) as [->|Hne]; intros H.
  - injection H as ->. left. reflexivity.
  - right. exact (IH H).
Qed.

(** Assigning back what was read leaves the record as it is. *)
Lemma setitem_getitem (k : string) (v : pyval) (self : FruArea.t) :
  Forall reads_back (FruArea._dict self) ->
  In k (map fst (FruArea._dict self)) ->
  FruArea.__getitem__ k self = Ok v ->
  FruArea.__setitem__ k v self = (Ok tt, self).
Proof.
  intros Hrb Hin Hg.
  destruct (od_get_present _ _ Hin) as [f Ef].
  pose proof (od_get_In _ _ _ Ef) as Hf.
  rewrite Forall_forall in Hrb. destruct (Hrb _ Hf) as (Hfv & Hnl & Hal).
  cbn [fst snd] in *.
  assert (Hself : forall x,
             x = FruArea.field_value f ->
             FruArea.mk (FruArea._format_version self)
                        (FruArea.od_put (FruArea._dict self) k
                                        (FruArea.field_assign f x))
             = self).
  { intros x ->. rewrite field_assign_value, (od_put_get_id _ _ _ Ef).
    destruct self; reflexivity. }
  unfold FruArea.__getitem__ in Hg. unfold FruArea.__setitem__.
  destruct (String.eqb_spec k "area_length") as [->|Hk].
  - destruct (Hal eq_refl) as [z Hz].
    unfold FruArea._get_area_length, FruArea._get in Hg.
    rewrite Ef, Hz in Hg. cbn [bind py_mul8] in Hg. injection Hg as <-.
    unfold FruArea._set_area_length, FruArea._set.
    rewrite Z_mod_mult. cbn [Z.eqb negb]. rewrite Ef, Z.div_mul by lia.
    rewrite Hself by (symmetry; exact Hz). reflexivity.
  - destruct (String.eqb_spec k "format_version") as [->|_]; [contradiction|].
    unfold FruArea._get in Hg. rewrite Ef in Hg.
    unfold FruArea._set. rewrite Ef.
    destruct (FruArea.field_value f) as [|z|s|l|l] eqn:Ev;
      injection Hg as <-;
      try (rewrite Hself by reflexivity; reflexivity).
    exfalso. exact (Hnl l eq_refl).
Qed.

Lemma update_to_dict_keys (keys : list string) (self : FruArea.t) :
  forall items,
    Forall reads_back (FruArea._dict self) ->
    incl keys (map fst (FruArea._dict self)) ->
    FruArea.to_dict_keys keys self = Ok items ->
    FruArea.update items self = (Ok tt, self).
Proof.
  induction keys as [|k keys IH]; intros items Hrb Hin H.
  - injection H as <-. reflexivity.
  - cbn [FruArea.to_dict_keys] in H.
    destruct (FruArea.__getitem__ k self) as [v|] eqn:Eg; [|discriminate].
    cbn [bind] in H.
    destruct (FruArea.to_dict_keys keys self) as [rest|] eqn:Er; [|discriminate].
    cbn [bind] in H. injection H as <-.
    cbn [FruArea.update]. unfold mbind.
    rewrite (setitem_getitem k v self Hrb (Hin k (or_introl eq_refl)) Eg).
    apply IH; [exact Hrb | | reflexivity].
    intros x Hx. apply Hin. right. exact Hx.
Qed.

(** X22.  Feeding a record its own [to_dict()] through [update] changes
    nothing, for a record whose fields hold no list, whose
    [area_length], if any, holds an integer, and whose schema has no
    field named [format_version]. *)
Theorem update_to_dict_is_identity
        (self : FruArea.t) (items : list (string * pyval)) :
  Forall reads_back (FruArea._dict self) ->
  FruArea.to_dict self = Ok items ->
  FruArea.update items self = (Ok tt, self).
Proof.
  intros Hrb H.
  apply (update_to_dict_keys (map fst (FruArea._dict self))); try assumption.
  apply incl_refl.
Qed.

Lemma update_to_dict_is_identity_witness :
  FruArea.update [("area_length"%string, VInt 0)] stale_length_record
  = (Ok tt, stale_length_record).
Proof.
  apply (update_to_dict_is_identity stale_length_record).
  - repeat constructor; cbn; try discriminate. intros _. eexists. reflexivity.
  - reflexivity.
Defined.

(** ** The length of what [serialize] returns *)

Lemma field_size_serialize (kv : string * Field) (bs : bytes) (n : Z) :
  ascii_text kv ->
  FruArea.field_serialize (snd kv) = Ok bs ->
  FruArea.field_size (snd kv) = Ok n ->
  Z.of_nat (length bs) = n.
Proof.
  unfold ascii_text. destruct (snd kv) as [f|f];
    cbn [FruArea.field_serialize FruArea.field_size].
  - intros _. apply FixedField_size_serialize.
  - intros (s & Hv & Hs) Hb Hn.
    rewrite (StringField_size_ascii f s bs Hv Hs Hb) in Hn.
    injection Hn as <-. reflexivity.
Qed.

Lemma values_size_serialize (d : FruArea.odict) : forall parts sizes,
  Forall ascii_text d ->
  FruArea.for_values FruArea.field_serialize d = Ok parts ->
  FruArea.for_values FruArea.field_size d = Ok sizes ->
  Z.of_nat (length (concat parts)) = sum sizes.
Proof.
  unfold FruArea.for_values.
  induction d as [|kv d IH]; intros parts sizes Ha Hp Hs.
  - injection Hp as <-. injection Hs as <-. reflexivity.
  - inversion Ha as [|? ? Hkv Hd]; subst.
    cbn [StringField.map_result] in Hp, Hs.
    destruct (FruArea.field_serialize (snd kv)) as [b|] eqn:Eb; [|discriminate].
    destruct (FruArea.field_size (snd kv)) as [z|] eqn:Ez; [|discriminate].
    cbn [bind] in Hp, Hs.
    destruct (StringField.map_result _ d) as [ps|] eqn:Eps; [|discriminate].
    destruct (StringField.map_result (fun kv0 => FruArea.field_size (snd kv0)) d)
      as [zs|] eqn:Ezs; [|discriminate].
    cbn [bind] in Hp, Hs. injection Hp as <-. injection Hs as <-.
    cbn [concat sum fold_right]. rewrite length_app, Nat2Z.inj_add.
    rewrite (field_size_serialize kv b z Hkv Eb Ez).
    rewrite (IH ps zs Hd eq_refl eq_refl). reflexivity.
Qed.

Lemma Forall_od_put (P : string * Field -> Prop) (d : FruArea.odict)
      (key : string) (v : Field) :
  (forall k, P (k, v)) -> Forall P d -> Forall P (FruArea.od_put d key v).
Proof.
  intros Hv. induction 1 as [|[k v0] d Hk Hd IH]; cbn [FruArea.od_put].
  - constructor; [apply Hv | constructor].
  - destruct (String.eqb k key); constructor; auto.
Qed.

(** What [serialize] does to the record: nothing, or the assignment of
    [size_total()] to the field [area_length], which is a [FixedField]
    whenever [serialize] returns. *)
Lemma serialize_state (self self' : FruArea.t) (r : result bytes) :
  FruArea.serialize self = (r, self') ->
  self' = self
  \/ exists n f,
       FruArea.size_total self = Ok n
       /\ FruArea.od_get (FruArea._dict self) "area_length" = Some f
       /\ self' = FruArea.mk (FruArea._format_version self)
                    (FruArea.od_put (FruArea._dict self) "area_length"
                                    (FruArea.field_assign f (VInt (n / 8)))).
Proof.
  unfold FruArea.serialize, mbind, pure_call. intros H.
  destruct (FruArea._prologue self) as [p|]; [|injection H as _ <-; auto].
  unfold FruArea.od_contains in H.
  destruct (FruArea.od_get (FruArea._dict self) "area_length") as [f|] eqn:Eg.
  - destruct (FruArea.size_total self) as [n|] eqn:En;
      [|injection H as _ <-; auto].
    pose proof (size_total_aligned _ _ En) as Hal.
    unfold FruArea.__setitem__ in H. cbn [String.eqb Ascii.eqb Bool.eqb] in H.
    unfold FruArea._set_area_length, FruArea._set in H.
    rewrite Hal, Eg in H. cbn [Z.eqb negb] in H.
    right. exists n, f. split; [reflexivity|]. split; [reflexivity|].
    destruct (FruArea.for_values FruArea.field_serialize _);
      injection H as _ <-; reflexivity.
  - left. destruct (FruArea.for_values FruArea.field_serialize _);
      injection H as _ <-; reflexivity.
Qed.

(** What [serialize] returns, from the state it leaves. *)
Lemma serialize_bytes (self self' : FruArea.t) (bs : bytes) :
  FruArea.serialize self = (Ok bs, self') ->
  exists p parts,
    FruArea._prologue self = Ok p
    /\ FruArea.for_values FruArea.field_serialize (FruArea._dict self') = Ok parts
    /\ bs = (p ++ concat parts) ++ FruArea._epilogue (p ++ concat parts).
Proof.
  intros H. pose proof H as Hs. apply serialize_state in Hs.
  unfold FruArea.serialize, mbind, pure_call in H.
  destruct (FruArea._prologue self) as [p|]; [|discriminate].
  exists p. unfold FruArea.od_contains in H.
  destruct (FruArea.od_get (FruArea._dict self) "area_length") as [f|] eqn:Eg.
  - destruct (FruArea.size_total self) as [n|] eqn:En; [|discriminate].
    destruct (FruArea.__setitem__ "area_length" (VInt n) self) as [[[]|] s1];
      [|discriminate].
    destruct (FruArea.for_values FruArea.field_serialize (FruArea._dict s1))
      as [parts|] eqn:Ep; [|discriminate].
    injection H as <- <-. exists parts. auto.
  - destruct (FruArea.for_values FruArea.field_serialize (FruArea._dict self))
      as [parts|] eqn:Ep; [|discriminate].
    injection H as <- <-. exists parts. auto.
Qed.

(** When [serialize] returns, the field it has assigned is a
    [FixedField]: a [StringField] holding an integer does not serialize. *)
Lemma serialize_area_length_fixed (self : FruArea.t) (f : Field) (x : Z)
      (parts : list bytes) :
  FruArea.od_get (FruArea._dict self) "area_length" = Some f ->
  FruArea.for_values FruArea.field_serialize
    (FruArea.od_put (FruArea._dict self) "area_length"
                    (FruArea.field_assign f (VInt x))) = Ok parts ->
  exists g, f = Fixed g.
Proof.
  intros Eg Ep.
  destruct (for_values_get _ _ _ "area_length" _ Ep (od_get_put_same _ _ _))
    as [b Hb].
  destruct f as [g|g]; [eauto|].
  cbn in Hb.
  destruct (StringField_serialize_int (StringField.format g) x) as [e He].
  congruence.
Qed.

Lemma length_epilogue (payload : bytes) :
  Z.of_nat (length (payload ++ FruArea._epilogue payload))
  = snd (_sizeAlign (Z.of_nat (length payload) + 1) 8).
Proof.
  rewrite _epilogue_eq, !length_app, repeat_length. cbn [length].
  unfold _sizeAlign. cbn [snd].
  pose proof (Z.mod_pos_bound (- (Z.of_nat (length payload) + 1)) 8 ltac:(lia)).
  lia.
Qed.

(** X23.  For a record with the format version in one byte whose text
    fields hold ASCII strings, [serialize] returns exactly
    [size_total()] bytes. *)
Theorem serialize_length_is_size_total
        (self self' : FruArea.t) (bs : bytes) (n : Z) :
  FixedField.format (FruArea._format_version self) = [4; 4]%positive ->
  Forall ascii_text (FruArea._dict self) ->
  FruArea.serialize self = (Ok bs, self') ->
  FruArea.size_total self = Ok n ->
  Z.of_nat (length bs) = n.
Proof.
  intros Hfmt Ha H Hn.
  destruct (serialize_bytes _ _ _ H) as (p & parts & Hp & Hparts & ->).
  assert (Hlp : Z.of_nat (length p) = 1).
  { unfold FruArea._prologue, FixedField.serialize in Hp. rewrite Hfmt in Hp.
    destruct (FixedField.value _);
      apply pack_length in Hp; try reflexivity; exact Hp. }
  rewrite length_epilogue, length_app, Nat2Z.inj_add, Hlp.
  unfold FruArea.size_total, FruArea.size_payload in Hn.
  destruct (FruArea.for_values FruArea.field_size (FruArea._dict self))
    as [sizes|] eqn:Es; [|discriminate].
  cbn [bind] in Hn.
  assert (Hsum : Z.of_nat (length (concat parts)) = sum sizes).
  { destruct (serialize_state _ _ _ H) as [->|(m & f & _ & Eg & ->)].
    - exact (values_size_serialize _ _ _ Ha Hparts Es).
    - cbn [FruArea._dict] in Hparts.
      destruct (serialize_area_length_fixed _ _ _ _ Eg Hparts) as [g ->].
      assert (Ha' : Forall ascii_text
                      (FruArea.od_put (FruArea._dict self) "area_length"
                         (FruArea.field_assign (Fixed g) (VInt (m / 8)))))
        by (apply Forall_od_put; [intros k; exact I | exact Ha]).
      apply (values_size_serialize _ _ _ Ha' Hparts).
      rewrite (for_values_put FruArea.field_size _ _ _ _ Eg); [exact Es|].
      reflexivity. }
  rewrite Hsum.
  replace (1 + sum sizes + 1) with (sum sizes + 1 + 1) by lia.
  destruct (_sizeAlign (sum sizes + 1 + 1) 8) as [pad n'].
  injection Hn as <-. reflexivity.
Qed.

Lemma serialize_length_is_size_total_witness :
  Z.of_nat (length [1; 2; 131; 41; 220; 166; 66; 18; 58; 18; 0; 0; 0; 0; 0; 47])
  = 16.
Proof.
  apply (serialize_length_is_size_total
           demo_record (snd (FruArea.serialize demo_record))).
  - reflexivity.
  - repeat constructor; cbn; try (eexists; split; [reflexivity|]);
      repeat constructor; unfold is_ascii; lia.
  - vm_compute. reflexivity.
  - vm_compute. reflexivity.
Defined.

(** ** The schema is kept *)

Lemma same_layout_refl (v : Field) : same_layout v v.
Proof. destruct v; cbn; auto. Qed.

Lemma same_layout_sym (v w : Field) : same_layout v w -> same_layout w v.
Proof. destruct v, w; cbn; auto. Qed.

Lemma same_layout_trans (u v w : Field) :
  same_layout u v -> same_layout v w -> same_layout u w.
Proof. destruct u, v, w; cbn; try contradiction; auto. congruence. Qed.

Lemma same_layout_assign (f : Field) (x : pyval) :
  same_layout f (FruArea.field_assign f x).
Proof. destruct f; cbn; auto. Qed.

Lemma same_entries_refl (d : FruArea.odict) :
  Forall2 (fun kv kw => fst kv = fst kw /\ same_layout (snd kv) (snd kw)) d d.
Proof.
  induction d as [|kv d IH]; constructor; [|exact IH].
  split; [reflexivity | apply same_layout_refl].
Qed.

Lemma same_schema_refl (a : FruArea.t) : same_schema a a.
Proof. split; [reflexivity | apply same_entries_refl]. Qed.

Lemma same_schema_sym (a b : FruArea.t) : same_schema a b -> same_schema b a.
Proof.
  intros [Hf Hd]. split; [symmetry; exact Hf|].
  induction Hd as [|kv kw d1 d2 [Hk Hl] _ IH]; constructor; [|exact IH].
  split; [symmetry; exact Hk | apply same_layout_sym; exact Hl].
Qed.

Lemma same_schema_trans (a b c : FruArea.t) :
  same_schema a b -> same_schema b c -> same_schema a c.
Proof.
  intros [Hf Hd] [Hf' Hd']. split; [congruence|].
  revert Hd'. generalize (FruArea._dict c).
  induction Hd as [|kv kw d1 d2 [Hk Hl] _ IH]; intros d3 Hd';
    inversion Hd' as [|? kx ? d3' [Hk' Hl'] Hd'']; subst; constructor.
  - split; [congruence | eapply same_layout_trans; eassumption].
  - apply IH. exact Hd''.
Qed.

Lemma same_entries_put (d : FruArea.odict) (key : string) (f v : Field) :
  FruArea.od_get d key = Some f ->
  same_layout f v ->
  Forall2 (fun kv kw => fst kv = fst kw /\ same_layout (snd kv) (snd kw))
          d (FruArea.od_put d key v).
Proof.
  induction d as [|[k v0] d IH]; cbn [FruArea.od_get FruArea.od_put];
    [discriminate|].
  destruct (String.eqb k key); intros Hg Hl.
  - injection Hg as ->. constructor; [split; [reflexivity | exact Hl]|].
    apply same_entries_refl.
  - constructor; [split; [reflexivity | apply same_layout_refl]|].
    apply IH; assumption.
Qed.

Lemma serialize_keeps_schema (self self' : FruArea.t) (r : result bytes) :
  FruArea.serialize self = (r, self') -> same_schema self self'.
Proof.
  intros H. destruct (serialize_state _ _ _ H) as [->|(n & f & _ & Eg & ->)].
  - apply same_schema_refl.
  - split; [reflexivity|]. cbn [FruArea._dict].
    apply (same_entries_put _ _ f); [exact Eg | apply same_layout_assign].
Qed.

Lemma FixedField_deserialize_format input f r f' :
  FixedField.deserialize input f = (r, f') ->
  FixedField.format f' = FixedField.format f.
Proof.
  unfold FixedField.deserialize.
  destruct (FixedField.size f); [|intros H; injection H as _ <-; reflexivity].
  destruct (bitstruct.unpack _ _ _) as [vs|];
    [|intros H; injection H as _ <-; reflexivity].
  destruct (1 <? length vs)%nat;
    [intros H; injection H as _ <-; reflexivity|].
  destruct vs; intros H; injection H as _ <-; reflexivity.
Qed.

Lemma field_deserialize_layout input v r v' :
  FruArea.field_deserialize input v = (r, v') -> same_layout v v'.
Proof.
  destruct v as [f|f]; cbn [FruArea.field_deserialize].
  - destruct (FixedField.deserialize input f) as [r0 f0] eqn:E.
    intros H. injection H as _ <-. cbn.
    symmetry. exact (FixedField_deserialize_format _ _ _ _ E).
  - destruct (StringField.deserialize input f) as [r0 f0].
    intros H. injection H as _ <-. exact I.
Qed.

Lemma deserialize_values_layout (d : FruArea.odict) : forall input r d',
  FruArea.deserialize_values d input = (r, d') ->
  Forall2 (fun kv kw => fst kv = fst kw /\ same_layout (snd kv) (snd kw)) d d'.
Proof.
  induction d as [|[k v] d IH]; intros input r d' H.
  - injection H as _ <-. constructor.
  - cbn [FruArea.deserialize_values] in H.
    destruct (FruArea.field_deserialize input v) as [[r1|e] v1] eqn:E.
    + destruct (FruArea.deserialize_values d r1) as [r2 d2] eqn:E2.
      injection H as _ <-. constructor; [|exact (IH _ _ _ E2)].
      split; [reflexivity | exact (field_deserialize_layout _ _ _ _ E)].
    + injection H as _ <-. constructor; [|apply same_entries_refl].
      split; [reflexivity | exact (field_deserialize_layout _ _ _ _ E)].
Qed.

Lemma deserialize_walk_keeps_schema input self r self' :
  FruArea.deserialize_walk input self = (r, self') -> same_schema self self'.
Proof.
  unfold FruArea.deserialize_walk.
  destruct (FixedField.deserialize input (FruArea._format_version self))
    as [[r1|e] fv] eqn:E.
  - destruct (FruArea.deserialize_values (FruArea._dict self) r1) as [r2 d2] eqn:E2.
    intros H. injection H as _ <-. split.
    + symmetry. exact (FixedField_deserialize_format _ _ _ _ E).
    + exact (deserialize_values_layout _ _ _ _ E2).
  - intros H. injection H as _ <-. split.
    + symmetry. exact (FixedField_deserialize_format _ _ _ _ E).
    + apply same_entries_refl.
Qed.

Lemma deserialize_state input self r self' :
  FruArea.deserialize input self = (r, self') ->
  exists r0, FruArea.deserialize_walk input self = (r0, self').
Proof.
  unfold FruArea.deserialize, mbind, pure_call.
  destruct (FruArea.deserialize_walk input self) as [[rem|e] s1].
  - destruct (list_eq_dec Z.eq_dec _ _); intros H; injection H as _ <-; eauto.
  - intros H. injection H as _ <-. eauto.
Qed.

(** X24.  Whatever they return or raise, [serialize] and [deserialize]
    keep the schema of the record: the format version field keeps its
    format, the fields keep their names and their order, a [FixedField]
    stays a [FixedField] of the same format and a [StringField] stays a
    [StringField]. *)
Theorem schema_is_kept (self self' : FruArea.t) :
  (forall r, FruArea.serialize self = (r, self') -> same_schema self self')
  /\ (forall input r,
         FruArea.deserialize input self = (r, self') -> same_schema self self').
Proof.
  split.
  - intros r. apply serialize_keeps_schema.
  - intros input r H. destruct (deserialize_state _ _ _ _ H) as [r0 Hw].
    exact (deserialize_walk_keeps_schema _ _ _ _ Hw).
Qed.

Lemma schema_is_kept_witness :
  same_schema stale_length_record (snd (FruArea.serialize stale_length_record))
  /\ same_schema empty_record
                 (snd (FruArea.deserialize [2; 0; 0; 0; 0; 0; 0; 255] empty_record)).
Proof.
  split.
  - apply (proj1 (schema_is_kept stale_length_record
                    (snd (FruArea.serialize stale_length_record)))
                 (fst (FruArea.serialize stale_length_record))).
    vm_compute. reflexivity.
  - apply (proj2 (schema_is_kept empty_record
                    (snd (FruArea.deserialize [2; 0; 0; 0; 0; 0; 0; 255]
                                              empty_record)))
                 [2; 0; 0; 0; 0; 0; 0; 255]
                 (fst (FruArea.deserialize [2; 0; 0; 0; 0; 0; 0; 255]
                                           empty_record))).
    vm_compute. reflexivity.
Defined.

(** X25.  An area followed by other data: the bytes a valid record has
    serialized, followed by any other bytes, deserialize into any record
    of the same schema, whatever it held, as the decoded form of the
    serialized record, and the bytes that follow are returned untouched. *)
Theorem serialize_then_deserialize_any
        (self self1 other : FruArea.t) (bs tail : bytes) :
  valid_record self ->
  same_schema self other ->
  FruArea.serialize self = (Ok bs, self1) ->
  FruArea.deserialize (bs ++ tail) other = (Ok tail, decoded self1).
Proof.
  intros Hv Hs H.
  destruct (serialize_inv _ _ _ Hv H)
    as (p & parts & Hp & Hparts & -> & (Hfmt & Hfv & Hok & _) & _).
  set (payload := p ++ concat parts).
  set (ep := FruArea._epilogue payload).
  assert (Hw : FruArea.deserialize_walk ((payload ++ ep) ++ tail) self1
               = (Ok (ep ++ tail), decoded self1)).
  { unfold FruArea.deserialize_walk, payload.
    rewrite <- !app_assoc.
    rewrite (FixedField_roundtrip _ p _ Hfv Hp).
    rewrite (values_roundtrip _ parts _ Hok Hparts). reflexivity. }
  assert (Hs1 : same_schema self1 other).
  { eapply same_schema_trans; [|exact Hs].
    apply same_schema_sym. exact (serialize_keeps_schema _ _ _ H). }
  apply (deserialize_walk_overwrites _ _ _ _ _ Hs1) in Hw.
  unfold FruArea.deserialize, mbind. rewrite Hw.
  rewrite <- app_assoc.
  rewrite drop_last_app
    by (intros E; apply app_eq_nil in E; destruct E as [E _];
        exact (_epilogue_not_nil _ E)).
  fold ep.
  rewrite firstn_app, firstn_all, Nat.sub_diag, skipn_app, skipn_all,
    Nat.sub_diag.
  cbn [firstn skipn app]. rewrite app_nil_r.
  destruct (list_eq_dec Z.eq_dec ep ep) as [_|Hne]; [reflexivity|].
  exfalso. apply Hne. reflexivity.
Qed.

Lemma serialize_then_deserialize_any_witness :
  FruArea.deserialize
    ([1; 1; 0; 0; 0; 0; 0; 254] ++ [1; 2; 3])
    (FruArea.mk (FixedField.mk [4; 4]%positive VNone)
                [("area_length"%string, Fixed (FixedField.mk [8%positive] VNone))])
  = (Ok [1; 2; 3], decoded (snd (FruArea.serialize area_length_only))).
Proof.
  apply (serialize_then_deserialize_any area_length_only).
  - split; [reflexivity|]. split; [reflexivity|]. split; [reflexivity|].
    repeat constructor. intros [].
  - split; [reflexivity|]. repeat constructor.
  - vm_compute. reflexivity.
Defined.

(** X26.  [deserialize] returns only for input that starts with a whole
    checksummed area: the bytes it has consumed are not empty, their
    number is a multiple of 8 and their sum is 0 modulo 256; what it
    returns are the bytes after them. *)
Theorem deserialize_accepts_only_checksummed
        (input rest : bytes) (self self' : FruArea.t) :
  FruArea.deserialize input self = (Ok rest, self') ->
  exists area,
    input = area ++ rest
    /\ area <> []
    /\ Z.of_nat (length area) mod 8 = 0
    /\ sum area mod 256 = 0.
Proof.
  unfold FruArea.deserialize, mbind, pure_call. intros H.
  destruct (FruArea.deserialize_walk input self) as [[rem|e] s1] eqn:Ew;
    [|discriminate].
  destruct (suffix_of_split _ _ (deserialize_walk_suffix _ _ _ _ Ew))
    as [consumed ->].
  destruct rem as [|x rem'].
  { exfalso. cbn [length drop_last firstn skipn] in H.
    destruct (list_eq_dec Z.eq_dec _ _) as [E|_]; [|discriminate].
    rewrite firstn_nil in E. exact (_epilogue_not_nil _ E). }
  rewrite drop_last_app in H by discriminate.
  destruct (list_eq_dec Z.eq_dec _ _) as [E|_]; [|discriminate].
  injection H as <- _.
  exists (consumed ++ FruArea._epilogue consumed).
  split; [|split; [|split]].
  - rewrite <- app_assoc. f_equal.
    rewrite E at 1. symmetry. apply firstn_skipn.
  - intros Hnil. apply app_eq_nil in Hnil. destruct Hnil as [_ Hnil].
    exact (_epilogue_not_nil _ Hnil).
  - apply _epilogue_length.
  - apply _epilogue_sum.
Qed.

Lemma deserialize_accepts_only_checksummed_witness :
  exists area,
    [1; 0; 0; 0; 0; 0; 0; 255; 7] = area ++ [7]
    /\ area <> []
    /\ Z.of_nat (length area) mod 8 = 0
    /\ sum area mod 256 = 0.
Proof.
  apply (deserialize_accepts_only_checksummed
           [1; 0; 0; 0; 0; 0; 0; 255; 7] [7] empty_record
           (snd (FruArea.deserialize [1; 0; 0; 0; 0; 0; 0; 255; 7] empty_record))).
  vm_compute. reflexivity.
Defined.

(** X27.  [serialize] is idempotent: once it has returned, calling it
    again returns the same bytes and leaves the record as it is. *)
Theorem serialize_idempotent (self self1 : FruArea.t) (bs : bytes) :
  FruArea.serialize self = (Ok bs, self1) ->
  FruArea.serialize self1 = (Ok bs, self1).
Proof.
  intros H.
  destruct (serialize_bytes _ _ _ H) as (p & parts & Hp & Hparts & ->).
  destruct (serialize_state _ _ _ H) as [->|(n & f & Hn & Eg & ->)];
    [exact H|].
  cbn [FruArea._dict] in Hparts.
  destruct (serialize_area_length_fixed _ _ _ _ Eg Hparts) as [g ->].
  unfold FruArea.serialize, mbind, pure_call.
  unfold FruArea._prologue in *. cbn [FruArea._format_version FruArea._dict].
  rewrite Hp. unfold FruArea.od_contains. rewrite od_get_put_same.
  assert (Hn' : FruArea.size_total
                  (FruArea.mk (FruArea._format_version self)
                     (FruArea.od_put (FruArea._dict self) "area_length"
                        (FruArea.field_assign (Fixed g) (VInt (n / 8)))))
                = Ok n).
  { unfold FruArea.size_total, FruArea.size_payload in *.
    cbn [FruArea._dict].
    rewrite (for_values_put FruArea.field_size _ _ _ _ Eg); [exact Hn|].
    reflexivity. }
  rewrite Hn'.
  pose proof (size_total_aligned _ _ Hn) as Hal.
  unfold FruArea.__setitem__. cbn [String.eqb Ascii.eqb Bool.eqb].
  unfold FruArea._set_area_length, FruArea._set.
  rewrite Hal. cbn [Z.eqb negb FruArea._dict FruArea._format_version].
  rewrite od_get_put_same, od_put_put, field_assign_assign.
  cbn [FruArea._dict]. rewrite Hparts.
  reflexivity.
Qed.

Lemma serialize_idempotent_witness :
  FruArea.serialize (snd (FruArea.serialize stale_length_record))
  = (Ok [1; 1; 0; 0; 0; 0; 0; 254], snd (FruArea.serialize stale_length_record)).
Proof.
  apply (serialize_idempotent stale_length_record). vm_compute. reflexivity.
Defined.

(** ** A record: what is decoded is encoded again *)

Lemma suffix_of_nil (rest : bytes) : suffix_of rest [] -> rest = [].
Proof. intros [n ->]. apply skipn_nil. Qed.

Lemma field_reencode (input rem : bytes) (v v' : Field) :
  Forall is_byte input ->
  FruArea.field_deserialize input v = (Ok rem, v') ->
  rem <> [] ->
  exists consumed,
    input = consumed ++ rem /\ FruArea.field_serialize v' = Ok consumed.
Proof.
  intros Hb H Hrem. destruct v as [f|f]; cbn [FruArea.field_deserialize] in H.
  - destruct (FixedField.deserialize input f) as [r f'] eqn:E.
    injection H as -> <-. exact (FixedField_reencode _ _ _ _ Hb E).
  - destruct (StringField.deserialize input f) as [r f'] eqn:E.
    injection H as -> <-. cbn [FruArea.field_serialize].
    destruct input as [|h tail]; [discriminate|].
    apply (StringField_reencode h tail rem f f' Hb); [|exact E].
    inversion Hb as [|? ? Hh _]; subst.
    destruct (StringField_deserialize_cons h tail f Hh) as (fmt & _ & Hd).
    rewrite Hd in E.
    destruct (StringField.deser_fn fmt _); [|discriminate].
    injection E as E _.
    destruct (Z.le_gt_cases (h mod 64) (Z.of_nat (length tail))) as [Hle|Hgt];
      [exact Hle|].
    exfalso. apply Hrem. rewrite <- E. apply drop_all. lia.
Qed.

Lemma values_reencode (d : FruArea.odict) : forall input rem d',
  Forall is_byte input ->
  FruArea.deserialize_values d input = (Ok rem, d') ->
  rem <> [] ->
  exists parts,
    input = concat parts ++ rem
    /\ FruArea.for_values FruArea.field_serialize d' = Ok parts.
Proof.
  unfold FruArea.for_values.
  induction d as [|[k v] d IH]; intros input rem d' Hb H Hrem.
  - injection H as <- <-. exists []. split; reflexivity.
  - cbn [FruArea.deserialize_values] in H.
    destruct (FruArea.field_deserialize input v) as [[r1|e] v1] eqn:E;
      [|discriminate].
    destruct (FruArea.deserialize_values d r1) as [r2 d2] eqn:E2.
    injection H as -> <-.
    assert (Hr1 : r1 <> []).
    { intros ->. apply Hrem, suffix_of_nil.
      exact (deserialize_values_suffix _ _ _ _ E2). }
    destruct (field_reencode _ _ _ _ Hb E Hr1) as (c & -> & Hc).
    apply Forall_app in Hb. destruct Hb as [_ Hb1].
    destruct (IH _ _ _ Hb1 E2 Hrem) as (ps & -> & Hps).
    exists (c :: ps). split; [cbn [concat]; apply app_assoc|].
    cbn [StringField.map_result snd]. rewrite Hc. cbn [bind].
    rewrite Hps. reflexivity.
Qed.

Lemma walk_reencode (input rem : bytes) (self self' : FruArea.t) :
  Forall is_byte input ->
  FruArea.deserialize_walk input self = (Ok rem, self') ->
  rem <> [] ->
  exists p parts,
    input = (p ++ concat parts) ++ rem
    /\ FixedField.serialize (FruArea._format_version self') = Ok p
    /\ FruArea.for_values FruArea.field_serialize (FruArea._dict self') = Ok parts.
Proof.
  intros Hb H Hrem. unfold FruArea.deserialize_walk in H.
  destruct (FixedField.deserialize input (FruArea._format_version self))
    as [[r1|e] fv] eqn:E; [|discriminate].
  destruct (FruArea.deserialize_values (FruArea._dict self) r1) as [r2 d2] eqn:E2.
  injection H as -> <-.
  destruct (FixedField_reencode _ _ _ _ Hb E) as (p & -> & Hp).
  apply Forall_app in Hb. destruct Hb as [_ Hb1].
  destruct (values_reencode _ _ _ _ Hb1 E2 Hrem) as (parts & -> & Hparts).
  exists p, parts. cbn [FruArea._format_version FruArea._dict].
  split; [apply app_assoc | auto].
Qed.

(** X28.  What [deserialize] has decoded serializes back to the area it
    was decoded from: when [deserialize] returns and the field
    [area_length], if the schema has one, holds what [serialize] would
    assign, [serialize] on the record returns exactly the bytes
    [deserialize] has consumed and leaves the record as it is. *)
Theorem deserialize_then_serialize
        (input rest : bytes) (self self' : FruArea.t) :
  Forall is_byte input ->
  FruArea.deserialize input self = (Ok rest, self') ->
  area_length_settled self' ->
  exists area,
    input = area ++ rest
    /\ FruArea.serialize self' = (Ok area, self').
Proof.
  intros Hb H Hal. unfold FruArea.deserialize, mbind, pure_call in H.
  destruct (FruArea.deserialize_walk input self) as [[rem|e] s1] eqn:Ew;
    [|discriminate].
  destruct rem as [|x rem'].
  { exfalso. cbn [length drop_last firstn skipn] in H.
    destruct (list_eq_dec Z.eq_dec _ _) as [E|_]; [|discriminate].
    rewrite firstn_nil in E. exact (_epilogue_not_nil _ E). }
  destruct (walk_reencode _ _ _ _ Hb Ew ltac:(discriminate))
    as (p & parts & -> & Hp & Hparts).
  rewrite drop_last_app in H by discriminate.
  set (payload := p ++ concat parts) in *.
  destruct (list_eq_dec Z.eq_dec _ _) as [E|_]; [|discriminate].
  injection H as <- <-.
  exists (payload ++ FruArea._epilogue payload). split.
  - rewrite <- app_assoc. f_equal.
    rewrite E at 1. symmetry. apply firstn_skipn.
  - unfold FruArea.serialize, mbind, pure_call, FruArea._prologue.
    rewrite Hp. unfold area_length_settled in Hal.
    unfold FruArea.od_contains.
    destruct (FruArea.od_get (FruArea._dict s1) "area_length") as [f|] eqn:Eg.
    + destruct Hal as (n & Hn & Hf). rewrite Hn.
      pose proof (size_total_aligned _ _ Hn) as Hmod.
      unfold FruArea.__setitem__. cbn [String.eqb Ascii.eqb Bool.eqb].
      unfold FruArea._set_area_length, FruArea._set.
      rewrite Hmod, Eg. cbn [Z.eqb negb].
      rewrite <- Hf, field_assign_value, (od_put_get_id _ _ _ Eg).
      cbn [FruArea._dict]. rewrite Hparts.
      destruct s1; reflexivity.
    + rewrite Hparts. reflexivity.
Qed.

Lemma deserialize_then_serialize_witness :
  exists area,
    [1; 1; 0; 0; 0; 0; 0; 254; 9] = area ++ [9]
    /\ FruArea.serialize (snd (FruArea.serialize area_length_only))
       = (Ok area, snd (FruArea.serialize area_length_only)).
Proof.
  apply (deserialize_then_serialize
           [1; 1; 0; 0; 0; 0; 0; 254; 9] [9] area_length_only).
  - repeat constructor; unfold is_byte; lia.
  - vm_compute. reflexivity.
  - exists 8. split; vm_compute; reflexivity.
Defined.

(** ** What [FixedField.serialize] refuses *)

Lemma pack_any_int_raises order (fmt : list positive) : forall zs acc e,
  bitstruct.pack_any order fmt (map VInt zs) acc = Err e ->
  length zs = length fmt ->
  e = bitstruct_Error.
Proof.
  induction fmt as [|size fmt IH]; intros zs acc e H Hl; [discriminate|].
  destruct zs as [|z zs]; [discriminate|].
  cbn [map bitstruct.pack_any] in H. unfold bitstruct.pack_value in H.
  rewrite uint_pack_int in H.
  destruct ((0 <=? z) && (z <? 2 ^ Z.pos size)).
  - cbn [bind] in H. destruct order; cbn [bind] in H;
      (eapply IH; [exact H | cbn [length] in Hl; lia]).
  - injection H as <-. reflexivity.
Qed.

Lemma pack_range (fmt : list positive) order (vs : list Z) :
  length vs = length fmt ->
  (Forall2 in_range fmt vs ->
   exists bs, bitstruct.pack fmt order (map VInt vs) = Ok bs)
  /\ (~ Forall2 in_range fmt vs ->
      bitstruct.pack fmt order (map VInt vs) = Err bitstruct_Error).
Proof.
  intros Hl. unfold bitstruct.pack.
  rewrite length_map, Hl, Nat.ltb_irrefl. split.
  - intros Hr. destruct (pack_any_ok order fmt vs Hr []) as (B & -> & _).
    cbn [bind]. eauto.
  - intros Hr.
    destruct (bitstruct.pack_any order fmt (map VInt vs) []) as [b|e] eqn:E.
    + exfalso. apply Hr. exact (pack_any_in_range _ _ _ _ _ Hl E).
    + cbn [bind]. f_equal. exact (pack_any_int_raises _ _ _ _ _ E Hl).
Qed.

(** X29.  [FixedField.serialize] of as many integers as the format has
    groups, held as a tuple or, for one group, as a single integer,
    returns exactly when every integer fits its group, from 0 to
    [2 ** width - 1], and otherwise raises [bitstruct.Error]; it also
    raises [bitstruct.Error] for a tuple of fewer values than groups. *)
Theorem FixedField_serialize_range (fmt : list positive) (vs : list Z) :
  length vs = length fmt ->
  let held_as value :=
    value = VTuple (map VInt vs) \/ exists v, vs = [v] /\ value = VInt v in
  (forall value, held_as value ->
     Forall2 in_range fmt vs ->
     exists bs, FixedField.serialize (FixedField.mk fmt value) = Ok bs)
  /\ (forall value, held_as value ->
        ~ Forall2 in_range fmt vs ->
        FixedField.serialize (FixedField.mk fmt value) = Err bitstruct_Error)
  /\ (forall l, (length l < length fmt)%nat ->
        FixedField.serialize (FixedField.mk fmt (VTuple l))
        = Err bitstruct_Error).
Proof.
  intros Hl held_as.
  destruct (pack_range fmt bitstruct.LSB_first vs Hl) as [Hok Herr].
  assert (Hs : forall value, held_as value ->
                 FixedField.serialize (FixedField.mk fmt value)
                 = bitstruct.pack fmt bitstruct.LSB_first (map VInt vs)).
  { intros value [->|(v & -> & ->)]; reflexivity. }
  split; [|split].
  - intros value Hv Hr. rewrite (Hs value Hv). exact (Hok Hr).
  - intros value Hv Hr. rewrite (Hs value Hv). exact (Herr Hr).
  - intros l Hlt. unfold FixedField.serialize, bitstruct.pack.
    cbn [FixedField.value FixedField.format].
    apply Nat.ltb_lt in Hlt. rewrite Hlt. reflexivity.
Qed.

Lemma FixedField_serialize_range_witness :
  FixedField.serialize (FixedField.mk [4; 4]%positive (VTuple [VInt 0; VInt 16]))
  = Err bitstruct_Error.
Proof.
  apply (proj1 (proj2 (FixedField_serialize_range [4; 4]%positive [0; 16]
                                                  eq_refl))).
  - left. reflexivity.
  - intros H. inversion H as [|? ? ? ? _ H1]; subst.
    inversion H1 as [|? ? ? ? [_ H2] _]; subst.
    vm_compute in H2. discriminate.
Defined.

(* ================================================================== *)
(** * The state a refused buffer leaves in the record                  *)
(* ================================================================== *)

Lemma deserialize_values_decoded (d : FruArea.odict) : forall input rest d',
  FruArea.deserialize_values d input = (Ok rest, d') ->
  fields_decoded_from d input d' rest.
Proof.
  induction d as [|[k v] d IH]; intros input rest d' H.
  - injection H as <- <-. reflexivity.
  - cbn [FruArea.deserialize_values] in H.
    destruct (FruArea.field_deserialize input v) as [[r1|e] v1] eqn:E;
      [|discriminate].
    destruct (FruArea.deserialize_values d r1) as [r2 d2] eqn:E2.
    injection H as -> <-. cbn [fields_decoded_from].
    split; [reflexivity|]. exists r1. split; [exact E|].
    exact (IH _ _ _ E2).
Qed.

(** C9.  [deserialize] is not atomic: when it raises the verification
    error, the format version and every schema field have been
    overwritten with the values decoded from the refused buffer.  The
    version field holds what its own [deserialize] stores from the front
    of the buffer, and every schema field holds what its own
    [deserialize] stores from the bytes the fields before it have left;
    the bytes received by the verification are the next ones.  Where
    bytes are left to verify, the values held are those the buffer
    encodes: serialized again, the version and the fields give back
    exactly the bytes of the buffer in front of the ones left.  The
    state depends on the schema and the buffer alone, so none of the
    values held before the call is restored. *)
Theorem deserialize_failure_keeps_decoded_state
        (input : bytes) (self self' : FruArea.t) (expected received : bytes) :
  FruArea.deserialize input self
  = (Err (RuntimeError (verify_error expected received)), self') ->
  exists after_version rest,
    FixedField.deserialize input (FruArea._format_version self)
    = (Ok after_version, FruArea._format_version self')
    /\ fields_decoded_from (FruArea._dict self) after_version
                           (FruArea._dict self') rest
    /\ FruArea.deserialize_walk input self = (Ok rest, self')
    /\ received = firstn (length expected) rest
    /\ (Forall is_byte input -> rest <> [] ->
        exists p parts,
          FixedField.serialize (FruArea._format_version self') = Ok p
          /\ FruArea.for_values FruArea.field_serialize (FruArea._dict self')
             = Ok parts
          /\ input = (p ++ concat parts) ++ rest)
    /\ (forall other,
           same_schema self other ->
           FruArea.deserialize input other
           = (Err (RuntimeError (verify_error expected received)), self')).
Proof.
  intros H.
  assert (Hw : exists rest,
             FruArea.deserialize_walk input self = (Ok rest, self')
             /\ received = firstn (length expected) rest).
  { unfold FruArea.deserialize, mbind, pure_call in H.
    destruct (FruArea.deserialize_walk input self) as [[rest|e] s1] eqn:Ew.
    - exists rest.
      destruct (list_eq_dec Z.eq_dec _ _); [discriminate|].
      injection H as <- <- <-. split; reflexivity.
    - exfalso. injection H as -> _.
      exact (deserialize_walk_raises _ _ _ _ Ew). }
  destruct Hw as (rest & Hw & Hrec).
  pose proof Hw as Hparts. unfold FruArea.deserialize_walk in Hparts.
  destruct (FixedField.deserialize input (FruArea._format_version self))
    as [[r1|e] fv] eqn:Efv; [|discriminate].
  destruct (FruArea.deserialize_values (FruArea._dict self) r1) as [r2 d2] eqn:Ed.
  injection Hparts as -> <-. cbn [FruArea._format_version FruArea._dict].
  exists r1, rest.
  split; [reflexivity|].
  split; [exact (deserialize_values_decoded _ _ _ _ Ed)|].
  split; [exact Hw|].
  split; [exact Hrec|].
  split.
  - intros Hb Hrest.
    destruct (walk_reencode _ _ _ _ Hb Hw Hrest) as (p & parts & Hin & Hp & Hps).
    exists p, parts. auto.
  - intros other Hs.
    pose proof (deserialize_walk_overwrites _ _ _ _ _ Hs Hw) as Hw'.
    unfold FruArea.deserialize, mbind in *. rewrite Hw in H. rewrite Hw'.
    exact H.
Qed.

(** The buffer 02 2A C2 68 69 00 00 00 is refused, as its last byte
    should be 0x41; it leaves version 2, the count 42 and the ASCII text
    [hi] in a record that held version 1, the count 7 and the BCD_PLUS
    text [12]. *)
Lemma deserialize_failure_keeps_decoded_state_witness :
  let input := [2; 0x2A; 0xC2; 0x68; 0x69; 0; 0; 0] in
  let left :=
    FruArea.mk
      (FixedField.mk [4; 4]%positive (VTuple [VInt 0; VInt 2]))
      [("count"%string, Fixed (FixedField.mk [8%positive] (VInt 42)));
       ("name"%string,
        Text (StringField.mk ASCII_8BIT (VStr (str_of "hi"))))] in
  FruArea.deserialize input held_record
  = (Err (RuntimeError (verify_error [0; 0; 0x41] [0; 0; 0])), left)
  /\ exists after_version rest,
       FixedField.deserialize input (FruArea._format_version held_record)
       = (Ok after_version, FruArea._format_version left)
       /\ fields_decoded_from (FruArea._dict held_record) after_version
                              (FruArea._dict left) rest
       /\ FruArea.deserialize_walk input held_record = (Ok rest, left)
       /\ [0; 0; 0] = firstn (length [0; 0; 0x41]) rest
       /\ (Forall is_byte input -> rest <> [] ->
           exists p parts,
             FixedField.serialize (FruArea._format_version left) = Ok p
             /\ FruArea.for_values FruArea.field_serialize (FruArea._dict left)
                = Ok parts
             /\ input = (p ++ concat parts) ++ rest)
       /\ (forall other,
              same_schema held_record other ->
              FruArea.deserialize input other
              = (Err (RuntimeError (verify_error [0; 0; 0x41] [0; 0; 0])),
                 left)).
Proof.
  cbv zeta. split; [vm_compute; reflexivity|].
  apply (deserialize_failure_keeps_decoded_state
           [2; 0x2A; 0xC2; 0x68; 0x69; 0; 0; 0] held_record).
  vm_compute. reflexivity.
Defined.
